(** * DarkDB: a shallow embedding of the mutation engine, the index manager,
      the query matcher and the transaction logic.

    Conventions of the embedding.

    - JavaScript values are the closed union [value].  Numbers are the
      integers ([Z]) that a double holds; arithmetic is stated where doubles
      are exact ([Value.safe_integer]).  Text is a sequence of UTF-16 code
      units below 256 (ASCII and the Latin-1 supplement), on which lower
      case and white space are the ones of JavaScript.
    - An object is the ordered list of its own properties.  Enumeration
      order is the one of JavaScript: canonical array indices in ascending
      order first, then the other names in creation order.  Members that an
      object inherits from its prototype are not part of the embedding:
      [Value.has_prop] and [Value.get_prop] answer for own properties, and
      every statement about a path says that the path uses none of the
      inherited names ([own_path], [tame]).
    - Containers have no identity: a tree shares no object between two
      places, and the arguments of an operation are values of their own.
      Where [===] could compare two containers, a statement says that one
      side is a scalar.
    - A [Map] is the list of its entries and a [Set] the list of its
      members, both in insertion order.
    - Methods that mutate [this] are state transformers in the monad [M]:
      the store that comes out of a call is returned next to its outcome,
      also when the call throws, since a JavaScript exception does not undo
      the writes made before it.
    - [Date.now()] is an argument [now] of the operations that read the
      clock; one call of an operation sees one instant.
    - Writing or deleting a property of an array, or of a root that is not
      a map, needs the exotic-object rules of arrays (length, holes); such
      calls yield [Unsupported], and the statements about writes are made
      for paths that stay among maps ([plain_path]), on which no call does.
    - A hook is a function of its payload that returns or throws; it does
      not call back into the store. *)

From Stdlib Require Import List String Ascii ZArith NArith Lia Bool Arith.
From Stdlib Require Import DecimalString.
Import ListNotations.
Open Scope string_scope.
Open Scope Z_scope.

Set Implicit Arguments.
Set Warnings "-register-all".

(** ** Outcomes *)

Inductive error :=
| InvalidKey                       (* "Key cannot be an empty string." *)
| InvalidFilter (which : string)   (* "$and must be array", "$or must be array" *)
| UnknownOperator (op : string)    (* "Unknown operator ..." *)
| SchemaViolation (field : string) (* "Schema validation failed: ..." *)
| ImportExpectsObject              (* "import() expects object" *)
| TypeError                        (* raised by the language itself *)
| SyntaxError                      (* raised by JSON.parse / RegExp *)
| UserError (msg : string).        (* raised by a hook or a transaction body *)

Inductive result (A : Type) :=
| Ok (a : A)
| Throw (e : error)
| Unsupported.

Arguments Ok {A} a.
Arguments Throw {A} e.
Arguments Unsupported {A}.

Definition rbind {A B} (r : result A) (k : A -> result B) : result B :=
  match r with
  | Ok a => k a
  | Throw e => Throw e
  | Unsupported => Unsupported
  end.

(** ** Text

    A [string] is a sequence of UTF-16 code units below 256, one [ascii]
    each: the letter U+00C9 is the one unit [ascii_of_nat 201], not the two
    bytes of its UTF-8 writing. *)

Module Text.

Definition quote : string := String (ascii_of_nat 34) EmptyString.

  (* a code unit that toLowerCase changes: A to Z, and in the Latin-1
     supplement U+00C0 to U+00DE without the multiplication sign U+00D7;
     each one is 32 below its lower-case form *)
Definition is_upper (c : ascii) : bool :=
    let n := nat_of_ascii c in
    ((Nat.leb 65 n && Nat.leb n 90)
     || (Nat.leb 192 n && Nat.leb n 222 && negb (Nat.eqb n 215)))%bool.

Definition lower_char (c : ascii) : ascii :=
    if is_upper c then ascii_of_nat (nat_of_ascii c + 32) else c.

  (* String.prototype.toLowerCase *)
Fixpoint toLowerCase (s : string) : string :=
    match s with
    | EmptyString => EmptyString
    | String c s' => String (lower_char c) (toLowerCase s')
    end.

  (* the class \s, below 256: tab to carriage return, the space and the
     no-break space U+00A0 *)
Definition is_space (c : ascii) : bool :=
    let n := nat_of_ascii c in
    (Nat.eqb n 32 || (Nat.leb 9 n && Nat.leb n 13) || Nat.eqb n 160)%bool.

Definition snoc (s : string) (c : ascii) : string :=
    s ++ String c EmptyString.

  (* s.split(/\s+/): [cur] is the piece being read, [in_ws] tells that the
     previous character belonged to a separator. *)
Fixpoint split_ws_go (cur : string) (in_ws : bool) (s : string) : list string :=
    match s with
    | EmptyString => [cur]
    | String c s' =>
        if is_space c then
          if in_ws then split_ws_go EmptyString true s'
          else cur :: split_ws_go EmptyString true s'
        else split_ws_go (snoc cur c) false s'
    end.

Definition split_ws (s : string) : list string :=
    split_ws_go EmptyString false s.

Definition nonempty (s : string) : bool :=
    match s with EmptyString => false | _ => true end.

  (* s.split(sep) for a non-empty separator: [skip] counts the characters
     of a separator occurrence still to be dropped. *)
Fixpoint split_go (sep : string) (skip : nat) (cur : string) (s : string)
    : list string :=
    match s with
    | EmptyString => [cur]
    | String c s' =>
        match skip with
        | S n => split_go sep n cur s'
        | O =>
            if String.prefix sep s
            then cur :: split_go sep (String.length sep - 1) EmptyString s'
            else split_go sep 0 (snoc cur c) s'
        end
    end.

Fixpoint chars (s : string) : list string :=
    match s with
    | EmptyString => []
    | String c s' => String c EmptyString :: chars s'
    end.

  (* String.prototype.split with a string separator *)
Definition split (sep s : string) : list string :=
    match sep with
    | EmptyString => chars s
    | _ => split_go sep 0 EmptyString s
    end.

Definition is_digit (c : ascii) : bool :=
    let n := nat_of_ascii c in (Nat.leb 48 n && Nat.leb n 57)%bool.

Fixpoint digits_value (acc : N) (s : string) : option N :=
    match s with
    | EmptyString => Some acc
    | String c s' =>
        if is_digit c
        then digits_value (acc * 10 + N.of_nat (nat_of_ascii c - 48))%N s'
        else None
    end.

  (* A canonical array index: the decimal writing, without a leading zero,
     of an integer below 2^32 - 1. *)
Definition array_index (s : string) : option N :=
    match s with
    | EmptyString => None
    | String c s' =>
        if (Ascii.eqb c "0" && nonempty s')%bool then None
        else match digits_value 0%N s with
             | Some n => if (n <? 4294967295)%N then Some n else None
             | None => None
             end
    end.

Definition of_nat (n : nat) : string :=
    NilZero.string_of_uint (Nat.to_uint n).

Definition of_Z (z : Z) : string :=
    NilZero.string_of_int (Z.to_int z).

End Text.

(** ** Values and property lists *)

Inductive value :=
| VUndef
| VNull
| VBool (b : bool)
| VNum (n : Z)
| VStr (s : string)
| VArr (elems : list value)
| VObj (props : list (string * value)).

Module Props.

Section Generic.
Variable A : Type.

Definition t := list (string * A).

    (* obj[k] for an own property *)
Fixpoint lookup (k : string) (m : t) : option A :=
      match m with
      | [] => None
      | (k', v) :: m' => if String.eqb k' k then Some v else lookup k m'
      end.

    (* k in obj *)
Definition has (k : string) (m : t) : bool :=
      match lookup k m with Some _ => true | None => false end.

Fixpoint replace (k : string) (v : A) (m : t) : t :=
      match m with
      | [] => []
      | (k', v') :: m' =>
          if String.eqb k' k then (k, v) :: m' else (k', v') :: replace k v m'
      end.

    (* Does a new property [k] (of index [ik]) come before the existing [k']? *)
Definition before (ik : option N) (k' : string) : bool :=
      match ik, Text.array_index k' with
      | Some i, Some j => (i <? j)%N
      | Some _, None => true
      | None, _ => false
      end.

Fixpoint add (ik : option N) (k : string) (v : A) (m : t) : t :=
      match m with
      | [] => [(k, v)]
      | (k', v') :: m' =>
          if before ik k' then (k, v) :: m else (k', v') :: add ik k v m'
      end.

    (* obj[k] = v *)
Definition set (k : string) (v : A) (m : t) : t :=
      if has k m then replace k v m else add (Text.array_index k) k v m.

    (* delete obj[k] *)
Fixpoint remove (k : string) (m : t) : t :=
      match m with
      | [] => []
      | (k', v') :: m' =>
          if String.eqb k' k then remove k m' else (k', v') :: remove k m'
      end.

End Generic.

End Props.

Module Value.

  (* typeof v === "object" *)
Definition is_object_type (v : value) : bool :=
    match v with VNull | VArr _ | VObj _ => true | _ => false end.

  (* v == null *)
Definition is_nullish (v : value) : bool :=
    match v with VUndef | VNull => true | _ => false end.

Definition isArray (v : value) : bool :=
    match v with VArr _ => true | _ => false end.

  (* ToBoolean *)
Definition truthy (v : value) : bool :=
    match v with
    | VUndef | VNull => false
    | VBool b => b
    | VNum n => negb (n =? 0)
    | VStr s => Text.nonempty s
    | VArr _ | VObj _ => true
    end.

  (* a === b, when [a] or [b] is a scalar.  Two containers are equal when
     they are the same object, which a value does not tell: the answer
     [false] is the one for two objects of their own. *)
Definition strict_eq (a b : value) : bool :=
    match a, b with
    | VUndef, VUndef => true
    | VNull, VNull => true
    | VBool x, VBool y => Bool.eqb x y
    | VNum x, VNum y => x =? y
    | VStr x, VStr y => String.eqb x y
    | _, _ => false
    end.


  (* Number.isSafeInteger, one step wider: the integers up to 2^53 in
     absolute value, which a double holds and adds exactly *)
Definition safe_integer (z : Z) : bool := Z.abs z <=? 9007199254740992.

Definition elem (l : list value) (k : string) : option value :=
    match Text.array_index k with
    | Some i => nth_error l (N.to_nat i)
    | None => None
    end.

  (* k in v, for a v with typeof v === "object" and a name that v does not
     inherit: an own property of a map, an index or the length of an
     array *)
Definition has_prop (v : value) (k : string) : bool :=
    match v with
    | VObj m => Props.has k m
    | VArr l =>
        match elem l k with
        | Some _ => true
        | None => String.eqb k "length"
        end
    | _ => false
    end.

Definition char_at (s : string) (k : string) : option value :=
    match Text.array_index k with
    | Some i =>
        match String.get (N.to_nat i) s with
        | Some c => Some (VStr (String c EmptyString))
        | None => None
        end
    | None => None
    end.

  (* v[k], for a name that v does not inherit *)
Definition get_prop (v : value) (k : string) : result value :=
    match v with
    | VUndef | VNull => Throw TypeError
    | VBool _ | VNum _ => Ok VUndef
    | VStr s =>
        match char_at s k with
        | Some c => Ok c
        | None =>
            if String.eqb k "length"
            then Ok (VNum (Z.of_nat (String.length s))) else Ok VUndef
        end
    | VArr l =>
        match elem l k with
        | Some x => Ok x
        | None =>
            if String.eqb k "length"
            then Ok (VNum (Z.of_nat (List.length l))) else Ok VUndef
        end
    | VObj m =>
        match Props.lookup k m with
        | Some x => Ok x
        | None => Ok VUndef
        end
    end.

Fixpoint indexed (i : nat) (l : list value) : list (string * value) :=
    match l with
    | [] => []
    | x :: l' => (Text.of_nat i, x) :: indexed (S i) l'
    end.

  (* Object.entries(v), for a v with typeof v === "object" and v !== null *)
Definition own_entries (v : value) : list (string * value) :=
    match v with
    | VObj m => m
    | VArr l => indexed 0 l
    | _ => []
    end.

End Value.

(** ** JSON *)

Module JSON.

Definition hex_digit (n : nat) : ascii :=
    if Nat.ltb n 10 then ascii_of_nat (48 + n) else ascii_of_nat (87 + n).

Definition backslash : ascii := ascii_of_nat 92.

Definition escape_char (c : ascii) : string :=
    let n := nat_of_ascii c in
    if Nat.eqb n 34 then String backslash Text.quote
    else if Nat.eqb n 92 then String backslash (String backslash EmptyString)
    else if Nat.eqb n 8 then String backslash "b"
    else if Nat.eqb n 9 then String backslash "t"
    else if Nat.eqb n 10 then String backslash "n"
    else if Nat.eqb n 12 then String backslash "f"
    else if Nat.eqb n 13 then String backslash "r"
    else if Nat.ltb n 32
         then String backslash
                ("u00" ++ String (hex_digit (n / 16))
                            (String (hex_digit (n mod 16)) EmptyString))
    else String c EmptyString.

Fixpoint escape (s : string) : string :=
    match s with
    | EmptyString => EmptyString
    | String c s' => escape_char c ++ escape s'
    end.

Definition quoted (s : string) : string :=
    Text.quote ++ escape s ++ Text.quote.

  (* JSON.stringify(v); [None] is the result undefined *)
Fixpoint stringify (v : value) : option string :=
    match v with
    | VUndef => None
    | VNull => Some "null"
    | VBool true => Some "true"
    | VBool false => Some "false"
    | VNum n => Some (Text.of_Z n)
    | VStr s => Some (quoted s)
    | VArr l =>
        Some ("[" ++ String.concat ","
                (map (fun x => match stringify x with
                               | Some s => s
                               | None => "null"
                               end) l) ++ "]")
    | VObj m =>
        Some ("{" ++ String.concat ","
                (flat_map (fun kx => match stringify (snd kx) with
                                     | Some s => [quoted (fst kx) ++ ":" ++ s]
                                     | None => []
                                     end) m) ++ "}")
    end.

  (* what JSON.parse gives back from the text of [stringify] *)
Fixpoint revive (v : value) : value :=
    match v with
    | VArr l =>
        VArr (map (fun x => match x with
                            | VUndef => VNull
                            | _ => revive x
                            end) l)
    | VObj m =>
        VObj (flat_map (fun kx => match snd kx with
                                  | VUndef => []
                                  | _ => [(fst kx, revive (snd kx))]
                                  end) m)
    | _ => v
    end.

  (* JSON.parse(JSON.stringify(v)) *)
Definition clone (v : value) : result value :=
    match v with
    | VUndef => Throw SyntaxError
    | _ => Ok (revive v)
    end.

End JSON.

(** ** The index manager *)

Module IndexManager.

Record t := mk {
    indexes : list (string * list string);   (* Map<string, Set<string>> *)
    fields : list string
  }.

Definition constructor (fields : list string) : t := mk [] fields.

Definition tokens (text : string) : list string :=
    filter Text.nonempty (Text.split_ws (Text.toLowerCase text)).

Definition set_has (key : string) (keys : list string) : bool :=
    existsb (String.eqb key) keys.

Definition set_add (key : string) (keys : list string) : list string :=
    if set_has key keys then keys else (keys ++ [key])%list.

Definition set_delete (key : string) (keys : list string) : list string :=
    filter (fun k => negb (String.eqb key k)) keys.

Fixpoint map_update (word : string) (f : list string -> list string)
           (idx : list (string * list string)) : list (string * list string) :=
    match idx with
    | [] => []
    | (w, ks) :: idx' =>
        if String.eqb w word then (w, f ks) :: idx'
        else (w, ks) :: map_update word f idx'
    end.

Definition add_posting (key : string) (idx : list (string * list string))
             (word : string) : list (string * list string) :=
    let idx1 := if Props.has word idx then idx else (idx ++ [(word, [])])%list in
    map_update word (set_add key) idx1.

Definition indexText (im : t) (key text : string) : t :=
    mk (fold_left (add_posting key) (tokens text) (indexes im)) (fields im).

Fixpoint delete_entries (key : string) (idx : list (string * list string))
    : list (string * list string) :=
    match idx with
    | [] => []
    | (word, keys) :: idx' =>
        if set_has key keys then
          match set_delete key keys with
          | [] => delete_entries key idx'
          | keys' => (word, keys') :: delete_entries key idx'
          end
        else (word, keys) :: delete_entries key idx'
    end.

Definition delete (im : t) (key : string) : t :=
    mk (delete_entries key (indexes im)) (fields im).

  (* value[field] && typeof value[field] === "string" *)
Definition field_text (v : value) (field : string) : option string :=
    match Value.get_prop v field with
    | Ok (VStr s) => if Text.nonempty s then Some s else None
    | _ => None
    end.

Definition update (im : t) (key : string) (v : value) : t :=
    let im1 := delete im key in
    if (Value.is_object_type v && negb (Value.is_nullish v))%bool then
      fold_left (fun im field =>
                   match field_text v field with
                   | Some text => indexText im key text
                   | None => im
                   end) (fields im1) im1
    else im1.

Definition postings (im : t) (word : string) : list string :=
    match Props.lookup word (indexes im) with
    | Some keys => keys
    | None => []
    end.

Fixpoint search_rest (im : t) (results : list string) (words : list string)
    : list string :=
    match words with
    | [] => results
    | w :: words' =>
        match Props.lookup w (indexes im) with
        | None => []
        | Some wordResults =>
            search_rest im
              (filter (fun x => set_has x wordResults) results) words'
        end
    end.

Definition search (im : t) (query : string) : list string :=
    match tokens query with
    | [] => []
    | w0 :: rest =>
        match postings im w0 with
        | [] => []
        | results => search_rest im results rest
        end
    end.

Definition clear (im : t) : t := mk [] (fields im).

End IndexManager.

(** ** The store *)

Inductive phase := Pre | Post.

Inductive schema_type := TString | TNumber | TBoolean | TOther.

(* A registered hook: called with the payload, it returns or throws. *)
Definition hook := value -> option error.

(* What the collaborators of the store get to see, in order.  An emitted
   event is delivered to its listeners at once; [seen] is the tree they find
   in the store at that instant. *)
Inductive event :=
| Emitted (type : string) (payload : value) (seen : value)
| HookRun (ph : phase) (action : string) (pos : nat) (payload : value)
| SaveScheduled.

Record DarkDB := mkDarkDB {
  separator : string;
  autoFile : bool;
  schema : option (list (string * schema_type));
  _hooks : phase -> string -> list hook;
  _data : value;
  _expires : list (string * Z);
  _saveTimer : bool;
  _indexManager : IndexManager.t;
  trace : list event
}.

Definition M (A : Type) : Type := DarkDB -> result A * DarkDB.

Definition ret {A} (a : A) : M A := fun db => (Ok a, db).

Definition bind {A B} (m : M A) (k : A -> M B) : M B :=
  fun db =>
    match m db with
    | (Ok a, db') => k a db'
    | (Throw e, db') => (Throw e, db')
    | (Unsupported, db') => (Unsupported, db')
    end.

Definition lift {A} (r : result A) : M A := fun db => (r, db).

Definition throw {A} (e : error) : M A := fun db => (Throw e, db).

Definition read {A} (f : DarkDB -> A) : M A := fun db => (Ok (f db), db).

Definition modify (f : DarkDB -> DarkDB) : M unit := fun db => (Ok tt, f db).

Declare Scope store_scope.
Delimit Scope store_scope with store.
Notation "x <- m ;; k" := (bind m (fun x => k))
  (at level 61, m at next level, right associativity) : store_scope.
Notation "m ;; k" := (bind m (fun _ => k))
  (at level 61, right associativity) : store_scope.
Open Scope store_scope.

Definition with_data (t : value) (db : DarkDB) : DarkDB :=
  mkDarkDB (separator db) (autoFile db) (schema db) (_hooks db)
           t (_expires db) (_saveTimer db) (_indexManager db) (trace db).

Definition with_expires (e : list (string * Z)) (db : DarkDB) : DarkDB :=
  mkDarkDB (separator db) (autoFile db) (schema db) (_hooks db)
           (_data db) e (_saveTimer db) (_indexManager db) (trace db).

Definition with_saveTimer (b : bool) (db : DarkDB) : DarkDB :=
  mkDarkDB (separator db) (autoFile db) (schema db) (_hooks db)
           (_data db) (_expires db) b (_indexManager db) (trace db).

Definition with_indexManager (im : IndexManager.t) (db : DarkDB) : DarkDB :=
  mkDarkDB (separator db) (autoFile db) (schema db) (_hooks db)
           (_data db) (_expires db) (_saveTimer db) im (trace db).

Definition record (ev : event) (db : DarkDB) : DarkDB :=
  mkDarkDB (separator db) (autoFile db) (schema db) (_hooks db)
           (_data db) (_expires db) (_saveTimer db) (_indexManager db)
           (trace db ++ [ev]).

Definition no_hooks : phase -> string -> list hook := fun _ _ => [].

Definition default_fields : list string := ["title"; "description"].

(* new DarkDB(options), with autoFile: false (nothing is loaded) *)
Definition constructor (sep : string) (auto : bool)
           (sch : option (list (string * schema_type)))
           (indexFields : list string) : DarkDB :=
  mkDarkDB sep auto sch no_hooks (VObj []) [] false
           (IndexManager.constructor indexFields) [].

(* pre(action, fn) / post(action, fn) *)
Definition register (ph : phase) (action : string) (fn : hook) (db : DarkDB)
  : DarkDB :=
  let same (p q : phase) :=
    match p, q with Pre, Pre | Post, Post => true | _, _ => false end in
  mkDarkDB (separator db) (autoFile db) (schema db)
           (fun p a => if (same p ph && String.eqb a action)%bool
                       then (_hooks db p a ++ [fn])%list else _hooks db p a)
           (_data db) (_expires db) (_saveTimer db) (_indexManager db)
           (trace db).

(** *** References into the tree

    A reference to a container of the tree is the path that leads to it from
    the root: [obj = obj[k]] moves a reference one step down. *)

Definition ref := list string.

Fixpoint deref (p : ref) (t : value) : option value :=
  match p with
  | [] => Some t
  | k :: p' =>
      match t with
      | VObj m =>
          match Props.lookup k m with
          | Some c => deref p' c
          | None => None
          end
      | _ => None
      end
  end.

(* the tree after the container at [p] has been changed in place *)
Fixpoint modify_at (p : ref) (f : value -> value) (t : value) : value :=
  match p with
  | [] => f t
  | k :: p' =>
      match t with
      | VObj m =>
          match Props.lookup k m with
          | Some c => VObj (Props.replace k (modify_at p' f c) m)
          | None => t
          end
      | _ => t
      end
  end.

Definition prop (k : string) (m : list (string * value)) : value :=
  match Props.lookup k m with Some c => c | None => VUndef end.

(* if (bad(obj[k])) { if (create) obj[k] = {}; else return [null, null]; } *)
Definition ensure (create : bool) (bad : value -> bool) (k : string)
           (m : list (string * value)) : option (list (string * value)) :=
  if bad (prop k m)
  then if create then Some (Props.set k (VObj []) m) else None
  else Some m.

(* The loop of _getRef from the container [obj] on: the container with the
   intermediates that were created, and whether a reference is returned. *)
Fixpoint getRef_walk (create : bool) (keys : list string) (obj : value)
  : result (value * bool) :=
  match keys with
  | [] | [_] => Ok (obj, true)
  | k :: rest =>
      match obj with
      | VObj m =>
          match ensure create Value.is_nullish k m with
          | None => Ok (obj, false)
          | Some m1 =>
              match ensure create
                      (fun c => negb (Value.is_object_type c)) k m1 with
              | None => Ok (obj, false)
              | Some m2 =>
                  rbind (getRef_walk create rest (prop k m2))
                        (fun r => Ok (VObj (Props.set k (fst r) m2), snd r))
              end
          end
      | VArr _ => Unsupported
      | VUndef | VNull => Throw TypeError
      | _ => if create then Throw TypeError else Ok (obj, false)
      end
  end.

Module Db.

  (* pieces of object literals *)
Definition payload_key (key : string) : value := VObj [("key", VStr key)].

Definition payload_key_value (key : string) (v : value) : value :=
    VObj [("key", VStr key); ("value", v)].

Definition payload_reason (reason : string) : value :=
    VObj [("reason", VStr reason)].

  (* { type, ...payload } *)
Definition spread_type (type : string) (payload : value) : value :=
    VObj (fold_left (fun m kv => Props.set (fst kv) (snd kv) m)
                    (Value.own_entries payload) [("type", VStr type)]).

Definition _validateSchema (key : string) (v : value) : M unit :=
    fun db =>
      match schema db with
      | None => (Ok tt, db)
      | Some sch =>
          (fold_left
             (fun (acc : result unit) (ft : string * schema_type) =>
                rbind acc (fun _ =>
                rbind (Value.get_prop v (fst ft)) (fun x =>
                  match x, snd ft with
                  | VUndef, _ => Ok tt
                  | VStr _, TString => Ok tt
                  | _, TString => Throw (SchemaViolation (fst ft))
                  | VNum _, TNumber => Ok tt
                  | _, TNumber => Throw (SchemaViolation (fst ft))
                  | VBool _, TBoolean => Ok tt
                  | _, TBoolean => Throw (SchemaViolation (fst ft))
                  | _, TOther => Ok tt
                  end)))
             sch (Ok tt), db)
      end.

Fixpoint run_hooks_from (pos : nat) (ph : phase) (action : string)
           (payload : value) (hooks : list hook) : M unit :=
    match hooks with
    | [] => ret tt
    | h :: hooks' =>
        modify (record (HookRun ph action pos payload));;
        match h payload with
        | Some e => throw e
        | None => run_hooks_from (S pos) ph action payload hooks'
        end
    end.

Definition _runHooks (ph : phase) (action : string) (payload : value)
    : M unit :=
    hooks <- read (fun db => _hooks db ph action);;
    run_hooks_from 0 ph action payload hooks.

Fixpoint indexRecursive (sep : string) (obj : value) (currentKey : string)
           (im : IndexManager.t) : IndexManager.t :=
    let newKey key :=
      if Text.nonempty currentKey then currentKey ++ sep ++ key else key in
    match obj with
    | VObj m =>
        fold_left (fun im kv => indexRecursive sep (snd kv) (newKey (fst kv)) im)
                  m (IndexManager.update im currentKey obj)
    | VArr l =>
        (fix each (i : nat) (l : list value) (im : IndexManager.t) :=
           match l with
           | [] => im
           | x :: l' =>
               each (S i) l'
                    (indexRecursive sep x (newKey (Text.of_nat i)) im)
           end) O l (IndexManager.update im currentKey obj)
    | _ => im
    end.

Definition _rebuildIndex : M unit :=
    modify (fun db =>
      with_indexManager
        (indexRecursive (separator db) (_data db) ""
                        (IndexManager.clear (_indexManager db))) db).

Definition _resolvePath (sep key : string) : result (list string) :=
    if Text.nonempty key
    then Ok (filter Text.nonempty (Text.split sep key))
    else Throw InvalidKey.

  (* keys[keys.length - 1], as a property name *)
Definition last_key (keys : list string) : string := last keys "undefined".

  (* [None] stands for [null, null] *)
Definition _getRef (keys : list string) (create : bool)
    : M (option (ref * string)) :=
    fun db =>
      match getRef_walk create keys (_data db) with
      | Ok (t, true) =>
          (Ok (Some (removelast keys, last_key keys)), with_data t db)
      | Ok (t, false) => (Ok None, with_data t db)
      | Throw e => (Throw e, db)
      | Unsupported => (Unsupported, db)
      end.

  (* ref[last] *)
Definition ref_get (r : ref) (last : string) : M value :=
    fun db =>
      match deref r (_data db) with
      | Some c => (Value.get_prop c last, db)
      | None => (Throw TypeError, db)
      end.

  (* last in ref *)
Definition ref_has (r : ref) (last : string) : M bool :=
    fun db =>
      match deref r (_data db) with
      | Some (VObj m) => (Ok (Props.has last m), db)
      | Some (VArr l) => (Ok (Value.has_prop (VArr l) last), db)
      | _ => (Throw TypeError, db)
      end.

  (* ref[last] = v, for a map and a name that maps do not inherit *)
Definition ref_set (r : ref) (last : string) (v : value) : M unit :=
    fun db =>
      match deref r (_data db) with
      | Some (VObj m) =>
          (Ok tt,
           with_data (modify_at r (fun _ => VObj (Props.set last v m))
                                (_data db)) db)
      | Some (VArr _) => (Unsupported, db)
      | _ => (Throw TypeError, db)
      end.

  (* delete ref[last], for a map *)
Definition ref_delete (r : ref) (last : string) : M unit :=
    fun db =>
      match deref r (_data db) with
      | Some (VObj m) =>
          (Ok tt,
           with_data (modify_at r (fun _ => VObj (Props.remove last m))
                                (_data db)) db)
      | Some (VArr _) => (Unsupported, db)
      | _ => (Throw TypeError, db)
      end.

Definition _scheduleSave : M unit :=
    fun db =>
      if autoFile db
      then (Ok tt, record SaveScheduled (with_saveTimer true db))
      else (Ok tt, db).

Definition _emit (type : string) (payload : value) : M unit :=
    modify (fun db => record (Emitted type payload (_data db)) db);;
    modify (fun db =>
              record (Emitted "change" (spread_type type payload) (_data db))
                     db).

Definition _isExpired (db : DarkDB) (keyPath : string) (now : Z) : bool :=
    match Props.lookup keyPath (_expires db) with
    | Some exp => now >=? exp
    | None => false
    end.

Fixpoint getSync_walk (keys : list string) (obj : value) : value :=
    match keys with
    | [] => obj
    | k :: rest =>
        if (Value.is_nullish obj || negb (Value.is_object_type obj)
            || negb (Value.has_prop obj k))%bool
        then VUndef
        else match Value.get_prop obj k with
             | Ok c => getSync_walk rest c
             | _ => VUndef
             end
    end.

Definition _getSync (key : string) : M value :=
    keys <- (fun db => (_resolvePath (separator db) key, db));;
    read (fun db => getSync_walk keys (_data db)).

Definition json_differs (a b : value) : bool :=
    match JSON.stringify a, JSON.stringify b with
    | Some x, Some y => negb (String.eqb x y)
    | None, None => false
    | _, _ => true
    end.

Definition _setSync (key : string) (v : value) : M value :=
    keys <- (fun db => (_resolvePath (separator db) key, db));;
    r <- _getRef keys true;;
    match r with
    | None => throw TypeError
    | Some (ref, last) =>
        oldValue <- ref_get ref last;;
        ref_set ref last v;;
        (if json_differs oldValue v
         then modify (fun db =>
                with_indexManager
                  (IndexManager.update (_indexManager db) key v) db)
         else ret tt);;
        _emit "set" (payload_key_value key v);;
        _scheduleSave;;
        ret v
    end.

Definition _deleteSync (key : string) : M bool :=
    keys <- (fun db => (_resolvePath (separator db) key, db));;
    r <- _getRef keys false;;
    match r with
    | None => ret false
    | Some (ref, last) =>
        present <- ref_has ref last;;
        if negb present then ret false
        else
          ref_delete ref last;;
          modify (fun db =>
            with_indexManager
              (IndexManager.delete (_indexManager db) key) db);;
          _emit "delete" (payload_key key);;
          _scheduleSave;;
          ret true
    end.

Definition delete_expiry (key : string) : M unit :=
    modify (fun db => with_expires (Props.remove key (_expires db)) db).

Fixpoint cleanup_loop (now : Z) (entries : list (string * Z))
           (changed : bool) : M bool :=
    match entries with
    | [] => ret changed
    | (k, exp) :: entries' =>
        if now >=? exp then
          _deleteSync k;;
          delete_expiry k;;
          cleanup_loop now entries' true
        else cleanup_loop now entries' changed
    end.

Definition _cleanupExpiredSync (now : Z) : M unit :=
    entries <- read _expires;;
    changed <- cleanup_loop now entries false;;
    if changed then _scheduleSave else ret tt.

  (** *** The public operations; each one is a unit of the task queue. *)

  (* this._expires[key] = instant.  The table is a plain object, and the
     name "__proto__" is an accessor that it inherits, unless the table has
     it as an own property (a table read from a file can have it): the
     inherited setter ignores a number, and nothing is recorded. *)
Definition expires_put (key : string) (instant : Z) (e : list (string * Z))
    : list (string * Z) :=
    if (String.eqb key "__proto__" && negb (Props.has key e))%bool then e
    else Props.set key instant e.

  (* opts && typeof opts.ttlMs === "number" && opts.ttlMs > 0 *)
Definition positive_ttl (opts : value) : option Z :=
    if Value.truthy opts then
      match Value.get_prop opts "ttlMs" with
      | Ok (VNum t) => if t >? 0 then Some t else None
      | _ => None
      end
    else None.

Definition no_opts : value := VObj [].

Definition set (key : string) (v : value) (opts : value) (now : Z)
    : M value :=
    _validateSchema key v;;
    _runHooks Pre "set" (payload_key_value key v);;
    r <- _setSync key v;;
    match positive_ttl opts with
    | Some t =>
        modify (fun db =>
                  with_expires (expires_put key (now + t) (_expires db)) db)
    | None => delete_expiry key
    end;;
    _runHooks Post "set" (payload_key_value key v);;
    ret r.

Definition get (key : string) (now : Z) : M value :=
    _cleanupExpiredSync now;;
    expired <- read (fun db => _isExpired db key now);;
    if expired then
      _deleteSync key;;
      delete_expiry key;;
      ret VUndef
    else _getSync key.

Definition has (key : string) (now : Z) : M bool :=
    v <- get key now;;
    ret (match v with VUndef => false | _ => true end).

Definition delete (key : string) : M bool :=
    _runHooks Pre "delete" (payload_key key);;
    ok <- _deleteSync key;;
    delete_expiry key;;
    _runHooks Post "delete" (payload_key key);;
    ret ok.

Definition all (now : Z) : M value :=
    _cleanupExpiredSync now;;
    data <- read _data;;
    lift (JSON.clone data).

Definition deleteAll : M bool :=
    modify (with_data (VObj []));;
    modify (with_expires []);;
    modify (fun db =>
              with_indexManager (IndexManager.clear (_indexManager db)) db);;
    _emit "reset" (VObj []);;
    _scheduleSave;;
    ret true.



  (* op(base, n) is computed on doubles: it is the operation on integers
     when the operands and the result are integers that a double holds
     exactly; rounding is not part of the embedding *)
Definition _numOp (key : string) (n : Z) (op : Z -> Z -> Z) : M value :=
    cur <- _getSync key;;
    let base := match cur with VNum b => b | _ => 0 end in
    if (Value.safe_integer base && Value.safe_integer n
        && Value.safe_integer (op base n))%bool
    then
      let val := VNum (op base n) in
      _setSync key val;;
      ret val
    else fun db => (Unsupported, db).

  (* +n || 0: undefined gives NaN and so 0, null gives 0, a boolean 0 or 1;
     the reading of a text or of a container as a number is not part of the
     embedding *)
Definition delta (n : value) : result Z :=
    match n with
    | VNum z => Ok z
    | VUndef | VNull => Ok 0
    | VBool b => Ok (if b then 1 else 0)
    | VStr _ | VArr _ | VObj _ => Unsupported
    end.

Definition add (key : string) (n : value) : M value :=
    d <- lift (delta n);; _numOp key d Z.add.
Definition remove (key : string) (n : value) : M value :=
    d <- lift (delta n);; _numOp key d Z.sub.
Definition incr (key : string) : M value := _numOp key 1 Z.add.
Definition decr (key : string) : M value := _numOp key 1 Z.sub.

  (* keyPrefix ? this._getSync(keyPrefix) : this._data *)
Definition root_of (keyPrefix : string) : M value :=
    if Text.nonempty keyPrefix then _getSync keyPrefix else read _data.

  (* root && typeof root === "object" *)
Definition is_container (root : value) : bool :=
    (Value.truthy root && Value.is_object_type root)%bool.

Definition keys (keyPrefix : string) : M (list string) :=
    root <- root_of keyPrefix;;
    if is_container root then ret (map fst (Value.own_entries root))
    else ret [].

Definition values (keyPrefix : string) : M (list value) :=
    root <- root_of keyPrefix;;
    if is_container root then ret (map snd (Value.own_entries root))
    else ret [].

Definition entries (keyPrefix : string) : M (list (string * value)) :=
    root <- root_of keyPrefix;;
    if is_container root then ret (Value.own_entries root) else ret [].

Definition find (keyPrefix : string) (predicate : value -> string -> bool)
    : M (list (string * value)) :=
    root <- root_of keyPrefix;;
    if is_container root
    then ret (filter (fun kv => predicate (snd kv) (fst kv))
                     (Value.own_entries root))
    else ret [].

Definition expire (key : string) (ttlMs : value) (now : Z) : M bool :=
    match ttlMs with
    | VNum t =>
        if t >? 0
        then modify (fun db =>
               with_expires (expires_put key (now + t) (_expires db)) db)
        else delete_expiry key
    | _ => delete_expiry key
    end;;
    _scheduleSave;;
    ret true.

Definition ttl (key : string) (now : Z) : M Z :=
    exp <- read (fun db => Props.lookup key (_expires db));;
    match exp with
    | None => ret (-1)
    | Some e => ret (Z.max 0 (e - now))
    end.

Definition export : M value :=
    data <- read _data;;
    lift (JSON.clone data).

Definition import (obj : value) : M bool :=
    if (negb (Value.truthy obj) || negb (Value.is_object_type obj))%bool
    then throw ImportExpectsObject
    else
      data <- lift (JSON.clone obj);;
      modify (with_data data);;
      modify (with_expires []);;
      _rebuildIndex;;
      _emit "reset" (payload_reason "import");;
      _scheduleSave;;
      ret true.

  (* restore, from the parsed snapshot: raw.data and raw.expires *)
Definition restore (raw_data : value) (raw_expires : list (string * Z))
    : M bool :=
    modify (with_data (if Value.truthy raw_data then raw_data else VObj []));;
    modify (with_expires raw_expires);;
    _rebuildIndex;;
    _emit "reset" (payload_reason "restore");;
    _scheduleSave;;
    ret true.

  (* The body of a transaction works on the handle [temp].  The handle has a
     tree and an expiry table of its own and no hooks, listeners or file; its
     index manager is the one of the store, so what the body does to the
     index is done to the index of the store. *)
Definition transaction (fn : M unit) : M bool :=
    fun db =>
      match JSON.clone (_data db) with
      | Ok snapshot =>
          let temp :=
            with_indexManager (_indexManager db)
              (with_expires (_expires db)
                 (with_data snapshot
                    (constructor (separator db) false None default_fields)))
          in
          match fn temp with
          | (Ok _, temp') =>
              (modify (with_data (_data temp'));;
               modify (with_expires (_expires temp'));;
               _rebuildIndex;;
               _scheduleSave;;
               _emit "reset" (payload_reason "transaction");;
               ret true)
                (with_indexManager (_indexManager temp') db)
          | (Throw e, temp') =>
              (Throw e,
               with_data snapshot
                 (with_indexManager (_indexManager temp') db))
          | (Unsupported, _) => (Unsupported, db)
          end
      | Throw e => (Throw e, db)
      | Unsupported => (Unsupported, db)
      end.

End Db.

(** ** The query matcher *)

Module Query.

Section Runtime.

    (* What the language computes through conversions that the embedding
       does not spell out:
       - [coerce_rel a b] is the outcome of the relational comparison
         [a < b] when [a] and [b] are not two numbers or two strings
         ([None]: the comparison is undefined);
       - [regexp_test cmp val] is [new RegExp(cmp).test(val)];
       - [string_includes s val] is [s.includes(val)] for a string [s]. *)
Variable coerce_rel : value -> value -> option bool.
Variable regexp_test : value -> value -> result bool.
Variable string_includes : string -> value -> result bool.

Definition rel (a b : value) : option bool :=
      match a, b with
      | VNum x, VNum y => Some (x <? y)
      | VStr x, VStr y => Some (String.ltb x y)
      | _, _ => coerce_rel a b
      end.

Definition is_some_of (b : bool) (o : option bool) : bool :=
      match o with Some x => Bool.eqb x b | None => false end.

Definition js_lt (a b : value) : bool := is_some_of true (rel a b).
Definition js_gt (a b : value) : bool := is_some_of true (rel b a).
Definition js_le (a b : value) : bool := is_some_of false (rel b a).
Definition js_ge (a b : value) : bool := is_some_of false (rel a b).

    (* cmp.includes(val) *)
Definition includes (cmp val : value) : result bool :=
      match cmp with
      | VArr l => Ok (existsb (fun x => Value.strict_eq x val) l)
      | VStr s => string_includes s val
      | _ => Throw TypeError
      end.

Definition known_operators : list string :=
      ["$eq"; "$ne"; "$gt"; "$gte"; "$lt"; "$lte"; "$in"; "$nin"; "$regex"].

    (* One case of the switch: [Ok true] when the loop goes on, [Ok false]
       when match returns false. *)
Definition eval_op (val : value) (op : string) (cmp : value)
      : result bool :=
      if String.eqb op "$eq" then Ok (Value.strict_eq val cmp)
      else if String.eqb op "$ne" then Ok (negb (Value.strict_eq val cmp))
      else if String.eqb op "$gt" then Ok (js_gt val cmp)
      else if String.eqb op "$gte" then Ok (js_ge val cmp)
      else if String.eqb op "$lt" then Ok (js_lt val cmp)
      else if String.eqb op "$lte" then Ok (js_le val cmp)
      else if String.eqb op "$in" then includes cmp val
      else if String.eqb op "$nin"
           then rbind (includes cmp val) (fun b => Ok (negb b))
      else if String.eqb op "$regex" then regexp_test cmp val
      else Throw (UnknownOperator op).

Fixpoint eval_ops (val : value) (ops : list (string * value))
      : result bool :=
      match ops with
      | [] => Ok true
      | (op, cmp) :: ops' =>
          rbind (eval_op val op cmp)
                (fun ok => if ok then eval_ops val ops' else Ok false)
      end.

Definition match_rule (val rule : value) : result bool :=
      match rule with
      | VObj ops => eval_ops val ops
      | VNull => Throw TypeError
      | _ => Ok (Value.strict_eq val rule)
      end.

Fixpoint match_fields (obj : value) (rules : list (string * value))
      : result bool :=
      match rules with
      | [] => Ok true
      | (field, rule) :: rules' =>
          rbind (Value.get_prop obj field) (fun val =>
          rbind (match_rule val rule) (fun ok =>
            if ok then match_fields obj rules' else Ok false))
      end.

    (* Array.prototype.every / some with a callback that may throw *)
Definition every (f : value -> result bool) : list value -> result bool :=
      fix go l :=
        match l with
        | [] => Ok true
        | x :: l' => rbind (f x) (fun b => if b then go l' else Ok false)
        end.

Definition some (f : value -> result bool) : list value -> result bool :=
      fix go l :=
        match l with
        | [] => Ok false
        | x :: l' => rbind (f x) (fun b => if b then Ok true else go l')
        end.

    (* if (cond[k]) then-branch on cond[k], else the rest *)
Definition if_prop {A} (k : string) (m : list (string * value))
               (f : value -> A) (otherwise : A) : A :=
      (fix go l :=
         match l with
         | [] => otherwise
         | kv :: l' =>
             if String.eqb (fst kv) k
             then if Value.truthy (snd kv) then f (snd kv) else otherwise
             else go l'
         end) m.

Fixpoint match_ (obj cond : value) {struct cond} : result bool :=
      match cond with
      | VObj m =>
          if_prop "$and" m
            (fun a => match a with
                      | VArr subs => every (match_ obj) subs
                      | _ => Throw (InvalidFilter "$and")
                      end)
          (if_prop "$or" m
            (fun a => match a with
                      | VArr subs => some (match_ obj) subs
                      | _ => Throw (InvalidFilter "$or")
                      end)
          (if_prop "$not" m
            (fun a => rbind (match_ obj a) (fun b => Ok (negb b)))
          (match_fields obj m)))
      | VArr l => match_fields obj (Value.indexed 0 l)
      | _ => Ok false
      end.

Record options := mkOptions {
      sort : option (string * value);   (* the first entry of options.sort *)
      skip : Z;
      limit : Z
    }.

Definition no_options : options := mkOptions None 0 0.

Fixpoint collect (filter : value) (children : list (string * value))
      : result (list (string * value)) :=
      match children with
      | [] => Ok []
      | (k, v) :: children' =>
          rbind (if Value.is_object_type v then match_ v filter else Ok false)
                (fun hit =>
          rbind (collect filter children') (fun out =>
            Ok (if hit then (k, v) :: out else out)))
      end.

    (* the comparator of out.sort *)
Definition compare_by (field : string) (order : value)
               (a b : string * value) : result Z :=
      rbind (Value.get_prop (snd a) field) (fun valA =>
      rbind (Value.get_prop (snd b) field) (fun valB =>
        let asc := Value.strict_eq order (VNum 1) in
        if js_lt valA valB then Ok (if asc then -1 else 1)
        else if js_gt valA valB then Ok (if asc then 1 else -1)
        else Ok 0)).

    (* Array.prototype.sort, which is stable, for a comparator that orders
       the documents; it is then the result of sorting by insertion *)
Fixpoint insert_sorted (cmp : string * value -> string * value -> result Z)
             (x : string * value) (l : list (string * value))
      : result (list (string * value)) :=
      match l with
      | [] => Ok [x]
      | y :: l' =>
          rbind (cmp x y) (fun c =>
            if c >? 0
            then rbind (insert_sorted cmp x l') (fun r => Ok (y :: r))
            else Ok (x :: l))
      end.

Definition stable_sort (cmp : string * value -> string * value -> result Z)
               (l : list (string * value)) : result (list (string * value)) :=
      fold_right (fun x acc => rbind acc (insert_sorted cmp x)) (Ok []) l.

    (* Array.prototype.slice *)
Definition slice_index (len : nat) (i : Z) : nat :=
      if i <? 0 then Z.to_nat (Z.max 0 (Z.of_nat len + i))
      else Nat.min (Z.to_nat i) len.

Definition slice {A} (l : list A) (from to : Z) : list A :=
      let a := slice_index (List.length l) from in
      let b := slice_index (List.length l) to in
      firstn (b - a) (skipn a l).

Definition query (keyPrefix : string) (filter : value) (opts : options)
      : M (list (string * value)) :=
      root <- Db.root_of keyPrefix;;
      if negb (Db.is_container root) then ret []
      else
        out <- lift (collect filter (Value.own_entries root));;
        out <- match sort opts with
               | Some (field, order) =>
                   lift (stable_sort (compare_by field order) out)
               | None => ret out
               end;;
        let out := if skip opts =? 0 then out
                   else slice out (skip opts) (Z.of_nat (List.length out)) in
        let out := if limit opts =? 0 then out
                   else slice out 0 (limit opts) in
        ret out.

End Runtime.

End Query.

(** ** The tokenizer, in the words of the specification

    "tokenizes (lowercase, split on whitespace, drop empties)": every white
    space character ends a piece, and the empty pieces are dropped. *)

Module SpecWords.

Fixpoint pieces (cur : string) (s : string) : list string :=
  match s with
  | EmptyString => [cur]
  | String c s' =>
      if Text.is_space c then cur :: pieces EmptyString s'
      else pieces (Text.snoc cur c) s'
  end.

Definition tokens (text : string) : list string :=
  filter Text.nonempty (pieces EmptyString (Text.toLowerCase text)).


End SpecWords.

(** ** Shapes used in the statements *)

(* The path stays among maps: no segment before the last one leads into an
   array, and the root is a map. *)
Fixpoint plain_path (keys : list string) (obj : value) : bool :=
  match obj with
  | VObj m =>
      match keys with
      | [] | [_] => true
      | k :: rest =>
          match prop k m with
          | VArr _ => false
          | VObj m' => plain_path rest (VObj m')
          | _ => true
          end
      end
  | _ => false
  end.

(* Every segment names a property of the container reached so far. *)
Fixpoint bound (keys : list string) (obj : value) : bool :=
  match keys with
  | [] => true
  | k :: rest =>
      match obj with
      | VObj m =>
          match Props.lookup k m with
          | Some c => bound rest c
          | None => false
          end
      | VArr l =>
          match Value.get_prop obj k with
          | Ok c => (Value.has_prop obj k && bound rest c)%bool
          | _ => false
          end
      | _ => false
      end
  end.

(** ** The names that an object inherits

    A plain object answers [k in obj] and [obj[k]] for its own properties
    and for the members of Object.prototype, and an array for its indices,
    its length and the members of its prototypes.  The embedding has the own
    properties only, so the statements about paths are made for paths on
    which the two agree. *)

Module Names.

(* the members of Object.prototype *)
Definition inherited : list string :=
  ["constructor"; "__proto__"; "hasOwnProperty"; "isPrototypeOf";
   "propertyIsEnumerable"; "toLocaleString"; "toString"; "valueOf";
   "__defineGetter__"; "__defineSetter__"; "__lookupGetter__";
   "__lookupSetter__"].

Definition own (k : string) : bool :=
  negb (existsb (String.eqb k) inherited).

(* a name that an array answers for by itself: an index or its length *)
Definition of_array (k : string) : bool :=
  match Text.array_index k with
  | Some _ => true
  | None => String.eqb k "length"
  end.

(* [obj[k]] is answered by [obj] itself: a map asked for a name that it
   does not inherit, an array or a text asked for an index or the length;
   undefined and null answer nothing at all and throw *)
Definition answered (obj : value) (k : string) : bool :=
  match obj with
  | VObj _ => own k
  | VArr _ | VStr _ => of_array k
  | VUndef | VNull => true
  | VBool _ | VNum _ => false
  end.

End Names.

(* no segment is the name of an inherited member of a plain object *)
Definition own_path (keys : list string) : bool := forallb Names.own keys.

(* Reading [keys] from [obj] meets own properties only: every map on the way
   is asked for a name that it does not inherit, every array for an index or
   its length, and the reading stops at the first scalar. *)
Fixpoint tame (keys : list string) (obj : value) : bool :=
  match keys with
  | [] => true
  | k :: rest =>
      match obj with
      | VObj m =>
          (Names.own k
           && match Props.lookup k m with
              | Some c => tame rest c
              | None => true
              end)%bool
      | VArr l =>
          (Names.of_array k
           && match Value.elem l k with
              | Some c => tame rest c
              | None => true
              end)%bool
      | _ => true
      end
  end.

Definition is_map_or_array (v : value) : bool :=
  match v with VObj _ | VArr _ => true | _ => false end.

(* the calls of the hooks of one phase, as they appear in the trace *)
Definition hook_events (ph : phase) (action : string) (payload : value)
           (pos n : nat) : list event :=
  map (fun i => HookRun ph action i payload) (seq pos n).

Definition save_events (db : DarkDB) : list event :=
  if autoFile db then [SaveScheduled] else [].

(* what _emit(type, payload) hands to the listeners that see the tree [t] *)
Definition emit_events (type : string) (payload : value) (t : value)
  : list event :=
  [Emitted type payload t;
   Emitted "change" (Db.spread_type type payload) t].

Definition with_trace (tr : list event) (db : DarkDB) : DarkDB :=
  mkDarkDB (separator db) (autoFile db) (schema db) (_hooks db)
           (_data db) (_expires db) (_saveTimer db) (_indexManager db) tr.




(* The store left by a _setSync that found the map [m] at the end of the
   loop of _getRef, in the tree [t]. *)
Definition after_setSync (key : string) (v : value) (keys : list string)
           (t : value) (m : list (string * value)) (db : DarkDB) : DarkDB :=
  let t' := modify_at (removelast keys)
                      (fun _ => VObj (Props.set (Db.last_key keys) v m)) t in
  mkDarkDB (separator db) (autoFile db) (schema db) (_hooks db)
           t' (_expires db)
           (autoFile db || _saveTimer db)%bool
           (if Db.json_differs (prop (Db.last_key keys) m) v
            then IndexManager.update (_indexManager db) key v
            else _indexManager db)
           (trace db ++ emit_events "set" (Db.payload_key_value key v) t'
                  ++ save_events db).

(* The store left by a _deleteSync that removed a property of the map [m]. *)
Definition after_deleteSync (key : string) (keys : list string)
           (m : list (string * value)) (db : DarkDB) : DarkDB :=
  let t' := modify_at (removelast keys)
                      (fun _ => VObj (Props.remove (Db.last_key keys) m))
                      (_data db) in
  mkDarkDB (separator db) (autoFile db) (schema db) (_hooks db)
           t' (_expires db)
           (autoFile db || _saveTimer db)%bool
           (IndexManager.delete (_indexManager db) key)
           (trace db ++ emit_events "delete" (Db.payload_key key) t'
                  ++ save_events db).

(* the expiry table after the branch on opts.ttlMs in set *)
Definition expiry_after_set (key : string) (opts : value) (now : Z)
           (e : list (string * Z)) : list (string * Z) :=
  match Db.positive_ttl opts with
  | Some t => Db.expires_put key (now + t) e
  | None => Props.remove key e
  end.

(* every hook registered for the action returns on this payload *)
Definition hooks_pass (db : DarkDB) (action : string) (payload : value)
  : Prop :=
  forall ph, Forall (fun h : hook => h payload = None) (_hooks db ph action).

(* no entry of the expiry table has been reached at the instant [now] *)
Definition none_expired (db : DarkDB) (now : Z) : Prop :=
  forall k e, In (k, e) (_expires db) -> now < e.

(* every entry of the expiry table that the clock has reached is under a key
   whose path stays among maps and uses no name that objects inherit *)
Definition sweepable (db : DarkDB) (now : Z) : Prop :=
  forall k e,
    In (k, e) (_expires db) -> e <= now ->
    exists ks, Db._resolvePath (separator db) k = Ok ks
               /\ own_path ks = true
               /\ plain_path ks (_data db) = true.

(** ** Stores used as concrete inputs *)

Module Sample.

(* new DarkDB() on an empty directory *)
Definition fresh : DarkDB := constructor "." true None default_fields.

(* the store after the call [m] *)
Definition after {A} (m : M A) (db : DarkDB) : DarkDB := snd (m db).

(* the outcome of the call [m] *)
Definition outcome {A} (m : M A) (db : DarkDB) : result A := fst (m db).

(* a document as the README stores them *)
Definition node_guide : value := VObj [("title", VStr "Node Guide")].

(* async (tx) => { await tx.set("docs.1", {title: "Node Guide"});
                   throw new Error("boom"); } *)
Definition failing_body : M unit :=
  Db.set "docs.1" node_guide Db.no_opts 0;; throw (UserError "boom").

(* set("a", {n: 1}, {ttlMs: 10}) at the instant 0 *)
Definition with_session : DarkDB :=
  after (Db.set "a" (VObj [("n", VNum 1)]) (VObj [("ttlMs", VNum 10)]) 0)
        fresh.

(* set("docs", {1: {title: "Node Guide"}}) *)
Definition with_nested : DarkDB :=
  after (Db.set "docs" (VObj [("1", node_guide)]) Db.no_opts 0) fresh.

(* set("docs.1", {title: "Node Guide"}) and then delete("docs") *)
Definition with_deleted_parent : DarkDB :=
  after (Db.delete "docs") (after (Db.set "docs.1" node_guide Db.no_opts 0)
                                  fresh).

(* a runtime whose conversions are never consulted by the samples *)
Definition no_coercion : value -> value -> option bool := fun _ _ => None.
Definition no_regexp : value -> value -> result bool :=
  fun _ _ => Unsupported.
Definition no_includes : string -> value -> result bool :=
  fun _ _ => Unsupported.

Definition query := Query.query no_coercion no_regexp no_includes.
Definition match_ := Query.match_ no_coercion no_regexp no_includes.


(* {age: 5}, and two filters that the matcher accepts without an error *)
Definition five : value := VObj [("age", VNum 5)].

Definition gt_then_unknown : value :=
  VObj [("age", VObj [("$gt", VNum 100); ("$foo", VNum 1)])].

Definition and_zero : value := VObj [("$and", VNum 0)].

Definition unknown_first : value := VObj [("age", VObj [("$foo", VNum 1)])].

End Sample.


(* the array that push and unpush start from *)
Definition elements (cur : value) : list value :=
  match cur with VArr l => l | _ => [] end.


(* cond[k] when it is truthy *)
Definition truthy_prop (k : string) (m : list (string * value))
  : option value :=
  match Props.lookup k m with
  | Some a => if Value.truthy a then Some a else None
  | None => None
  end.

(* The fields that the filter [cond] reads from the document [obj], at
   every depth, are names that [obj] answers for by itself. *)
Fixpoint tame_filter (obj cond : value) {struct cond} : bool :=
  match cond with
  | VObj m =>
      Query.if_prop "$and" m
        (fun a => match a with
                  | VArr subs => forallb (tame_filter obj) subs
                  | _ => true
                  end)
      (Query.if_prop "$or" m
        (fun a => match a with
                  | VArr subs => forallb (tame_filter obj) subs
                  | _ => true
                  end)
      (Query.if_prop "$not" m
        (fun a => tame_filter obj a)
        (forallb (fun kv => Names.answered obj (fst kv)) m)))
  | VArr l =>
      forallb (fun kv => Names.answered obj (fst kv)) (Value.indexed 0 l)
  | _ => true
  end.

(* the children of a collection that the matcher is called on *)
Definition object_child (kv : string * value) : bool :=
  Value.is_object_type (snd kv).

(** ** Shapes of the index *)

(* The index as a Map of Sets: no word twice, no member twice; and, as the
   manager keeps it, no posting set without a member. *)
Definition wf_index (idx : list (string * list string)) : Prop :=
  NoDup (map fst idx)
  /\ Forall (fun e => snd e <> [] /\ NoDup (snd e)) idx.

(* the words under which [update] files the path of the document [v] *)
Definition indexed_word (im : IndexManager.t) (v : value) (w : string)
  : Prop :=
  (Value.is_object_type v && negb (Value.is_nullish v))%bool = true
  /\ exists field text,
       In field (IndexManager.fields im)
       /\ IndexManager.field_text v field = Some text
       /\ In w (IndexManager.tokens text).

(* every character of the text satisfies [p] *)
Fixpoint all_chars (p : ascii -> bool) (s : string) : bool :=
  match s with
  | EmptyString => true
  | String c s' => (p c && all_chars p s')%bool
  end.

(* a character that can stand in a word of the index *)
Definition word_char (c : ascii) : bool :=
  (negb (Text.is_space c) && negb (Text.is_upper c))%bool.



(* the hook returns on the payload *)
Definition passes (payload : value) (h : hook) : Prop := h payload = None.

(* a value that JSON can carry as it is: no undefined inside *)
Fixpoint json_value (v : value) : bool :=
  match v with
  | VUndef => false
  | VArr l => forallb json_value l
  | VObj m => forallb (fun kx => json_value (snd kx)) m
  | _ => true
  end.

(* the handle that transaction gives to its body *)
Definition tx_handle (db : DarkDB) (snapshot : value) : DarkDB :=
  with_indexManager (_indexManager db)
    (with_expires (_expires db)
       (with_data snapshot
          (constructor (separator db) false None default_fields))).

(* the index that _rebuildIndex computes from a tree *)
Definition rebuilt (sep : string) (data : value) (im : IndexManager.t)
  : IndexManager.t :=
  Db.indexRecursive sep data "" (IndexManager.clear im).

(* induction on values, through the lists of arrays and maps *)
Section ValueInduction.

Variable P : value -> Prop.
Hypothesis HUndef : P VUndef.
Hypothesis HNull : P VNull.
Hypothesis HBool : forall b, P (VBool b).
Hypothesis HNum : forall n, P (VNum n).
Hypothesis HStr : forall s, P (VStr s).
Hypothesis HArr : forall l, Forall P l -> P (VArr l).
Hypothesis HObj : forall m, Forall (fun kx => P (snd kx)) m -> P (VObj m).

Fixpoint value_induction (v : value) : P v :=
  match v with
  | VUndef => HUndef
  | VNull => HNull
  | VBool b => HBool b
  | VNum n => HNum n
  | VStr s => HStr s
  | VArr l =>
      HArr ((fix all (l : list value) : Forall P l :=
               match l with
               | [] => Forall_nil P
               | x :: l' => Forall_cons x (value_induction x) (all l')
               end) l)
  | VObj m =>
      HObj ((fix all (m : list (string * value))
               : Forall (fun kx => P (snd kx)) m :=
               match m with
               | [] => Forall_nil _
               | kx :: m' =>
                   Forall_cons kx (value_induction (snd kx)) (all m')
               end) m)
  end.

End ValueInduction.
(* the number that the numeric helpers start from *)
Definition base_of (cur : value) : Z :=
  match cur with VNum b => b | _ => 0 end.

(* [prefix] names the container in which the last segment of [keys] lives *)
Definition names_parent (sep prefix : string) (keys : list string) : Prop :=
  (prefix = EmptyString /\ removelast keys = [])
  \/ Db._resolvePath sep prefix = Ok (removelast keys).

(* what ttl reports at [now'] for a key given [ttlMs] by expire at [now] *)
Definition remaining (ttlMs : value) (now now' : Z) : Z :=
  match ttlMs with
  | VNum t => if t >? 0 then Z.max 0 (now + t - now') else -1
  | _ => -1
  end.


Section Selection.

Variable coerce_rel : value -> value -> option bool.
Variable regexp_test : value -> value -> result bool.
Variable string_includes : string -> value -> result bool.


End Selection.
(* an outcome that is no completion *)
Definition fails {A} (o : result A) : Prop := forall a, o <> Ok a.

(** ** The task queue

    [Mutex] is the queue that every public operation of the store goes
    through.  A task is named by a number.  [run] and [_next] return, next
    to the queue, the task that they invoked, if any. *)

Module Mutex.

Record t := mk {
  queue : list nat;
  locked : bool
}.

Definition constructor : t := mk [] false.

Definition _next (m : t) : t * option nat :=
  match queue m with
  | [] => (mk [] false, None)
  | task :: rest => (mk rest true, Some task)
  end.

Definition run (task : nat) (m : t) : t * option nat :=
  let m1 := mk (queue m ++ [task]) (locked m) in
  if negb (locked m1) then _next m1 else (m1, None).

(* What happens to a queue: a caller submits a task, or the task that is
   running settles and its finally block calls _next. *)
Inductive event :=
| Run (task : nat)
| Settled.

(* The queue with what it cannot see itself: how many invoked tasks have
   not settled yet, and the tasks invoked so far, in order. *)
Record system := mkSystem {
  mutex : t;
  active : nat;
  started : list nat
}.

Definition initial : system := mkSystem constructor 0 [].

Definition invoked (s : system) (step : t * option nat) (active' : nat)
  : system :=
  match snd step with
  | Some task => mkSystem (fst step) (S active') (started s ++ [task])
  | None => mkSystem (fst step) active' (started s)
  end.

(* [None]: a task settles while none is running, which cannot happen *)
Definition step (ev : event) (s : system) : option system :=
  match ev with
  | Run task => Some (invoked s (run task (mutex s)) (active s))
  | Settled =>
      match active s with
      | O => None
      | S n => Some (invoked s (_next (mutex s)) n)
      end
  end.

Fixpoint exec (evs : list event) (s : system) : option system :=
  match evs with
  | [] => Some s
  | ev :: evs' =>
      match step ev s with
      | Some s' => exec evs' s'
      | None => None
      end
  end.

Fixpoint submitted (evs : list event) : list nat :=
  match evs with
  | [] => []
  | Run task :: evs' => task :: submitted evs'
  | Settled :: evs' => submitted evs'
  end.

(* what holds of the queue between two events, [sub] being the tasks
   submitted so far *)
Definition consistent (s : system) (sub : list nat) : Prop :=
  active s = (if locked (mutex s) then 1 else 0)%nat
  /\ (started s ++ queue (mutex s))%list = sub
  /\ (locked (mutex s) = false -> queue (mutex s) = []).

End Mutex.

(* no occurrence of the character [c] in [s] *)
Fixpoint free_of (c : ascii) (s : string) : bool :=
  match s with
  | EmptyString => true
  | String a s' => (negb (Ascii.eqb a c) && free_of c s')%bool
  end.

(** * Facts *)

(** ** Property lists *)

Module PropsFacts.

Import Props.

Section Generic.
Variable A : Type.
Implicit Types (m : list (string * A)) (k : string) (v : A).

Lemma lookup_replace_same k v m :
  has k m = true -> lookup k (replace k v m) = Some v.
Proof.
  unfold has. induction m as [|[k' v'] m IH]; simpl; [discriminate|].
  destruct (String.eqb k' k) eqn:E; simpl.
  - now rewrite String.eqb_refl.
  - now rewrite E.
Qed.

Lemma lookup_replace_other k k' v m :
  k' <> k -> lookup k' (replace k v m) = lookup k' m.
Proof.
  intros Hne. induction m as [|[k0 v0] m IH]; simpl; [reflexivity|].
  destruct (String.eqb k0 k) eqn:E; simpl.
  - apply String.eqb_eq in E; subst k0.
    destruct (String.eqb k k') eqn:E'; [|reflexivity].
    apply String.eqb_eq in E'. congruence.
  - now rewrite IH.
Qed.

Lemma lookup_add_same ik k v m :
  has k m = false -> lookup k (add ik k v m) = Some v.
Proof.
  unfold has. induction m as [|[k' v'] m IH]; simpl.
  - now rewrite String.eqb_refl.
  - destruct (String.eqb k' k) eqn:E; [discriminate|]. intros H.
    destruct (before ik k'); simpl.
    + now rewrite String.eqb_refl.
    + rewrite E. now apply IH.
Qed.

Lemma lookup_add_other ik k k' v m :
  k' <> k -> lookup k' (add ik k v m) = lookup k' m.
Proof.
  intros Hne. induction m as [|[k0 v0] m IH]; simpl.
  - destruct (String.eqb k k') eqn:E; [|reflexivity].
    apply String.eqb_eq in E. congruence.
  - destruct (before ik k0); simpl.
    + destruct (String.eqb k k') eqn:E; [|reflexivity].
      apply String.eqb_eq in E. congruence.
    + now rewrite IH.
Qed.

Lemma lookup_set_same k v m : lookup k (set k v m) = Some v.
Proof.
  unfold set. destruct (has k m) eqn:E.
  - now apply lookup_replace_same.
  - now apply lookup_add_same.
Qed.

Lemma lookup_set_other k k' v m :
  k' <> k -> lookup k' (set k v m) = lookup k' m.
Proof.
  intros Hne. unfold set. destruct (has k m).
  - now apply lookup_replace_other.
  - now apply lookup_add_other.
Qed.

Lemma lookup_remove_same k m : lookup k (remove k m) = None.
Proof.
  induction m as [|[k' v'] m IH]; simpl; [reflexivity|].
  destruct (String.eqb k' k) eqn:E; simpl; [assumption|].
  now rewrite E.
Qed.

Lemma lookup_remove_other k k' m :
  k' <> k -> lookup k' (remove k m) = lookup k' m.
Proof.
  intros Hne. induction m as [|[k0 v0] m IH]; simpl; [reflexivity|].
  destruct (String.eqb k0 k) eqn:E; simpl.
  - apply String.eqb_eq in E; subst k0.
    destruct (String.eqb k k') eqn:E'; [|assumption].
    apply String.eqb_eq in E'. congruence.
  - now rewrite IH.
Qed.

Lemma remove_absent k m : has k m = false -> remove k m = m.
Proof.
  unfold has. induction m as [|[k' v'] m IH]; simpl; [reflexivity|].
  destruct (String.eqb k' k) eqn:E; [discriminate|].
  intros H. now rewrite IH.
Qed.

Lemma replace_same k v m : lookup k m = Some v -> replace k v m = m.
Proof.
  induction m as [|[k' v'] m IH]; simpl; [reflexivity|].
  destruct (String.eqb k' k) eqn:E.
  - apply String.eqb_eq in E. subst k'. now intros [= ->].
  - intros H. now rewrite IH.
Qed.

Lemma set_same k v m : lookup k m = Some v -> set k v m = m.
Proof.
  intros H. unfold set, has. rewrite H. now apply replace_same.
Qed.

Lemma has_set_same k v m : has k (set k v m) = true.
Proof. unfold has. now rewrite lookup_set_same. Qed.

End Generic.

End PropsFacts.

(** ** The index manager *)

Module IndexFacts.

Import IndexManager.



Lemma set_has_In x keys : set_has x keys = true <-> In x keys.
Proof.
  unfold set_has. rewrite existsb_exists. split.
  - intros [y [Hy E]]. apply String.eqb_eq in E. now subst.
  - intros H. exists x. split; [assumption|apply String.eqb_refl].
Qed.



End IndexFacts.

(* The tokenizer on a text outside ASCII: the capital E with acute accent
   (U+00C9) is lowered and the no-break space (U+00A0) separates. *)
Lemma tokens_latin1 :
  IndexManager.tokens
    (String (ascii_of_nat 201) "cole"
     ++ String (ascii_of_nat 160) "Nationale")
  = [String (ascii_of_nat 233) "cole"; "nationale"].
Proof. vm_compute. reflexivity. Qed.


(** ** The store monad and the hooks *)

Lemma bind_Ok {A B} (m : M A) (k : A -> M B) db b db' :
  bind m k db = (Ok b, db') ->
  exists a db1, m db = (Ok a, db1) /\ k a db1 = (Ok b, db').
Proof.
  unfold bind. destruct (m db) as [[a|e|] db1]; intros H;
    [eauto|discriminate|discriminate].
Qed.

Tactic Notation "bind_inv" hyp(H) "as" ident(a) ident(d) ident(H1) :=
  apply bind_Ok in H as (a & d & H1 & H).

Lemma with_trace_id db : with_trace (trace db) db = db.
Proof. now destruct db. Qed.

Lemma record_with_trace ev db :
  record ev db = with_trace (trace db ++ [ev]) db.
Proof. reflexivity. Qed.

Lemma with_trace_twice tr tr' db :
  with_trace tr (with_trace tr' db) = with_trace tr db.
Proof. reflexivity. Qed.

(* Running hooks only extends the trace, whatever the outcome. *)
Lemma run_hooks_from_trace ph action payload hooks : forall pos db r db',
  Db.run_hooks_from pos ph action payload hooks db = (r, db') ->
  exists evs, db' = with_trace (trace db ++ evs) db.
Proof.
  induction hooks as [|h hooks IH]; intros pos db r db'; simpl.
  - intros [= <- <-]. exists []. now rewrite app_nil_r, with_trace_id.
  - unfold bind, modify. destruct (h payload) as [e|].
    + intros [= <- <-]. now exists [HookRun ph action pos payload].
    + intros H. apply IH in H as [evs ->].
      exists (HookRun ph action pos payload :: evs). simpl.
      now rewrite <- app_assoc.
Qed.

Lemma run_hooks_from_Ok ph action payload hooks : forall pos db u db',
  Db.run_hooks_from pos ph action payload hooks db = (Ok u, db') ->
  db' = with_trace
          (trace db ++ hook_events ph action payload pos (List.length hooks)) db.
Proof.
  unfold hook_events.
  induction hooks as [|h hooks IH]; intros pos db u db'; simpl.
  - intros [= <- <-]. now rewrite app_nil_r, with_trace_id.
  - unfold bind, modify. destruct (h payload) as [e|]; [discriminate|].
    intros H. apply IH in H as ->. simpl. now rewrite <- app_assoc.
Qed.

Lemma runHooks_trace ph action payload db r db' :
  Db._runHooks ph action payload db = (r, db') ->
  exists evs, db' = with_trace (trace db ++ evs) db.
Proof.
  unfold Db._runHooks, bind, read. now apply run_hooks_from_trace.
Qed.

Lemma runHooks_Ok ph action payload db u db' :
  Db._runHooks ph action payload db = (Ok u, db') ->
  db' = with_trace
          (trace db
           ++ hook_events ph action payload 0 (List.length (_hooks db ph action)))
          db.
Proof.
  unfold Db._runHooks, bind, read. now apply run_hooks_from_Ok.
Qed.

Lemma validateSchema_state key v db r db' :
  Db._validateSchema key v db = (r, db') -> db' = db.
Proof.
  unfold Db._validateSchema. destruct (schema db); now intros [= _ <-].
Qed.

(** ** Paths in the tree *)

Lemma getSync_walk_obj k rest m :
  Db.getSync_walk (k :: rest) (VObj m)
  = match Props.lookup k m with
    | Some c => Db.getSync_walk rest c
    | None => VUndef
    end.
Proof.
  simpl. unfold Props.has. now destruct (Props.lookup k m).
Qed.

Lemma removelast_cons2 (k k2 : string) rest :
  removelast (k :: k2 :: rest) = k :: removelast (k2 :: rest).
Proof. reflexivity. Qed.

Lemma last_key_cons2 (k k2 : string) rest :
  Db.last_key (k :: k2 :: rest) = Db.last_key (k2 :: rest).
Proof. reflexivity. Qed.

(* Reading the path that has just been written gives the written value. *)
Lemma getSync_walk_written v keys : forall t m,
  keys <> [] ->
  deref (removelast keys) t = Some (VObj m) ->
  Db.getSync_walk keys
    (modify_at (removelast keys)
               (fun _ => VObj (Props.set (Db.last_key keys) v m)) t) = v.
Proof.
  induction keys as [|k [|k2 rest] IH]; intros t m Hne Hd.
  - congruence.
  - simpl in Hd. injection Hd as ->. cbn [removelast modify_at].
    rewrite getSync_walk_obj. unfold Db.last_key. simpl.
    now rewrite PropsFacts.lookup_set_same.
  - rewrite removelast_cons2 in *. rewrite last_key_cons2.
    cbn [deref] in Hd. destruct t as [| | | | | |m0]; try discriminate.
    cbn [modify_at]. destruct (Props.lookup k m0) as [c|] eqn:E;
      [|discriminate].
    rewrite getSync_walk_obj, PropsFacts.lookup_replace_same
      by (unfold Props.has; now rewrite E).
    apply IH; [discriminate|assumption].
Qed.

(* Reading a path that has just been deleted gives undefined. *)
Lemma getSync_walk_deleted keys : forall t m,
  keys <> [] ->
  deref (removelast keys) t = Some (VObj m) ->
  Db.getSync_walk keys
    (modify_at (removelast keys)
               (fun _ => VObj (Props.remove (Db.last_key keys) m)) t)
  = VUndef.
Proof.
  induction keys as [|k [|k2 rest] IH]; intros t m Hne Hd.
  - congruence.
  - simpl in Hd. injection Hd as ->. cbn [removelast modify_at].
    rewrite getSync_walk_obj. unfold Db.last_key. simpl.
    now rewrite PropsFacts.lookup_remove_same.
  - rewrite removelast_cons2 in *. rewrite last_key_cons2.
    cbn [deref] in Hd. destruct t as [| | | | | |m0]; try discriminate.
    cbn [modify_at]. destruct (Props.lookup k m0) as [c|] eqn:E;
      [|discriminate].
    rewrite getSync_walk_obj, PropsFacts.lookup_replace_same
      by (unfold Props.has; now rewrite E).
    apply IH; [discriminate|assumption].
Qed.

(* Deleting a property never brings an absent path back. *)
Lemma getSync_walk_after_delete last p : forall t m keys,
  deref p t = Some (VObj m) ->
  Db.getSync_walk keys t = VUndef ->
  Db.getSync_walk keys
    (modify_at p (fun _ => VObj (Props.remove last m)) t) = VUndef.
Proof.
  induction p as [|k0 p IH]; intros t m keys Hd Hg.
  - simpl in Hd. injection Hd as ->. cbn [modify_at].
    destruct keys as [|k rest]; [discriminate|].
    rewrite getSync_walk_obj in *.
    destruct (String.eqb last k) eqn:E.
    + apply String.eqb_eq in E. subst.
      now rewrite PropsFacts.lookup_remove_same.
    + rewrite PropsFacts.lookup_remove_other; [assumption|].
      intros ->. now rewrite String.eqb_refl in E.
  - cbn [deref] in Hd. destruct t as [| | | | | |m0]; try discriminate.
    cbn [modify_at]. destruct (Props.lookup k0 m0) as [c|] eqn:E;
      [|discriminate].
    destruct keys as [|k rest]; [discriminate|].
    rewrite getSync_walk_obj in *.
    destruct (String.eqb k0 k) eqn:Ek.
    + apply String.eqb_eq in Ek. subst k0.
      rewrite PropsFacts.lookup_replace_same
        by (unfold Props.has; now rewrite E).
      rewrite E in Hg. now apply IH.
    + rewrite PropsFacts.lookup_replace_other; [assumption|].
      intros ->. now rewrite String.eqb_refl in Ek.
Qed.

(** ** The loop of _getRef *)

Lemma prop_set_same k v m : prop k (Props.set k v m) = v.
Proof. unfold prop. now rewrite PropsFacts.lookup_set_same. Qed.

Lemma getRef_walk_unfold create k k2 rest m :
  getRef_walk create (k :: k2 :: rest) (VObj m)
  = match ensure create Value.is_nullish k m with
    | None => Ok (VObj m, false)
    | Some m1 =>
        match ensure create (fun c => negb (Value.is_object_type c)) k m1 with
        | None => Ok (VObj m, false)
        | Some m2 =>
            rbind (getRef_walk create (k2 :: rest) (prop k m2))
                  (fun r => Ok (VObj (Props.set k (fst r) m2), snd r))
        end
    end.
Proof. reflexivity. Qed.

Lemma getRef_walk_step create k k2 rest m :
  getRef_walk create (k :: k2 :: rest) (VObj m)
  = if is_map_or_array (prop k m)
    then rbind (getRef_walk create (k2 :: rest) (prop k m))
               (fun r => Ok (VObj (Props.set k (fst r) m), snd r))
    else if create
         then rbind (getRef_walk create (k2 :: rest) (VObj []))
                    (fun r => Ok (VObj (Props.set k (fst r)
                                          (Props.set k (VObj []) m)), snd r))
         else Ok (VObj m, false).
Proof.
  rewrite getRef_walk_unfold. unfold ensure.
  destruct (prop k m) eqn:E; destruct create;
    repeat (cbn [Value.is_nullish Value.is_object_type negb is_map_or_array];
            rewrite ?prop_set_same, ?E);
    reflexivity.
Qed.

Lemma getRef_walk_short create keys obj :
  (List.length keys <= 1)%nat -> getRef_walk create keys obj = Ok (obj, true).
Proof.
  destruct keys as [|k [|k2 rest]]; simpl; intros H; try reflexivity; lia.
Qed.

(* With create, a reference is always returned. *)
Lemma getRef_walk_create_found keys : forall obj t b,
  getRef_walk true keys obj = Ok (t, b) -> b = true.
Proof.
  induction keys as [|k [|k2 rest] IH]; intros obj t b H.
  - now injection H as _ <-.
  - now injection H as _ <-.
  - destruct obj; try discriminate. rewrite getRef_walk_step in H.
    destruct (is_map_or_array (prop k props)).
    + destruct (getRef_walk true (k2 :: rest) (prop k props))
        as [[t' b']| |] eqn:E; try discriminate.
      simpl in H. injection H as _ <-. eapply IH, E.
    + destruct (getRef_walk true (k2 :: rest) (VObj []))
        as [[t' b']| |] eqn:E; try discriminate.
      simpl in H. injection H as _ <-. eapply IH, E.
Qed.

(* Without create, the tree is left as it is. *)
Lemma getRef_walk_read_only keys : forall obj t b,
  getRef_walk false keys obj = Ok (t, b) -> t = obj.
Proof.
  induction keys as [|k [|k2 rest] IH]; intros obj t b H.
  - now injection H as <- _.
  - now injection H as <- _.
  - destruct obj; try discriminate; try (now injection H as <- _).
    rewrite getRef_walk_step in H.
    destruct (is_map_or_array (prop k props)) eqn:Ec.
    + destruct (getRef_walk false (k2 :: rest) (prop k props))
        as [[t' b']| |] eqn:E; try discriminate.
      simpl in H. injection H as <- _. apply IH in E. subst t'.
      f_equal. apply PropsFacts.set_same. unfold prop in *.
      destruct (Props.lookup k props); [reflexivity|discriminate].
    + now injection H as <- _.
Qed.

Lemma plain_path_empty keys : plain_path keys (VObj []) = true.
Proof. destruct keys as [|k [|k2 rest]]; reflexivity. Qed.

Lemma plain_path_step k k2 rest m :
  plain_path (k :: k2 :: rest) (VObj m)
  = match prop k m with
    | VArr _ => false
    | VObj m' => plain_path (k2 :: rest) (VObj m')
    | _ => true
    end.
Proof. reflexivity. Qed.

(* On a plain path the loop with create ends on a map. *)
Lemma getRef_walk_create_plain keys : forall obj,
  plain_path keys obj = true ->
  exists t m, getRef_walk true keys obj = Ok (t, true)
              /\ deref (removelast keys) t = Some (VObj m).
Proof.
  induction keys as [|k [|k2 rest] IH]; intros obj Hp.
  - destruct obj; try discriminate. now exists (VObj props), props.
  - destruct obj; try discriminate. now exists (VObj props), props.
  - destruct obj as [| | | | | |m0]; try discriminate.
    rewrite plain_path_step in Hp. rewrite getRef_walk_step.
    rewrite removelast_cons2.
    assert (Hstep : forall c m1,
               plain_path (k2 :: rest) c = true ->
               exists t m,
                 rbind (getRef_walk true (k2 :: rest) c)
                       (fun r => Ok (VObj (Props.set k (fst r) m1), snd r))
                 = Ok (t, true)
                 /\ deref (k :: removelast (k2 :: rest)) t = Some (VObj m)).
    { intros c m1 Hc. destruct (IH c Hc) as (t' & m & -> & Hd).
      exists (VObj (Props.set k t' m1)), m. split; [reflexivity|].
      cbn [deref fst]. now rewrite PropsFacts.lookup_set_same. }
    destruct (prop k m0) eqn:E; cbn [is_map_or_array];
      try (apply Hstep; apply plain_path_empty);
      [discriminate|now apply Hstep].
Qed.

(** ** _setSync and _deleteSync *)

Lemma get_prop_obj m k : Value.get_prop (VObj m) k = Ok (prop k m).
Proof. unfold prop. simpl. now destruct (Props.lookup k m). Qed.

Lemma setSync_run key v keys t m db :
  Db._resolvePath (separator db) key = Ok keys ->
  getRef_walk true keys (_data db) = Ok (t, true) ->
  deref (removelast keys) t = Some (VObj m) ->
  Db._setSync key v db = (Ok v, after_setSync key v keys t m db).
Proof.
  intros Hk Hw Hd.
  unfold Db._setSync, bind at 1. rewrite Hk.
  unfold bind at 1, Db._getRef. rewrite Hw.
  unfold bind at 1, Db.ref_get. cbn [_data with_data]. rewrite Hd.
  rewrite get_prop_obj.
  unfold bind at 1, Db.ref_set. cbn [_data with_data]. rewrite Hd.
  unfold after_setSync, emit_events, save_events, Db._emit,
    Db._scheduleSave, bind, modify, ret, record, with_data,
    with_indexManager, with_saveTimer.
  destruct (Db.json_differs (prop (Db.last_key keys) m) v);
    cbn [autoFile _data _expires _saveTimer _indexManager trace separator
         schema _hooks];
    destruct (autoFile db);
    cbn [autoFile _data _expires _saveTimer _indexManager trace separator
         schema _hooks orb];
    rewrite <- ?app_assoc, ?app_nil_r; reflexivity.
Qed.

Lemma setSync_inv key v db r db' :
  Db._setSync key v db = (Ok r, db') ->
  exists keys t m,
    Db._resolvePath (separator db) key = Ok keys
    /\ getRef_walk true keys (_data db) = Ok (t, true)
    /\ deref (removelast keys) t = Some (VObj m)
    /\ r = v /\ db' = after_setSync key v keys t m db.
Proof.
  intros H.
  assert (exists keys t m,
            Db._resolvePath (separator db) key = Ok keys
            /\ getRef_walk true keys (_data db) = Ok (t, true)
            /\ deref (removelast keys) t = Some (VObj m)) as (keys & t & m & E).
  { unfold Db._setSync, bind at 1 in H.
    destruct (Db._resolvePath (separator db) key) as [keys| |];
      try discriminate.
    unfold bind at 1, Db._getRef in H.
    destruct (getRef_walk true keys (_data db)) as [[t b]| |] eqn:Ew;
      try discriminate.
    pose proof (@getRef_walk_create_found keys (_data db) t b Ew) as ->.
    unfold bind at 1, Db.ref_get in H. cbn [_data with_data] in H.
    destruct (deref (removelast keys) t) as [c|] eqn:Ed; try discriminate.
    destruct (Value.get_prop c (Db.last_key keys)); try discriminate.
    unfold bind at 1, Db.ref_set in H. cbn [_data with_data] in H.
    rewrite Ed in H. destruct c; try discriminate.
    now exists keys, t, props. }
  exists keys, t, m. destruct E as (Hk & Hw & Hd).
  rewrite (@setSync_run key v keys t m db Hk Hw Hd) in H.
  injection H as <- <-. auto.
Qed.

(* On a plain path _setSync completes. *)
Lemma setSync_completes key v keys db :
  Db._resolvePath (separator db) key = Ok keys ->
  plain_path keys (_data db) = true ->
  exists db', Db._setSync key v db = (Ok v, db').
Proof.
  intros Hk Hp.
  destruct (@getRef_walk_create_plain keys (_data db) Hp) as (t & m & Hw & Hd).
  eexists. exact (@setSync_run key v keys t m db Hk Hw Hd).
Qed.

Lemma getSync_eq key keys db :
  Db._resolvePath (separator db) key = Ok keys ->
  Db._getSync key db = (Ok (Db.getSync_walk keys (_data db)), db).
Proof.
  intros Hk. unfold Db._getSync, bind, read. now rewrite Hk.
Qed.

(* The core of the round trip. *)
Lemma setSync_then_getSync key v keys db r db' :
  Db._resolvePath (separator db) key = Ok keys ->
  keys <> [] ->
  Db._setSync key v db = (Ok r, db') ->
  r = v /\ Db.getSync_walk keys (_data db') = v
  /\ separator db' = separator db /\ _expires db' = _expires db.
Proof.
  intros Hk Hne H.
  apply setSync_inv in H as (keys' & t & m & Hk' & Hw & Hd & -> & ->).
  rewrite Hk in Hk'. injection Hk' as <-.
  repeat split. cbn [after_setSync _data].
  now apply getSync_walk_written.
Qed.

(** ** set and get *)

Lemma run_hooks_from_pass ph action payload hooks : forall pos db,
  Forall (fun h : hook => h payload = None) hooks ->
  Db.run_hooks_from pos ph action payload hooks db
  = (Ok tt,
     with_trace
       (trace db ++ hook_events ph action payload pos (List.length hooks)) db).
Proof.
  unfold hook_events.
  induction hooks as [|h hooks IH]; intros pos db Hall; simpl.
  - now rewrite app_nil_r, with_trace_id.
  - inversion Hall as [|? ? Hh Hrest]; subst.
    unfold bind, modify. rewrite Hh, IH by assumption.
    simpl. now rewrite <- app_assoc.
Qed.

Lemma runHooks_pass ph action payload db :
  Forall (fun h : hook => h payload = None) (_hooks db ph action) ->
  Db._runHooks ph action payload db
  = (Ok tt,
     with_trace
       (trace db ++ hook_events ph action payload 0
                      (List.length (_hooks db ph action))) db).
Proof.
  intros H. unfold Db._runHooks, bind, read. now apply run_hooks_from_pass.
Qed.

(* The store after a set that completed. *)
Lemma set_inv key v opts now db r db' :
  Db.set key v opts now db = (Ok r, db') ->
  let payload := Db.payload_key_value key v in
  let db1 :=
    with_trace (trace db ++ hook_events Pre "set" payload 0
                  (List.length (_hooks db Pre "set"))) db in
  exists db2,
    Db._setSync key v db1 = (Ok r, db2)
    /\ let db3 :=
         with_expires (expiry_after_set key opts now (_expires db2)) db2 in
       db' = with_trace
               (trace db3 ++ hook_events Post "set" payload 0
                  (List.length (_hooks db3 Post "set"))) db3.
Proof.
  intros H payload db1. unfold Db.set in H.
  bind_inv H as u0 d0 H0. apply validateSchema_state in H0 as ->.
  bind_inv H as u1 d1 H1. apply runHooks_Ok in H1.
  fold payload in H1. fold db1 in H1. subst d1.
  bind_inv H as r2 d2 H2.
  bind_inv H as u3 d3 H3. bind_inv H as u4 d4 H4.
  unfold ret in H. injection H as <- <-.
  exists d2. split; [assumption|].
  apply runHooks_Ok in H4. rewrite H4.
  assert (d3 = with_expires
                 (expiry_after_set key opts now (_expires d2)) d2) as ->.
  { unfold expiry_after_set. unfold Db.delete_expiry, modify in H3.
    destruct (Db.positive_ttl opts); now injection H3 as <-. }
  reflexivity.
Qed.

Lemma lookup_In {A} k (x : A) m : Props.lookup k m = Some x -> In (k, x) m.
Proof.
  induction m as [|[k' x'] m IH]; simpl; [discriminate|].
  destruct (String.eqb k' k) eqn:E.
  - apply String.eqb_eq in E. subst. intros [= ->]. now left.
  - intros H. right. now apply IH.
Qed.

Lemma cleanup_loop_idle now entries : forall changed db,
  (forall k e, In (k, e) entries -> now < e) ->
  Db.cleanup_loop now entries changed db = (Ok changed, db).
Proof.
  induction entries as [|[k e] entries IH]; intros changed db H; simpl.
  - reflexivity.
  - assert ((now >=? e) = false) as -> by
        (specialize (H k e (or_introl eq_refl)); lia).
    apply IH. intros k' e' Hin. apply (H k' e'). now right.
Qed.

Lemma cleanup_idle now db :
  none_expired db now -> Db._cleanupExpiredSync now db = (Ok tt, db).
Proof.
  intros H. unfold Db._cleanupExpiredSync, bind, read.
  now rewrite cleanup_loop_idle.
Qed.

Lemma get_idle key now db :
  none_expired db now -> Db.get key now db = Db._getSync key db.
Proof.
  intros H. unfold Db.get, bind at 1. rewrite cleanup_idle by assumption.
  unfold bind, read, Db._isExpired.
  destruct (Props.lookup key (_expires db)) as [e|] eqn:E; [|reflexivity].
  apply lookup_In, H in E. now assert ((now >=? e) = false) as -> by lia.
Qed.

Lemma after_setSync_fields key v keys t m db :
  separator (after_setSync key v keys t m db) = separator db
  /\ _hooks (after_setSync key v keys t m db) = _hooks db
  /\ _expires (after_setSync key v keys t m db) = _expires db
  /\ schema (after_setSync key v keys t m db) = schema db
  /\ autoFile (after_setSync key v keys t m db) = autoFile db.
Proof. now repeat split. Qed.

(* On a store without schema whose hooks return, set completes when the
   path stays among maps. *)
Lemma set_completes (db : DarkDB) (key : string) (v opts : value) (now : Z)
      (keys : list string) :
  Db._resolvePath (separator db) key = Ok keys ->
  schema db = None ->
  hooks_pass db "set" (Db.payload_key_value key v) ->
  plain_path keys (_data db) = true ->
  exists db', Db.set key v opts now db = (Ok v, db').
Proof.
  intros Hk Hs Hh Hp. unfold Db.set.
  unfold bind at 1, Db._validateSchema. rewrite Hs.
  unfold bind at 1. rewrite runHooks_pass by apply Hh.
  unfold bind at 1.
  match goal with |- context [Db._setSync key v ?d] => set (db1 := d) end.
  destruct (@setSync_completes key v keys db1 Hk Hp) as [db2 H2].
  rewrite H2.
  apply setSync_inv in H2 as (ks & t & m & _ & _ & _ & _ & ->).
  unfold Db.delete_expiry.
  destruct (Db.positive_ttl opts); unfold bind at 1, modify;
    (unfold bind at 1; rewrite runHooks_pass by apply Hh);
    eexists; reflexivity.
Qed.






(** ** _deleteSync *)

Lemma with_data_id db : with_data (_data db) db = db.
Proof. now destruct db. Qed.

Lemma bound_step k k2 rest m :
  bound (k :: k2 :: rest) (VObj m)
  = match Props.lookup k m with
    | Some c => bound (k2 :: rest) c
    | None => false
    end.
Proof. reflexivity. Qed.

Lemma bound_scalar k rest c :
  is_map_or_array c = false -> bound (k :: rest) c = false.
Proof. now destruct c. Qed.

(* No reference is returned: the path is not bound. *)
Lemma getRef_walk_unbound keys : forall obj t,
  getRef_walk false keys obj = Ok (t, false) -> bound keys obj = false.
Proof.
  induction keys as [|k [|k2 rest] IH]; intros obj t H;
    [discriminate|discriminate|].
  destruct obj as [| | | | | |m]; try reflexivity; try discriminate.
  rewrite getRef_walk_step in H. rewrite bound_step. unfold prop in H.
  destruct (Props.lookup k m) as [c|]; [|reflexivity].
  destruct (is_map_or_array c) eqn:Ec.
  - destruct (getRef_walk false (k2 :: rest) c) as [[t' b']| |] eqn:E;
      try discriminate.
    simpl in H. injection H as _ ->. eapply IH, E.
  - now apply bound_scalar.
Qed.

(* A reference is returned: the path is bound when its last segment is a
   property of the container the reference leads to. *)
Lemma getRef_walk_bound keys : forall obj t,
  keys <> [] ->
  getRef_walk false keys obj = Ok (t, true) ->
  exists c, deref (removelast keys) obj = Some c
            /\ bound keys obj
               = match c with
                 | VObj m => Props.has (Db.last_key keys) m
                 | VArr _ => Value.has_prop c (Db.last_key keys)
                 | _ => false
                 end.
Proof.
  induction keys as [|k [|k2 rest] IH]; intros obj t Hne H; [congruence| |].
  - exists obj. split; [reflexivity|]. unfold Db.last_key. cbn [last].
    destruct obj; try reflexivity.
    cbn [bound Value.get_prop Value.has_prop].
    destruct (Value.elem elems k); [reflexivity|].
    destruct (k =? "length")%string; cbn; now rewrite ?andb_true_r.
  - destruct obj as [| | | | | |m]; try discriminate.
    rewrite getRef_walk_step in H. rewrite bound_step, removelast_cons2.
    rewrite last_key_cons2. cbn [deref]. unfold prop in H.
    destruct (Props.lookup k m) as [c|]; [|discriminate].
    destruct (is_map_or_array c); [|discriminate].
    destruct (getRef_walk false (k2 :: rest) c) as [[t' b']| |] eqn:E;
      try discriminate.
    simpl in H. injection H as _ ->.
    eapply IH; [discriminate|exact E].
Qed.

Lemma deleteSync_run key keys m db :
  Db._resolvePath (separator db) key = Ok keys ->
  getRef_walk false keys (_data db) = Ok (_data db, true) ->
  deref (removelast keys) (_data db) = Some (VObj m) ->
  Props.has (Db.last_key keys) m = true ->
  Db._deleteSync key db = (Ok true, after_deleteSync key keys m db).
Proof.
  intros Hk Hw Hd Hh.
  unfold Db._deleteSync, bind at 1. rewrite Hk.
  unfold bind at 1, Db._getRef. rewrite Hw, with_data_id.
  unfold bind at 1, Db.ref_has. rewrite Hd, Hh. cbn [negb].
  unfold bind at 1, Db.ref_delete. rewrite Hd.
  unfold after_deleteSync, emit_events, save_events, Db._emit,
    Db._scheduleSave, bind, modify, ret, record, with_data,
    with_indexManager, with_saveTimer.
  cbn [autoFile _data _expires _saveTimer _indexManager trace separator
       schema _hooks];
    destruct (autoFile db);
    cbn [autoFile _data _expires _saveTimer _indexManager trace separator
         schema _hooks orb];
    rewrite <- ?app_assoc, ?app_nil_r; reflexivity.
Qed.

(* Whatever its outcome, _deleteSync leaves the store as it was or removes
   one property of a map. *)
Lemma deleteSync_cases key db r db' :
  Db._deleteSync key db = (r, db') ->
  (db' = db /\ r <> Ok true)
  \/ exists keys m,
       Db._resolvePath (separator db) key = Ok keys
       /\ getRef_walk false keys (_data db) = Ok (_data db, true)
       /\ deref (removelast keys) (_data db) = Some (VObj m)
       /\ Props.has (Db.last_key keys) m = true
       /\ r = Ok true /\ db' = after_deleteSync key keys m db.
Proof.
  intros H. unfold Db._deleteSync, bind at 1 in H.
  destruct (Db._resolvePath (separator db) key) as [keys| |] eqn:Hk;
    try (injection H as <- <-; left; split; [reflexivity|discriminate]).
  unfold bind at 1, Db._getRef in H.
  destruct (getRef_walk false keys (_data db)) as [[t b]| |] eqn:Hw;
    try (injection H as <- <-; left; split; [reflexivity|discriminate]).
  pose proof (@getRef_walk_read_only keys (_data db) t b Hw) as ->.
  rewrite with_data_id in H.
  destruct b;
    [|injection H as <- <-; left; split; [reflexivity|discriminate]].
  unfold bind at 1, Db.ref_has in H.
  destruct (deref (removelast keys) (_data db)) as [c|] eqn:Hd;
    [|injection H as <- <-; left; split; [reflexivity|discriminate]].
  destruct c as [| | | | |l|m];
    try (injection H as <- <-; left; split; [reflexivity|discriminate]).
  - destruct (Value.has_prop (VArr l) (Db.last_key keys)); cbn [negb] in H.
    + unfold bind at 1, Db.ref_delete in H. rewrite Hd in H.
      injection H as <- <-; left; split; [reflexivity|discriminate].
    + injection H as <- <-; left; split; [reflexivity|discriminate].
  - destruct (Props.has (Db.last_key keys) m) eqn:Hh; cbn [negb] in H.
    + right. exists keys, m.
      assert (Hrun : Db._deleteSync key db
                     = (Ok true, after_deleteSync key keys m db))
        by now apply deleteSync_run.
      unfold Db._deleteSync, bind at 1 in Hrun. rewrite Hk in Hrun.
      unfold bind at 1, Db._getRef in Hrun. rewrite Hw, with_data_id in Hrun.
      unfold bind at 1, Db.ref_has in Hrun. rewrite Hd, Hh in Hrun.
      cbn [negb] in Hrun. rewrite Hrun in H. injection H as <- <-.
      now repeat split.
    + injection H as <- <-; left; split; [reflexivity|discriminate].
Qed.

(* A _deleteSync that completes tells whether the path was bound. *)
Lemma deleteSync_bound key keys db b db' :
  Db._resolvePath (separator db) key = Ok keys ->
  keys <> [] ->
  Db._deleteSync key db = (Ok b, db') ->
  b = bound keys (_data db).
Proof.
  intros Hk Hne H. pose proof H as H0.
  unfold Db._deleteSync, bind at 1 in H. rewrite Hk in H.
  unfold bind at 1, Db._getRef in H.
  destruct (getRef_walk false keys (_data db)) as [[t [|]]| |] eqn:Hw;
    try discriminate.
  - destruct (@getRef_walk_bound keys (_data db) t Hne Hw) as (c & Hd & ->).
    pose proof (@getRef_walk_read_only keys (_data db) t true Hw) as ->.
    rewrite with_data_id in H.
    unfold bind at 1, Db.ref_has in H. rewrite Hd in H.
    destruct c as [| | | | |l|m]; try discriminate.
    + destruct (Value.has_prop (VArr l) (Db.last_key keys)); cbn [negb] in H.
      * unfold bind at 1, Db.ref_delete in H. rewrite Hd in H. discriminate.
      * now injection H as <- _.
    + destruct (Props.has (Db.last_key keys) m) eqn:Hh; cbn [negb] in H.
      * rewrite (@deleteSync_run key keys m db Hk Hw Hd Hh) in H0.
        now injection H0 as <- _.
      * now injection H as <- _.
  - apply getRef_walk_unbound in Hw. rewrite Hw. now injection H as <- _.
Qed.

Lemma deleteSync_keeps key db r db' :
  Db._deleteSync key db = (r, db') ->
  separator db' = separator db
  /\ forall keys, Db.getSync_walk keys (_data db) = VUndef ->
                  Db.getSync_walk keys (_data db') = VUndef.
Proof.
  intros H. apply deleteSync_cases in H
    as [[-> _]|(ks & m & _ & _ & Hd & _ & _ & ->)].
  - now split.
  - split; [reflexivity|]. intros keys Hg. cbn [after_deleteSync _data].
    now apply getSync_walk_after_delete.
Qed.

Lemma cleanup_loop_keeps now entries : forall changed db r db',
  Db.cleanup_loop now entries changed db = (r, db') ->
  separator db' = separator db
  /\ forall keys, Db.getSync_walk keys (_data db) = VUndef ->
                  Db.getSync_walk keys (_data db') = VUndef.
Proof.
  induction entries as [|[k e] entries IH]; intros changed db r db' H.
  - injection H as _ <-. now split.
  - cbn [Db.cleanup_loop] in H. destruct (now >=? e); [|eapply IH, H].
    unfold bind at 1 in H.
    destruct (Db._deleteSync k db) as [[b|err|] d1] eqn:E;
      apply deleteSync_keeps in E as [Hs Ha];
      try (injection H as _ <-; now split).
    unfold bind at 1, Db.delete_expiry, modify in H.
    apply IH in H as [Hs' Ha']. cbn [separator _data with_expires] in *.
    split; [congruence|]. intros keys Hg. now apply Ha', Ha.
Qed.



(* On a plain path the loop of _getRef without create ends on a map when it
   returns a reference. *)
Lemma getRef_walk_read_plain keys : forall obj,
  plain_path keys obj = true ->
  exists t b, getRef_walk false keys obj = Ok (t, b)
              /\ (b = true ->
                  exists m, deref (removelast keys) obj = Some (VObj m)).
Proof.
  induction keys as [|k [|k2 rest] IH]; intros obj Hp.
  - destruct obj; try discriminate. exists (VObj props), true.
    split; [reflexivity|]. now exists props.
  - destruct obj; try discriminate. exists (VObj props), true.
    split; [reflexivity|]. now exists props.
  - destruct obj as [| | | | | |m0]; try discriminate.
    rewrite plain_path_step in Hp. rewrite getRef_walk_step.
    rewrite removelast_cons2. cbn [deref]. unfold prop in *.
    destruct (Props.lookup k m0) as [c|];
      [|exists (VObj m0), false; split; [reflexivity|discriminate]].
    destruct c; cbn [is_map_or_array];
      try (exists (VObj m0), false; split; [reflexivity|discriminate]);
      [discriminate|].
    destruct (IH _ Hp) as (t' & b' & -> & Hd).
    eexists _, b'. split; [reflexivity|exact Hd].
Qed.

Lemma deleteSync_completes key keys db :
  Db._resolvePath (separator db) key = Ok keys ->
  plain_path keys (_data db) = true ->
  exists b db', Db._deleteSync key db = (Ok b, db').
Proof.
  intros Hk Hp.
  destruct (@getRef_walk_read_plain keys (_data db) Hp) as (t & b & Hw & Hd).
  pose proof (@getRef_walk_read_only keys (_data db) t b Hw) as ->.
  destruct b.
  - destruct (Hd eq_refl) as [m Hm].
    destruct (Props.has (Db.last_key keys) m) eqn:Hh.
    + eexists _, _. now apply deleteSync_run with (keys := keys) (m := m).
    + exists false, db. unfold Db._deleteSync, bind at 1. rewrite Hk.
      unfold bind at 1, Db._getRef. rewrite Hw, with_data_id.
      unfold bind at 1, Db.ref_has. now rewrite Hm, Hh.
  - exists false, db. unfold Db._deleteSync, bind at 1. rewrite Hk.
    unfold bind at 1, Db._getRef. now rewrite Hw, with_data_id.
Qed.

(* The store after a delete that completed. *)
Lemma delete_inv key db b db' :
  Db.delete key db = (Ok b, db') ->
  let payload := Db.payload_key key in
  let db1 :=
    with_trace (trace db ++ hook_events Pre "delete" payload 0
                  (List.length (_hooks db Pre "delete"))) db in
  exists db2,
    Db._deleteSync key db1 = (Ok b, db2)
    /\ let db3 := with_expires (Props.remove key (_expires db2)) db2 in
       db' = with_trace
               (trace db3 ++ hook_events Post "delete" payload 0
                  (List.length (_hooks db3 Post "delete"))) db3.
Proof.
  intros H payload db1. unfold Db.delete in H.
  bind_inv H as u1 d1 H1. apply runHooks_Ok in H1.
  fold payload in H1. fold db1 in H1. subst d1.
  bind_inv H as b2 d2 H2.
  bind_inv H as u3 d3 H3. bind_inv H as u4 d4 H4.
  unfold ret in H. injection H as <- <-.
  exists d2. split; [assumption|].
  apply runHooks_Ok in H4. rewrite H4.
  unfold Db.delete_expiry, modify in H3. injection H3 as E3. subst d3.
  reflexivity.
Qed.


Lemma unbound_reads_undefined keys : forall obj,
  bound keys obj = false -> Db.getSync_walk keys obj = VUndef.
Proof.
  induction keys as [|k rest IH]; intros obj H; [discriminate|].
  destruct obj as [| | | | |l|m]; try reflexivity.
  - cbn [bound] in H. cbn [Db.getSync_walk Value.is_nullish
                            Value.is_object_type negb orb].
    destruct (Value.has_prop (VArr l) k); [|reflexivity]. cbn [negb].
    destruct (Value.get_prop (VArr l) k); try reflexivity.
    now apply IH.
  - rewrite getSync_walk_obj. cbn [bound] in H.
    destruct (Props.lookup k m); [now apply IH|reflexivity].
Qed.






(** ** Transactions *)

(* When the body throws, the tree of the store is the copy taken before the
   body ran and the expiry table has not been touched; the index is the one
   the body left behind. *)
Lemma transaction_throw fn db snapshot e temp' :
  JSON.clone (_data db) = Ok snapshot ->
  fn (with_indexManager (_indexManager db)
        (with_expires (_expires db)
           (with_data snapshot
              (constructor (separator db) false None default_fields))))
  = (Throw e, temp') ->
  Db.transaction fn db
  = (Throw e, with_data snapshot (with_indexManager (_indexManager temp') db)).
Proof.
  intros Hc Hf. unfold Db.transaction. now rewrite Hc, Hf.
Qed.

(** C2, at the failing input.  On a fresh store, a transaction whose body
    sets "docs.1" to a document and then throws re-raises the error, leaves
    the tree and the expiry table as they were, and leaves the postings the
    body wrote in the index: [search] finds a path that [get] does not. *)
Theorem C2_failed_transaction_keeps_index_writes :
  let call := Db.transaction Sample.failing_body Sample.fresh in
  fst call = Throw (UserError "boom")
  /\ _data (snd call) = _data Sample.fresh
  /\ _expires (snd call) = _expires Sample.fresh
  /\ IndexManager.indexes (_indexManager Sample.fresh) = []
  /\ IndexManager.indexes (_indexManager (snd call))
     = [("node", ["docs.1"]); ("guide", ["docs.1"])]
  /\ IndexManager.search (_indexManager (snd call)) "Node" = ["docs.1"]
  /\ fst (Db.get "docs.1" 0 (snd call)) = Ok VUndef.
Proof.
  vm_compute. repeat split.
Qed.

(** ** Expiry *)

(** C3, at the failing input.  The key "a" is stored at the instant 0 with
    a time to live of 10.  At the instant 20 [get], [has] and [all] treat it
    as absent and [get] removes it from the tree and from the table; [keys],
    [values], [entries], [find] and [query] do not look at the table and
    still list it. *)
Theorem C3_expired_key_still_listed :
  let db := Sample.with_session in
  let doc := VObj [("n", VNum 1)] in
  _expires db = [("a", 10)]
  /\ fst (Db.get "a" 20 db) = Ok VUndef
  /\ fst (Db.has "a" 20 db) = Ok false
  /\ fst (Db.all 20 db) = Ok (VObj [])
  /\ _data (snd (Db.get "a" 20 db)) = VObj []
  /\ _expires (snd (Db.get "a" 20 db)) = []
  /\ fst (Db.keys "" db) = Ok ["a"]
  /\ fst (Db.values "" db) = Ok [doc]
  /\ fst (Db.entries "" db) = Ok [("a", doc)]
  /\ fst (Db.find "" (fun _ _ => true) db) = Ok [("a", doc)]
  /\ fst (Sample.query "" (VObj []) Query.no_options db) = Ok [("a", doc)]
  /\ _expires (snd (Db.keys "" db)) = [("a", 10)].
Proof.
  vm_compute. repeat split.
Qed.

(** ** The index after updates *)

(** C4, at the failing inputs.  After [set] of a value that holds a nested
    document, the index has no posting for the nested path, while a rebuild
    from the same tree has one.  After the parent of an indexed document is
    deleted, the index keeps the posting of a path that no longer exists. *)
Theorem C4_index_differs_from_rebuild :
  IndexManager.indexes (_indexManager Sample.with_nested) = []
  /\ IndexManager.indexes
       (_indexManager (Sample.after Db._rebuildIndex Sample.with_nested))
     = [("node", ["docs.1"]); ("guide", ["docs.1"])]
  /\ fst (Db.get "docs.1" 0 Sample.with_nested) = Ok Sample.node_guide
  /\ _data Sample.with_deleted_parent = VObj []
  /\ IndexManager.search (_indexManager Sample.with_deleted_parent) "node"
     = ["docs.1"]
  /\ fst (Db.get "docs.1" 0 Sample.with_deleted_parent) = Ok VUndef.
Proof.
  vm_compute. repeat split.
Qed.

(** ** What _setSync does, seen from outside *)

Lemma getSync_walk_scalar k rest c :
  is_map_or_array c = false -> Db.getSync_walk (k :: rest) c = VUndef.
Proof. now destruct c. Qed.

(* The old value that _setSync compares with is the value a read of the
   key would have returned. *)
Lemma getRef_walk_old_value keys : forall obj t m,
  keys <> [] ->
  getRef_walk true keys obj = Ok (t, true) ->
  deref (removelast keys) t = Some (VObj m) ->
  prop (Db.last_key keys) m = Db.getSync_walk keys obj.
Proof.
  induction keys as [|k [|k2 rest] IH]; intros obj t m Hne Hw Hd;
    [congruence| |].
  - injection Hw as <-. simpl in Hd. injection Hd as ->.
    rewrite getSync_walk_obj. reflexivity.
  - destruct obj as [| | | | | |m0]; try discriminate.
    rewrite getRef_walk_step in Hw. rewrite last_key_cons2.
    rewrite removelast_cons2 in Hd. rewrite getSync_walk_obj.
    unfold prop in Hw at 1 2.
    destruct (Props.lookup k m0) as [c|] eqn:El.
    + destruct (is_map_or_array c) eqn:Ec.
      * destruct (getRef_walk true (k2 :: rest) c) as [[t' b']| |] eqn:E;
          try discriminate.
        simpl in Hw. injection Hw as <- ->. cbn [deref] in Hd.
        rewrite PropsFacts.lookup_set_same in Hd.
        eapply IH; [discriminate|exact E|exact Hd].
      * destruct (getRef_walk true (k2 :: rest) (VObj []))
          as [[t' b']| |] eqn:E; try discriminate.
        simpl in Hw. injection Hw as <- ->. cbn [deref] in Hd.
        rewrite PropsFacts.lookup_set_same in Hd.
        rewrite (getSync_walk_scalar k2 rest c Ec).
        erewrite IH; [|discriminate|exact E|exact Hd]. reflexivity.
    + cbn [is_map_or_array] in Hw.
      destruct (getRef_walk true (k2 :: rest) (VObj []))
        as [[t' b']| |] eqn:E; try discriminate.
      simpl in Hw. injection Hw as <- ->. cbn [deref] in Hd.
      rewrite PropsFacts.lookup_set_same in Hd.
      erewrite IH; [|discriminate|exact E|exact Hd]. reflexivity.
Qed.

Lemma setSync_effects key v keys db r db' :
  Db._resolvePath (separator db) key = Ok keys ->
  keys <> [] ->
  Db._setSync key v db = (Ok r, db') ->
  r = v
  /\ Db._getSync key db' = (Ok v, db')
  /\ trace db' = (trace db ++ emit_events "set" (Db.payload_key_value key v)
                                         (_data db')
                           ++ save_events db)%list
  /\ _saveTimer db' = (autoFile db || _saveTimer db)%bool
  /\ _indexManager db'
     = (if Db.json_differs (Db.getSync_walk keys (_data db)) v
        then IndexManager.update (_indexManager db) key v
        else _indexManager db)
  /\ _expires db' = _expires db.
Proof.
  intros Hk Hne H.
  apply setSync_inv in H as (keys' & t & m & Hk' & Hw & Hd & -> & ->).
  rewrite Hk in Hk'. injection Hk' as <-.
  split; [reflexivity|]. split.
  - rewrite (@getSync_eq key keys); [|exact Hk].
    cbn [after_setSync _data]. now rewrite getSync_walk_written.
  - repeat split. cbn [after_setSync _indexManager].
    now rewrite (@getRef_walk_old_value keys (_data db) t m Hne Hw Hd).
Qed.

(** ** push and unpush *)

Lemma deref_read keys : forall obj c,
  deref keys obj = Some c -> Db.getSync_walk keys obj = c.
Proof.
  induction keys as [|k rest IH]; intros obj c H.
  - now injection H as ->.
  - cbn [deref] in H. destruct obj as [| | | | | |m]; try discriminate.
    rewrite getSync_walk_obj.
    destruct (Props.lookup k m); [now apply IH|discriminate].
Qed.

Lemma deref_modify f keys : forall obj c,
  deref keys obj = Some c -> deref keys (modify_at keys f obj) = Some (f c).
Proof.
  induction keys as [|k rest IH]; intros obj c H.
  - now injection H as ->.
  - cbn [deref] in H. destruct obj as [| | | | | |m]; try discriminate.
    cbn [modify_at]. destruct (Props.lookup k m) as [c'|] eqn:E;
      [|discriminate].
    cbn [deref]. rewrite PropsFacts.lookup_replace_same
      by (unfold Props.has; now rewrite E).
    now apply IH.
Qed.


Lemma deref_obj k p m :
  deref (k :: p) (VObj m)
  = match Props.lookup k m with
    | Some c => deref p c
    | None => None
    end.
Proof. reflexivity. Qed.














(** ** The order of hooks and events *)

Lemma setSync_trace key v db r db' :
  Db._setSync key v db = (Ok r, db') ->
  trace db' = (trace db ++ emit_events "set" (Db.payload_key_value key v)
                                      (_data db')
                        ++ save_events db)%list
  /\ _hooks db' = _hooks db /\ autoFile db' = autoFile db.
Proof.
  intros H. apply setSync_inv in H as (keys & t & m & _ & _ & _ & _ & ->).
  now repeat split.
Qed.







(** ** The matcher *)

Section MatchFacts.

Variable coerce_rel : value -> value -> option bool.
Variable regexp_test : value -> value -> result bool.
Variable string_includes : string -> value -> result bool.

Local Abbreviation eval_op := (Query.eval_op coerce_rel regexp_test string_includes).
Local Abbreviation eval_ops := (Query.eval_ops coerce_rel regexp_test string_includes).
Local Abbreviation match_rule :=
  (Query.match_rule coerce_rel regexp_test string_includes).
Local Abbreviation match_fields :=
  (Query.match_fields coerce_rel regexp_test string_includes).
Local Abbreviation match_ := (Query.match_ coerce_rel regexp_test string_includes).
Local Abbreviation collect := (Query.collect coerce_rel regexp_test string_includes).
Local Abbreviation query := (Query.query coerce_rel regexp_test string_includes).

Lemma if_prop_truthy {A} k m (f : value -> A) otherwise :
  Query.if_prop k m f otherwise
  = match truthy_prop k m with
    | Some a => f a
    | None => otherwise
    end.
Proof.
  unfold truthy_prop, Query.if_prop.
  induction m as [|[k' a] m IH]; simpl; [reflexivity|].
  destruct (String.eqb k' k); [now destruct (Value.truthy a)|exact IH].
Qed.

Lemma match_obj obj m :
  match_ obj (VObj m)
  = match truthy_prop "$and" m with
    | Some (VArr subs) => Query.every (match_ obj) subs
    | Some _ => Throw (InvalidFilter "$and")
    | None =>
        match truthy_prop "$or" m with
        | Some (VArr subs) => Query.some (match_ obj) subs
        | Some _ => Throw (InvalidFilter "$or")
        | None =>
            match truthy_prop "$not" m with
            | Some a => rbind (match_ obj a) (fun b => Ok (negb b))
            | None => match_fields obj m
            end
        end
    end.
Proof.
  cbn [Query.match_]. rewrite !if_prop_truthy.
  destruct (truthy_prop "$and" m) as [a|]; [now destruct a|].
  destruct (truthy_prop "$or" m) as [a|]; [now destruct a|].
  reflexivity.
Qed.

Lemma eval_op_unknown val op cmp :
  ~ In op Query.known_operators ->
  eval_op val op cmp = Throw (UnknownOperator op).
Proof.
  intros Hop. unfold Query.eval_op.
  repeat match goal with
         | |- context [String.eqb op ?s] =>
             destruct (String.eqb_spec op s) as [->|_];
             [exfalso; apply Hop; simpl; tauto|]
         end.
  reflexivity.
Qed.

Lemma eval_ops_reaches val pre op cmp post :
  eval_ops val pre = Ok true ->
  eval_ops val (pre ++ (op, cmp) :: post)
  = rbind (eval_op val op cmp)
          (fun ok => if ok then eval_ops val post else Ok false).
Proof.
  induction pre as [|[o c] pre IH]; simpl; intros H; [reflexivity|].
  destruct (eval_op val o c) as [[|]| |]; simpl in *; try discriminate.
  now apply IH.
Qed.

Lemma match_fields_reaches obj pre field rule post :
  match_fields obj pre = Ok true ->
  match_fields obj (pre ++ (field, rule) :: post)
  = rbind (Value.get_prop obj field) (fun val =>
    rbind (match_rule val rule) (fun ok =>
      if ok then match_fields obj post else Ok false)).
Proof.
  induction pre as [|[f r] pre IH]; simpl; intros H; [reflexivity|].
  destruct (Value.get_prop obj f) as [val| |]; simpl in *; try discriminate.
  destruct (match_rule val r) as [[|]| |]; simpl in *; try discriminate.
  now apply IH.
Qed.


Lemma every_reaches (f : value -> result bool) pre s post :
  Forall (fun p => f p = Ok true) pre ->
  Query.every f (pre ++ s :: post)
  = rbind (f s) (fun b => if b then Query.every f post else Ok false).
Proof.
  induction pre as [|p pre IH]; intros H; [reflexivity|].
  inversion H as [|? ? Hp Hpre]; subst.
  cbn [app Query.every]. rewrite Hp. cbn [rbind]. now apply IH.
Qed.

Lemma some_reaches (f : value -> result bool) pre s post :
  Forall (fun p => f p = Ok false) pre ->
  Query.some f (pre ++ s :: post)
  = rbind (f s) (fun b => if b then Ok true else Query.some f post).
Proof.
  induction pre as [|p pre IH]; intros H; [reflexivity|].
  inversion H as [|? ? Hp Hpre]; subst.
  cbn [app Query.some]. rewrite Hp. cbn [rbind]. now apply IH.
Qed.

(* the children before the first one on which the matcher throws *)
Lemma collect_reaches filter pre k obj post e :
  Forall (fun kv => object_child kv = true ->
                    exists b, match_ (snd kv) filter = Ok b) pre ->
  Value.is_object_type obj = true ->
  match_ obj filter = Throw e ->
  collect filter (pre ++ (k, obj) :: post) = Throw e.
Proof.
  intros Hpre Hobj Hm.
  induction pre as [|[k0 v0] pre IH].
  - cbn [app Query.collect]. now rewrite Hobj, Hm.
  - inversion Hpre as [|? ? H0 Hrest]; subst.
    cbn [app Query.collect]. rewrite (IH Hrest).
    unfold object_child in H0. cbn [snd] in H0.
    destruct (Value.is_object_type v0); [|reflexivity].
    now destruct (H0 eq_refl) as [b ->].
Qed.

Lemma collect_no_object filter children :
  Forall (fun kv => object_child kv = false) children ->
  collect filter children = Ok [].
Proof.
  induction children as [|[k v] children IH]; intros H; [reflexivity|].
  inversion H as [|? ? H0 Hrest]; subst.
  unfold object_child in H0. cbn [snd] in H0.
  cbn [Query.collect]. now rewrite H0, (IH Hrest).
Qed.

Lemma slice_nil {A} from to : Query.slice (@nil A) from to = [].
Proof. unfold Query.slice. now rewrite skipn_nil, firstn_nil. Qed.

(** C6, as the code has it.  For a filter that is a map, matched against a
    document that answers by itself for the fields that the filter reads.
    When its [$and] is truthy and not a sequence the matcher throws
    InvalidFilter, and so it does for [$or] when [$and] is absent or falsy.
    When no combinator is truthy, the matcher throws UnknownOperator at the
    first operator key outside the nine known ones that it reaches, that is
    when the field rules and the operators before it all pass.  The errors
    of the sub-filters come through the combinators: [$and] throws what its
    first sub-filter that does not hold throws, [$or] what its first
    sub-filter that does not fail throws, [$not] what its sub-filter throws.
    [query], for any filter, throws what the matcher throws on the first
    child that is an object and on which it throws, and throws nothing on a
    root that is no container or has no child that is an object. *)
Theorem C6_filter_errors (obj : value) (m : list (string * value)) :
  (forall a, truthy_prop "$and" m = Some a -> Value.isArray a = false ->
             match_ obj (VObj m) = Throw (InvalidFilter "$and"))
  /\ (forall a, truthy_prop "$and" m = None ->
                truthy_prop "$or" m = Some a -> Value.isArray a = false ->
                match_ obj (VObj m) = Throw (InvalidFilter "$or"))
  /\ (forall pre field opre op cmp opost post val,
         tame_filter obj (VObj m) = true ->
         truthy_prop "$and" m = None ->
         truthy_prop "$or" m = None ->
         truthy_prop "$not" m = None ->
         m = (pre ++ (field, VObj (opre ++ (op, cmp) :: opost)) :: post)%list ->
         match_fields obj pre = Ok true ->
         Value.get_prop obj field = Ok val ->
         eval_ops val opre = Ok true ->
         ~ In op Query.known_operators ->
         match_ obj (VObj m) = Throw (UnknownOperator op))
  /\ (forall pre sub post e,
         tame_filter obj (VObj m) = true ->
         truthy_prop "$and" m = Some (VArr (pre ++ sub :: post)) ->
         Forall (fun p => match_ obj p = Ok true) pre ->
         match_ obj sub = Throw e ->
         match_ obj (VObj m) = Throw e)
  /\ (forall pre sub post e,
         tame_filter obj (VObj m) = true ->
         truthy_prop "$and" m = None ->
         truthy_prop "$or" m = Some (VArr (pre ++ sub :: post)) ->
         Forall (fun p => match_ obj p = Ok false) pre ->
         match_ obj sub = Throw e ->
         match_ obj (VObj m) = Throw e)
  /\ (forall sub e,
         tame_filter obj (VObj m) = true ->
         truthy_prop "$and" m = None ->
         truthy_prop "$or" m = None ->
         truthy_prop "$not" m = Some sub ->
         match_ obj sub = Throw e ->
         match_ obj (VObj m) = Throw e)
  /\ (forall filter db keyPrefix opts root pre k post e,
         Db.root_of keyPrefix db = (Ok root, db) ->
         Db.is_container root = true ->
         Value.own_entries root = (pre ++ (k, obj) :: post)%list ->
         Forall (fun kv => object_child kv = true ->
                           tame_filter (snd kv) filter = true) pre ->
         Forall (fun kv => object_child kv = true ->
                           exists b, match_ (snd kv) filter = Ok b) pre ->
         Value.is_object_type obj = true ->
         tame_filter obj filter = true ->
         match_ obj filter = Throw e ->
         query keyPrefix filter opts db = (Throw e, db))
  /\ (forall filter db keyPrefix opts root,
         Db.root_of keyPrefix db = (Ok root, db) ->
         Db.is_container root = false
         \/ Forall (fun kv => object_child kv = false)
                   (Value.own_entries root) ->
         query keyPrefix filter opts db = (Ok [], db)).
Proof.
  split; [|split; [|split; [|split; [|split; [|split; [|split]]]]]].
  - intros a Ha Harr. rewrite match_obj, Ha. now destruct a.
  - intros a Hand Ha Harr. rewrite match_obj, Hand, Ha. now destruct a.
  - intros pre field opre op cmp opost post val _ Hand Hor Hnot -> Hpre Hval
           Hopre Hop.
    rewrite match_obj, Hand, Hor, Hnot.
    rewrite match_fields_reaches by exact Hpre. rewrite Hval. simpl.
    rewrite eval_ops_reaches by exact Hopre.
    now rewrite eval_op_unknown.
  - intros pre sub post e _ Hand Hpre Hsub.
    rewrite match_obj, Hand, every_reaches by exact Hpre.
    now rewrite Hsub.
  - intros pre sub post e _ Hand Hor Hpre Hsub.
    rewrite match_obj, Hand, Hor, some_reaches by exact Hpre.
    now rewrite Hsub.
  - intros sub e _ Hand Hor Hnot Hsub.
    rewrite match_obj, Hand, Hor, Hnot. now rewrite Hsub.
  - intros filter db keyPrefix opts root pre k post e Hroot Hc He _ Hpre Hobj
           _ Hm.
    unfold Query.query, bind at 1. rewrite Hroot, Hc. cbn [negb].
    unfold bind at 1, lift. rewrite He.
    now rewrite (@collect_reaches filter pre k obj post e Hpre Hobj Hm).
  - intros filter db keyPrefix opts root Hroot Hno.
    unfold Query.query, bind at 1. rewrite Hroot.
    destruct (Db.is_container root) eqn:Hc; [|reflexivity].
    destruct Hno as [|Hno]; [discriminate|]. cbn [negb].
    unfold bind at 1, lift.
    rewrite (@collect_no_object filter _ Hno).
    destruct (Query.sort opts) as [[field order]|];
      unfold bind, lift, ret; cbn [Query.stable_sort fold_right];
      destruct (Query.skip opts =? 0), (Query.limit opts =? 0);
      rewrite ?slice_nil; reflexivity.
Qed.

End MatchFacts.

(** C6 fails as it is written: an operator object with an unknown key gives
    no error when an operator before it fails, a falsy [$and] that is not a
    sequence gives no error, and a collection without documents gives no
    error whatever the filter. *)
Lemma C6_counterexample :
  Sample.match_ Sample.five Sample.gt_then_unknown = Ok false
  /\ Sample.match_ Sample.five Sample.and_zero = Ok false
  /\ fst (Sample.query "users" Sample.unknown_first Query.no_options
                       Sample.fresh) = Ok [].
Proof.
  vm_compute. repeat split.
Qed.


Lemma C6_witness :
  Sample.match_ Sample.five Sample.unknown_first
  = Throw (UnknownOperator "$foo").
Proof.
  destruct (@C6_filter_errors Sample.no_coercion Sample.no_regexp
              Sample.no_includes Sample.five
              [("age", VObj [("$foo", VNum 1)])]) as (_ & _ & H & _).
  apply (H [] "age" [] "$foo" (VNum 1) [] [] (VNum 5));
    try reflexivity.
  vm_compute. intuition discriminate.
Defined.

(** * Further properties of the code *)

(** ** IndexManager.delete *)

Module IndexDelete.

Import IndexManager.

Lemma set_delete_In key x keys :
  In x (set_delete key keys) <-> In x keys /\ x <> key.
Proof.
  unfold set_delete. rewrite filter_In. split; intros [H1 H2]; split; auto.
  - intros ->. now rewrite String.eqb_refl in H2.
  - destruct (String.eqb_spec key x); [congruence|reflexivity].
Qed.

Lemma set_delete_absent key keys :
  set_has key keys = false -> set_delete key keys = keys.
Proof.
  unfold set_has, set_delete. induction keys as [|k keys IH]; simpl;
    [reflexivity|].
  destruct (String.eqb key k); simpl; [discriminate|].
  intros H. now rewrite IH.
Qed.

Lemma set_delete_NoDup key keys : NoDup keys -> NoDup (set_delete key keys).
Proof. apply NoDup_filter. Qed.

Lemma lookup_delete_entries_none key w idx :
  Props.lookup w idx = None ->
  Props.lookup w (delete_entries key idx) = None.
Proof.
  induction idx as [|[w0 ks] idx IH]; simpl; [reflexivity|].
  destruct (String.eqb w0 w) eqn:E; [discriminate|]. intros H.
  destruct (set_has key ks); [destruct (set_delete key ks)|];
    simpl; rewrite ?E; auto.
Qed.

Lemma lookup_not_in {A} w (idx : list (string * A)) :
  ~ In w (map fst idx) -> Props.lookup w idx = None.
Proof.
  induction idx as [|[w0 a] idx IH]; simpl; [reflexivity|]. intros H.
  destruct (String.eqb_spec w0 w); [tauto|]. apply IH. tauto.
Qed.

(* the posting set of a word after delete(key) *)
Lemma postings_delete im key w :
  NoDup (map fst (indexes im)) ->
  postings (delete im key) w = set_delete key (postings im w).
Proof.
  unfold postings, delete. cbn [indexes].
  induction (indexes im) as [|[w0 ks] idx IH]; simpl; [reflexivity|].
  intros Hnd. inversion Hnd as [|? ? Hnotin Hnd']; subst.
  destruct (String.eqb w0 w) eqn:E.
  - apply String.eqb_eq in E. subst w0.
    destruct (set_has key ks) eqn:Eh.
    + destruct (set_delete key ks) as [|k ks'] eqn:Ed.
      * now rewrite lookup_delete_entries_none by now apply lookup_not_in.
      * simpl. now rewrite String.eqb_refl.
    + simpl. rewrite String.eqb_refl. now rewrite set_delete_absent.
  - destruct (set_has key ks); [destruct (set_delete key ks)|];
      simpl; rewrite ?E; now apply IH.
Qed.

Lemma delete_entries_words key idx w :
  In w (map fst (delete_entries key idx)) -> In w (map fst idx).
Proof.
  induction idx as [|[w0 ks] idx IH]; simpl; [tauto|].
  destruct (set_has key ks); [destruct (set_delete key ks)|]; simpl; tauto.
Qed.

Lemma delete_entries_wf key idx : wf_index idx -> wf_index (delete_entries key idx).
Proof.
  unfold wf_index. induction idx as [|[w0 ks] idx IH]; simpl; [tauto|].
  intros [Hnd Hall]. inversion Hnd as [|? ? Hnotin Hnd']; subst.
  inversion Hall as [|? ? [Hne Hks] Hall']; subst.
  destruct (IH (conj Hnd' Hall')) as [IH1 IH2].
  assert (Hw : ~ In w0 (map fst (delete_entries key idx)))
    by (intros H; now apply Hnotin, delete_entries_words with (key := key)).
  destruct (set_has key ks).
  - destruct (set_delete key ks) as [|k ks'] eqn:Ed; [now split|].
    simpl. split; [now constructor|]. constructor; [|assumption].
    simpl. split; [discriminate|]. rewrite <- Ed. now apply set_delete_NoDup.
  - simpl. split; [now constructor|]. now constructor.
Qed.

End IndexDelete.

(** X1. After [delete(key)] the path is in no posting set, the posting sets
    keep every other path they had, and no posting set is left empty. *)
Theorem X1_index_delete (im : IndexManager.t) (key : string) :
  wf_index (IndexManager.indexes im) ->
  (forall w, ~ In key (IndexManager.postings (IndexManager.delete im key) w))
  /\ (forall w x, x <> key ->
        (In x (IndexManager.postings (IndexManager.delete im key) w)
         <-> In x (IndexManager.postings im w)))
  /\ wf_index (IndexManager.indexes (IndexManager.delete im key)).
Proof.
  intros [Hnd Hall]. repeat split.
  - intros w. rewrite IndexDelete.postings_delete by assumption.
    rewrite IndexDelete.set_delete_In. tauto.
  - rewrite IndexDelete.postings_delete by assumption.
    rewrite IndexDelete.set_delete_In. tauto.
  - rewrite IndexDelete.postings_delete by assumption.
    rewrite IndexDelete.set_delete_In. tauto.
  - apply (IndexDelete.delete_entries_wf key (conj Hnd Hall)).
  - apply (IndexDelete.delete_entries_wf key (conj Hnd Hall)).
Qed.

Lemma X1_witness :
  let im := _indexManager
              (Sample.after (Db.set "docs.2" (VObj [("title", VStr "Node JS")])
                                    Db.no_opts 0)
                 (Sample.after (Db.set "docs.1" Sample.node_guide Db.no_opts 0)
                               Sample.fresh)) in
  IndexManager.postings im "node" = ["docs.1"; "docs.2"]
  /\ ~ In "docs.1" (IndexManager.postings (IndexManager.delete im "docs.1")
                                          "node")
  /\ In "docs.2" (IndexManager.postings (IndexManager.delete im "docs.1")
                                        "node").
Proof.
  intros im.
  assert (Hwf : wf_index (IndexManager.indexes im)).
  { split; vm_compute; repeat constructor; simpl;
      try discriminate; intuition discriminate. }
  destruct (@X1_index_delete im "docs.1" Hwf) as (H1 & H2 & _).
  split; [reflexivity|]. split; [apply H1|].
  apply H2; [discriminate|]. vm_compute. tauto.
Defined.

(** ** IndexManager.indexText and IndexManager.update *)

Module IndexUpdate.

Import IndexManager.

Lemma set_add_In key x keys :
  In x (set_add key keys) <-> In x keys \/ x = key.
Proof.
  unfold set_add. destruct (set_has key keys) eqn:E.
  - apply IndexFacts.set_has_In in E. split; [tauto|].
    intros [H| ->]; assumption.
  - rewrite in_app_iff. simpl. intuition.
Qed.

Lemma set_add_NoDup key keys : NoDup keys -> NoDup (set_add key keys).
Proof.
  intros H. unfold set_add. destruct (set_has key keys) eqn:E; [assumption|].
  apply NoDup_app; [assumption|repeat constructor; intros []|].
  intros x Hx [<-|[]]. apply IndexFacts.set_has_In in Hx. congruence.
Qed.

Lemma lookup_map_update w f w' idx :
  Props.lookup w' (map_update w f idx)
  = if String.eqb w w'
    then option_map f (Props.lookup w idx)
    else Props.lookup w' idx.
Proof.
  induction idx as [|[w0 ks] idx IH]; simpl.
  - now destruct (String.eqb w w').
  - destruct (String.eqb w0 w) eqn:E; simpl.
    + apply String.eqb_eq in E. subst w0.
      destruct (String.eqb w w'); reflexivity.
    + rewrite IH. destruct (String.eqb w w') eqn:E'; [|reflexivity].
      apply String.eqb_eq in E'. subst w'. now rewrite E.
Qed.

Lemma lookup_app_new {A} w' w (a : A) (idx : list (string * A)) :
  Props.lookup w' (idx ++ [(w, a)])%list
  = match Props.lookup w' idx with
    | Some x => Some x
    | None => if String.eqb w w' then Some a else None
    end.
Proof.
  induction idx as [|[w0 ks] idx IH]; simpl; [reflexivity|].
  now destruct (String.eqb w0 w').
Qed.

(* the posting sets after one word has been filed *)
Lemma postings_add_posting key idx w w' fs x :
  In x (postings (mk (add_posting key idx w) fs) w')
  <-> In x (postings (mk idx fs) w') \/ (w' = w /\ x = key).
Proof.
  unfold postings, add_posting. cbn [indexes]. unfold Props.has.
  rewrite lookup_map_update.
  destruct (String.eqb_spec w w') as [<-|Hne].
  - destruct (Props.lookup w idx) as [ks|] eqn:E.
    + rewrite E. simpl. rewrite set_add_In. tauto.
    + rewrite lookup_app_new, E, String.eqb_refl. simpl. intuition.
  - destruct (Props.lookup w idx) as [ks|] eqn:E.
    + intuition congruence.
    + rewrite lookup_app_new.
      destruct (Props.lookup w' idx); [intuition congruence|].
      destruct (String.eqb_spec w w'); [congruence|].
      intuition congruence.
Qed.

Lemma postings_fields im fs w :
  postings (mk (indexes im) fs) w = postings im w.
Proof. reflexivity. Qed.

(* the posting sets after the words of a text have been filed *)
Lemma postings_indexText im key text w x :
  In x (postings (indexText im key text) w)
  <-> In x (postings im w) \/ (In w (tokens text) /\ x = key).
Proof.
  unfold indexText. rewrite <- (postings_fields im (fields im) w).
  generalize (indexes im) as idx. generalize (tokens text) as ws.
  induction ws as [|w0 ws IH]; intros idx; simpl; [tauto|].
  rewrite IH, postings_add_posting. intuition (subst; auto).
Qed.

Lemma postings_fold_fields v key fs : forall im w x,
  In x (postings
          (fold_left (fun im field =>
                        match field_text v field with
                        | Some text => indexText im key text
                        | None => im
                        end) fs im) w)
  <-> In x (postings im w)
      \/ (x = key /\ exists field text,
             In field fs /\ field_text v field = Some text
             /\ In w (tokens text)).
Proof.
  induction fs as [|f fs IH]; intros im w x; simpl.
  - split; [tauto|]. intros [H|(_ & f & t & [] & _)]. exact H.
  - rewrite IH. destruct (field_text v f) as [text|] eqn:E.
    + rewrite postings_indexText. split.
      * intros [[H|[Hw ->]]|(-> & f' & t' & Hin & Hf & Hw)]; auto.
        -- right. split; [reflexivity|]. exists f, text. auto.
        -- right. split; [reflexivity|]. exists f', t'. auto.
      * intros [H|(-> & f' & t' & [<-|Hin] & Hf & Hw)]; auto.
        -- rewrite E in Hf. injection Hf as <-. auto.
        -- right. split; [reflexivity|]. exists f', t'. auto.
    + split.
      * intros [H|(-> & f' & t' & Hin & Hf & Hw)]; auto.
        right. split; [reflexivity|]. exists f', t'. auto.
      * intros [H|(-> & f' & t' & [<-|Hin] & Hf & Hw)]; auto.
        -- congruence.
        -- right. split; [reflexivity|]. exists f', t'. auto.
Qed.

Lemma fields_fold v key fs : forall im,
  fields (fold_left (fun im field =>
                       match field_text v field with
                       | Some text => indexText im key text
                       | None => im
                       end) fs im) = fields im.
Proof.
  induction fs as [|f fs IH]; intros im; simpl; [reflexivity|].
  rewrite IH. now destruct (field_text v f).
Qed.

End IndexUpdate.

Lemma postings_update (im : IndexManager.t) (key : string) (v : value) :
  NoDup (map fst (IndexManager.indexes im)) ->
  (forall w, In key (IndexManager.postings (IndexManager.update im key v) w)
             <-> indexed_word im v w)
  /\ (forall w x, x <> key ->
        (In x (IndexManager.postings (IndexManager.update im key v) w)
         <-> In x (IndexManager.postings im w))).
Proof.
  intros Hnd. unfold IndexManager.update, indexed_word.
  pose proof (@IndexDelete.postings_delete im key) as Hdel.
  split.
  - intros w.
    destruct (Value.is_object_type v && negb (Value.is_nullish v))%bool.
    + rewrite IndexUpdate.postings_fold_fields, Hdel by assumption.
      rewrite IndexDelete.set_delete_In. cbn [IndexManager.fields
        IndexManager.delete]. intuition.
    + rewrite Hdel, IndexDelete.set_delete_In by assumption.
      intuition discriminate.
  - intros w x Hx.
    destruct (Value.is_object_type v && negb (Value.is_nullish v))%bool.
    + rewrite IndexUpdate.postings_fold_fields, Hdel by assumption.
      rewrite IndexDelete.set_delete_In. intuition.
    + rewrite Hdel, IndexDelete.set_delete_In by assumption. intuition.
Qed.

(** X2. After [update(key, v)] the path is filed under exactly the words of
    the configured fields of [v] that hold a non-empty text (under no word
    when [v] is not an object), and the posting sets keep every other path
    as it was. *)
Theorem X2_index_update (im : IndexManager.t) (key : string) (v : value) :
  NoDup (map fst (IndexManager.indexes im)) ->
  (forall w, In key (IndexManager.postings (IndexManager.update im key v) w)
             <-> indexed_word im v w)
  /\ (forall w x, x <> key ->
        (In x (IndexManager.postings (IndexManager.update im key v) w)
         <-> In x (IndexManager.postings im w))).
Proof. apply postings_update. Qed.

Lemma X2_witness :
  let im := _indexManager
              (Sample.after (Db.set "docs.1" Sample.node_guide Db.no_opts 0)
                            Sample.fresh) in
  let im' := IndexManager.update im "docs.1"
               (VObj [("title", VStr "JS Intro"); ("body", VStr "Node")]) in
  In "docs.1" (IndexManager.postings im' "intro")
  /\ ~ In "docs.1" (IndexManager.postings im' "node").
Proof.
  intros im im'.
  assert (Hnd : NoDup (map fst (IndexManager.indexes im))).
  { vm_compute. repeat constructor; simpl; intuition discriminate. }
  destruct (@X2_index_update im "docs.1"
              (VObj [("title", VStr "JS Intro"); ("body", VStr "Node")]) Hnd)
    as [H _].
  split.
  - apply H. split; [reflexivity|]. exists "title", "JS Intro".
    vm_compute. tauto.
  - intros Hin.
    destruct (proj1 (H "node") Hin) as (_ & f & t & Hf & Ht & Hw).
    destruct Hf as [<-|[<-|[]]]; vm_compute in Ht; try discriminate.
    injection Ht as <-. vm_compute in Hw. intuition discriminate.
Defined.

(** ** Words *)

Module Words.

Import IndexManager.

Lemma lower_char_not_upper c : Text.is_upper (Text.lower_char c) = false.
Proof. destruct c as [[] [] [] [] [] [] [] []]; reflexivity. Qed.

Lemma lower_char_fix c : Text.is_upper c = false -> Text.lower_char c = c.
Proof. unfold Text.lower_char. now intros ->. Qed.

Lemma all_chars_snoc p s c :
  all_chars p (Text.snoc s c) = (all_chars p s && p c)%bool.
Proof.
  unfold Text.snoc. induction s as [|c0 s IH]; simpl.
  - now rewrite andb_true_r.
  - now rewrite IH, andb_assoc.
Qed.

Lemma split_ws_go_chars p s : forall cur in_ws,
  all_chars (fun c => Text.is_space c || p c)%bool s = true ->
  all_chars p cur = true ->
  Forall (fun w => all_chars p w = true) (Text.split_ws_go cur in_ws s).
Proof.
  induction s as [|c s IH]; intros cur in_ws Hs Hcur; simpl.
  - now constructor.
  - simpl in Hs. apply andb_prop in Hs as [Hc Hs].
    destruct (Text.is_space c) eqn:E.
    + destruct in_ws; [|constructor; [assumption|]]; now apply IH.
    + apply IH; [assumption|]. rewrite all_chars_snoc, Hcur.
      simpl in Hc. now rewrite Hc.
Qed.

Lemma lower_word_chars s :
  all_chars (fun c => Text.is_space c || word_char c)%bool
            (Text.toLowerCase s) = true.
Proof.
  induction s as [|c s IH]; simpl; [reflexivity|]. rewrite IH.
  unfold word_char. rewrite lower_char_not_upper.
  now destruct (Text.is_space (Text.lower_char c)).
Qed.

(* the words of a text are made of lower-case characters that are not
   white space *)
Lemma tokens_word_chars text w :
  In w (tokens text) -> all_chars word_char w = true /\ w <> EmptyString.
Proof.
  unfold tokens. rewrite filter_In. intros [Hin Hne]. split.
  - pose proof (@split_ws_go_chars word_char (Text.toLowerCase text)
                  EmptyString false (lower_word_chars text) eq_refl) as H.
    rewrite Forall_forall in H. now apply H.
  - intros ->. discriminate.
Qed.

Lemma toLowerCase_word w :
  all_chars word_char w = true -> Text.toLowerCase w = w.
Proof.
  induction w as [|c w IH]; simpl; [reflexivity|].
  intros H. apply andb_prop in H as [Hc Hw]. unfold word_char in Hc.
  apply andb_prop in Hc as [_ Hu]. apply negb_true_iff in Hu.
  now rewrite IH, lower_char_fix.
Qed.

Lemma append_nil_r s : (s ++ "")%string = s.
Proof. induction s; simpl; congruence. Qed.

Lemma snoc_append cur c w :
  (Text.snoc cur c ++ w)%string = (cur ++ String c w)%string.
Proof. unfold Text.snoc. induction cur; simpl; congruence. Qed.

Lemma split_ws_go_word w : forall cur,
  all_chars word_char w = true ->
  Text.split_ws_go cur false w = [(cur ++ w)%string]
  /\ (w <> EmptyString -> forall b, Text.split_ws_go cur b w
                                    = [(cur ++ w)%string]).
Proof.
  induction w as [|c w IH]; intros cur H.
  - simpl. rewrite append_nil_r. split; [reflexivity|congruence].
  - simpl in H. apply andb_prop in H as [Hc Hw]. unfold word_char in Hc.
    apply andb_prop in Hc as [Hs _]. apply negb_true_iff in Hs.
    simpl. rewrite Hs.
    destruct (IH (Text.snoc cur c) Hw) as [E _].
    rewrite E, snoc_append. split; [reflexivity|]. intros _ b. reflexivity.
Qed.

(* a word of the index is the only word of itself *)
Lemma tokens_word w :
  all_chars word_char w = true -> w <> EmptyString -> tokens w = [w].
Proof.
  intros H Hne. unfold tokens, Text.split_ws.
  rewrite toLowerCase_word by assumption.
  destruct (@split_ws_go_word w EmptyString H) as [-> _]. simpl.
  destruct w; [congruence|reflexivity].
Qed.

Lemma toLowerCase_idem s :
  Text.toLowerCase (Text.toLowerCase s) = Text.toLowerCase s.
Proof.
  induction s as [|c s IH]; simpl; [reflexivity|].
  now rewrite IH, lower_char_fix by apply lower_char_not_upper.
Qed.

Lemma tokens_toLowerCase s : tokens (Text.toLowerCase s) = tokens s.
Proof. unfold tokens. now rewrite toLowerCase_idem. Qed.

Lemma search_one_word im q w :
  tokens q = [w] -> search im q = postings im w.
Proof.
  intros H. unfold search. rewrite H. simpl.
  now destruct (postings im w).
Qed.

End Words.

(** X3. After [update(key, v)], a search for any word of a configured text
    field of [v] finds the path, however the word is capitalised in the
    query. *)
Theorem X3_search_finds_indexed_words (im : IndexManager.t) (key : string)
        (v : value) (w query : string) :
  NoDup (map fst (IndexManager.indexes im)) ->
  indexed_word im v w ->
  Text.toLowerCase query = w ->
  In key (IndexManager.search (IndexManager.update im key v) query).
Proof.
  intros Hnd Hw Hq.
  assert (Hchars : all_chars word_char w = true /\ w <> EmptyString).
  { destruct Hw as (_ & f & t & _ & _ & Hin).
    now apply Words.tokens_word_chars in Hin. }
  destruct Hchars as [Hc Hne].
  rewrite (@Words.search_one_word _ query w).
  - destruct (@postings_update im key v Hnd) as [H _]. now apply H.
  - rewrite <- Words.tokens_toLowerCase, Hq. now apply Words.tokens_word.
Qed.

Lemma X3_witness :
  In "docs.1"
     (IndexManager.search
        (IndexManager.update (_indexManager Sample.fresh) "docs.1"
                             Sample.node_guide) "NODE").
Proof.
  apply (@X3_search_finds_indexed_words (_indexManager Sample.fresh)
           "docs.1" Sample.node_guide "node" "NODE").
  - vm_compute. constructor.
  - split; [reflexivity|]. exists "title", "Node Guide". vm_compute. tauto.
  - reflexivity.
Defined.

(** ** Reading around a written path *)

Lemma getSync_walk_undef q : Db.getSync_walk q VUndef = VUndef.
Proof. now destruct q. Qed.

Lemma getSync_walk_app p : forall q obj,
  Db.getSync_walk (p ++ q) obj = Db.getSync_walk q (Db.getSync_walk p obj).
Proof.
  induction p as [|k p IH]; intros q obj; [reflexivity|].
  cbn [app Db.getSync_walk].
  destruct (Value.is_nullish obj || negb (Value.is_object_type obj)
            || negb (Value.has_prop obj k))%bool;
    [now rewrite getSync_walk_undef|].
  destruct (Value.get_prop obj k); [apply IH| |];
    now rewrite getSync_walk_undef.
Qed.

Lemma getSync_walk_empty_obj k q : Db.getSync_walk (k :: q) (VObj []) = VUndef.
Proof. reflexivity. Qed.

Lemma lookup_prop_container k m :
  is_map_or_array (prop k m) = true -> Props.lookup k m = Some (prop k m).
Proof. unfold prop. now destruct (Props.lookup k m). Qed.

(* A write leaves alone every path that parts from the written one. *)
Lemma getSync_walk_frame_set v a b r1 r2 (Hab : a <> b) p :
  forall obj t m,
  getRef_walk true (p ++ a :: r1) obj = Ok (t, true) ->
  deref (removelast (p ++ a :: r1)) t = Some (VObj m) ->
  Db.getSync_walk (p ++ b :: r2)
    (modify_at (removelast (p ++ a :: r1))
       (fun _ => VObj (Props.set (Db.last_key (p ++ a :: r1)) v m)) t)
  = Db.getSync_walk (p ++ b :: r2) obj.
Proof.
  assert (Hba : b <> a) by congruence.
  induction p as [|k p IH]; intros obj t m Hw Hd.
  - cbn [app] in *. destruct r1 as [|k2 r].
    + injection Hw as <-. simpl in Hd. injection Hd as ->.
      cbn [removelast modify_at]. rewrite !getSync_walk_obj.
      unfold Db.last_key. cbn [last].
      now rewrite PropsFacts.lookup_set_other.
    + destruct obj as [| | | | | |m0]; try discriminate.
      rewrite getRef_walk_step in Hw. rewrite removelast_cons2 in *.
      assert (Hshape : exists t' m1,
                 t = VObj (Props.set a t' m1)
                 /\ Props.lookup b m1 = Props.lookup b m0).
      { destruct (is_map_or_array (prop a m0)).
        - destruct (getRef_walk true (k2 :: r) (prop a m0))
            as [[t' b']| |]; try discriminate.
          simpl in Hw. injection Hw as <- _. now exists t', m0.
        - destruct (getRef_walk true (k2 :: r) (VObj []))
            as [[t' b']| |]; try discriminate.
          simpl in Hw. injection Hw as <- _.
          exists t', (Props.set a (VObj []) m0). split; [reflexivity|].
          now apply PropsFacts.lookup_set_other. }
      destruct Hshape as (t' & m1 & -> & Hb).
      cbn [modify_at]. rewrite PropsFacts.lookup_set_same.
      rewrite !getSync_walk_obj.
      rewrite PropsFacts.lookup_replace_other by assumption.
      rewrite PropsFacts.lookup_set_other by assumption. now rewrite Hb.
  - cbn [app] in *.
    destruct (p ++ a :: r1)%list as [|k2 rest] eqn:E;
      [now destruct p|].
    assert (Eb : exists k3 rest', (p ++ b :: r2)%list = k3 :: rest')
      by (destruct p; simpl; eauto).
    destruct Eb as (k3 & rest' & Eb).
    destruct obj as [| | | | | |m0]; try discriminate.
    rewrite getRef_walk_step in Hw. rewrite removelast_cons2 in *.
    rewrite last_key_cons2. rewrite (getSync_walk_obj k _ m0).
    destruct (is_map_or_array (prop k m0)) eqn:Ec.
    + destruct (getRef_walk true (k2 :: rest) (prop k m0))
        as [[t' b']| |] eqn:Ew; try discriminate.
      simpl in Hw. injection Hw as <- ->.
      cbn [deref] in Hd. rewrite PropsFacts.lookup_set_same in Hd.
      cbn [modify_at]. rewrite PropsFacts.lookup_set_same.
      rewrite getSync_walk_obj.
      rewrite PropsFacts.lookup_replace_same
        by apply PropsFacts.has_set_same.
      rewrite (lookup_prop_container _ _ Ec). now apply IH.
    + destruct (getRef_walk true (k2 :: rest) (VObj []))
        as [[t' b']| |] eqn:Ew; try discriminate.
      simpl in Hw. injection Hw as <- ->.
      cbn [deref] in Hd. rewrite PropsFacts.lookup_set_same in Hd.
      cbn [modify_at]. rewrite PropsFacts.lookup_set_same.
      rewrite getSync_walk_obj.
      rewrite PropsFacts.lookup_replace_same
        by apply PropsFacts.has_set_same.
      rewrite (IH _ _ _ Ew Hd). rewrite Eb, getSync_walk_empty_obj.
      unfold prop in Ec. destruct (Props.lookup k m0) as [c|];
        [|reflexivity].
      now rewrite getSync_walk_scalar.
Qed.

(* A delete leaves alone every path that parts from the deleted one. *)
Lemma getSync_walk_frame_delete a b r1 r2 (Hab : a <> b) p :
  forall obj m,
  deref (removelast (p ++ a :: r1)) obj = Some (VObj m) ->
  Db.getSync_walk (p ++ b :: r2)
    (modify_at (removelast (p ++ a :: r1))
       (fun _ => VObj (Props.remove (Db.last_key (p ++ a :: r1)) m)) obj)
  = Db.getSync_walk (p ++ b :: r2) obj.
Proof.
  assert (Hba : b <> a) by congruence.
  induction p as [|k p IH]; intros obj m Hd.
  - cbn [app] in *. destruct r1 as [|k2 r].
    + simpl in Hd. injection Hd as ->. cbn [removelast modify_at].
      rewrite !getSync_walk_obj. unfold Db.last_key. cbn [last].
      now rewrite PropsFacts.lookup_remove_other.
    + rewrite removelast_cons2 in *. cbn [deref] in Hd.
      destruct obj as [| | | | | |m0]; try discriminate.
      cbn [modify_at]. destruct (Props.lookup a m0); [|discriminate].
      rewrite !getSync_walk_obj.
      now rewrite PropsFacts.lookup_replace_other.
  - cbn [app] in *.
    destruct (p ++ a :: r1)%list as [|k2 rest] eqn:E;
      [now destruct p|].
    rewrite removelast_cons2 in *. rewrite last_key_cons2.
    cbn [deref] in Hd. destruct obj as [| | | | | |m0]; try discriminate.
    cbn [modify_at]. destruct (Props.lookup k m0) as [c|] eqn:El;
      [|discriminate].
    rewrite !getSync_walk_obj.
    rewrite PropsFacts.lookup_replace_same
      by (unfold Props.has; now rewrite El).
    rewrite El. now apply IH.
Qed.

(* the synchronous core inside a set that completed *)
Lemma set_core key v opts now db r db' :
  Db.set key v opts now db = (Ok r, db') ->
  exists d1 d2,
    _data d1 = _data db /\ separator d1 = separator db
    /\ Db._setSync key v d1 = (Ok r, d2)
    /\ _data db' = _data d2 /\ separator db' = separator db.
Proof.
  intros H. apply set_inv in H as (d2 & H2 & ->). cbv zeta in *.
  match type of H2 with
  | Db._setSync key v ?d = _ => exists d, d2
  end.
  split; [reflexivity|]. split; [reflexivity|]. split; [exact H2|].
  split; [reflexivity|]. cbn [separator with_trace with_expires].
  apply setSync_inv in H2 as (ks & t & m & _ & _ & _ & _ & ->).
  reflexivity.
Qed.

(* the synchronous core inside a delete that completed *)
Lemma delete_core key db b db' :
  Db.delete key db = (Ok b, db') ->
  exists d1 d2,
    _data d1 = _data db /\ separator d1 = separator db
    /\ Db._deleteSync key d1 = (Ok b, d2)
    /\ _data db' = _data d2 /\ separator db' = separator db.
Proof.
  intros H. apply delete_inv in H as (d2 & H2 & ->). cbv zeta in *.
  match type of H2 with
  | Db._deleteSync key ?d = _ => exists d, d2
  end.
  split; [reflexivity|]. split; [reflexivity|]. split; [exact H2|].
  split; [reflexivity|]. cbn [separator with_trace with_expires].
  now apply deleteSync_keeps in H2 as [-> _].
Qed.


(** X4. After a [set(k, v)] that completes, a key whose path continues the
    path of [k] reads the part of [v] that the continuation leads to.  This
    is for a [k] with at least one segment, none of them a name that
    objects inherit, on a path that stays among maps, and for a
    continuation that meets own properties only in [v].  On a store without
    schema whose hooks return, the [set] does complete. *)
Theorem X4_set_then_read_below (db : DarkDB) (key key2 : string)
        (v opts : value) (now : Z) (keys rest : list string) :
  Db._resolvePath (separator db) key = Ok keys ->
  keys <> [] ->
  Db._resolvePath (separator db) key2 = Ok (keys ++ rest)%list ->
  own_path keys = true ->
  plain_path keys (_data db) = true ->
  tame rest v = true ->
  (schema db = None ->
   hooks_pass db "set" (Db.payload_key_value key v) ->
   exists db',
     Db.set key v opts now db = (Ok v, db')
     /\ Db._getSync key2 db' = (Ok (Db.getSync_walk rest v), db'))
  /\ (forall r db',
        Db.set key v opts now db = (Ok r, db') ->
        Db._getSync key2 db' = (Ok (Db.getSync_walk rest v), db')).
Proof.
  intros Hk Hne Hk2 _ Hp _.
  assert (Hread : forall r db',
             Db.set key v opts now db = (Ok r, db') ->
             Db._getSync key2 db' = (Ok (Db.getSync_walk rest v), db')).
  { intros r db' H.
    apply set_core in H as (d1 & d2 & Hd1 & Hs1 & H2 & Hd' & Hs').
    rewrite <- Hs1 in Hk.
    destruct (@setSync_then_getSync key v keys d1 r d2 Hk Hne H2)
      as (_ & Hg & _).
    rewrite (@getSync_eq key2 (keys ++ rest) db') by now rewrite Hs'.
    now rewrite getSync_walk_app, Hd', Hg. }
  split; [|exact Hread].
  intros Hs Hh.
  destruct (@set_completes db key v opts now keys Hk Hs Hh Hp) as [db' H].
  exists db'. split; [exact H|exact (Hread v db' H)].
Qed.


Lemma X4_witness :
  let doc := VObj [("name", VStr "Alice"); ("age", VNum 25)] in
  let db' := Sample.after (Db.set "users.1" doc Db.no_opts 0) Sample.fresh in
  Db._getSync "users.1.age" db' = (Ok (VNum 25), db').
Proof.
  intros doc db'.
  assert (E : Db.set "users.1" doc Db.no_opts 0 Sample.fresh
              = (Ok doc, db')) by (vm_compute; reflexivity).
  destruct (@X4_set_then_read_below Sample.fresh "users.1" "users.1.age" doc
              Db.no_opts 0 ["users"; "1"] ["age"] eq_refl
              ltac:(discriminate) eq_refl eq_refl eq_refl eq_refl)
    as [_ H].
  rewrite (H doc db' E). vm_compute. reflexivity.
Defined.


(** ** Expiry *)

Lemma remove_In {A} k k' (x : A) m :
  In (k', x) (Props.remove k m) -> In (k', x) m /\ k' <> k.
Proof.
  induction m as [|[k0 x0] m IH]; simpl; [tauto|].
  destruct (String.eqb_spec k0 k) as [->|Hne].
  - intros H. apply IH in H. tauto.
  - intros [[= -> ->]|H]; [tauto|]. apply IH in H. tauto.
Qed.

Lemma deleteSync_expires key db r db' :
  Db._deleteSync key db = (r, db') -> _expires db' = _expires db.
Proof.
  intros H. apply deleteSync_cases in H
    as [[-> _]|(ks & m & _ & _ & _ & _ & _ & ->)]; reflexivity.
Qed.

(* What a sweep that completes leaves in the table: entries that were there
   and whose key had no entry reached by the clock. *)
Lemma cleanup_loop_expires now entries : forall changed db r db',
  Db.cleanup_loop now entries changed db = (Ok r, db') ->
  forall k e,
    In (k, e) (_expires db') ->
    In (k, e) (_expires db)
    /\ forall e0, In (k, e0) entries -> now < e0.
Proof.
  induction entries as [|[k0 e0] entries IH]; intros changed db r db' H k e Hin.
  - injection H as _ <-. split; [assumption|]. intros e0 [].
  - cbn [Db.cleanup_loop] in H. destruct (now >=? e0) eqn:E.
    + bind_inv H as b1 d1 H1. bind_inv H as u2 d2 H2.
      unfold Db.delete_expiry, modify in H2. injection H2 as Hd2.
      subst d2. apply deleteSync_expires in H1.
      destruct (IH _ _ _ _ H k e Hin) as [Hin' Hrest].
      cbn [_expires with_expires] in Hin'. rewrite H1 in Hin'.
      apply remove_In in Hin' as [Hin' Hne]. split; [assumption|].
      intros e1 [[= -> ->]|Hin1]; [congruence|now apply Hrest].
    + destruct (IH _ _ _ _ H k e Hin) as [Hin' Hrest].
      split; [assumption|].
      intros e1 [[= -> ->]|Hin1]; [lia|now apply Hrest].
Qed.

Lemma deleteSync_gone key keys db b db' :
  Db._resolvePath (separator db) key = Ok keys ->
  keys <> [] ->
  Db._deleteSync key db = (Ok b, db') ->
  Db.getSync_walk keys (_data db') = VUndef.
Proof.
  intros Hk Hne H.
  pose proof (@deleteSync_bound key keys db b db' Hk Hne H) as Hb.
  apply deleteSync_cases in H
    as [[-> Hr]|(ks & m & Hk' & _ & Hd & _ & _ & ->)].
  - apply unbound_reads_undefined. rewrite <- Hb.
    destruct b; [now elim Hr|reflexivity].
  - rewrite Hk in Hk'. injection Hk' as <-.
    cbn [after_deleteSync _data]. now apply getSync_walk_deleted.
Qed.

(* A sweep that completes has emptied the path of every key it found
   expired. *)
Lemma cleanup_loop_gone now key keys e entries : forall changed db r db',
  In (key, e) entries -> e <= now ->
  Db._resolvePath (separator db) key = Ok keys ->
  keys <> [] ->
  Db.cleanup_loop now entries changed db = (Ok r, db') ->
  Db.getSync_walk keys (_data db') = VUndef.
Proof.
  induction entries as [|[k0 e0] entries IH];
    intros changed db r db' Hin He Hk Hne H; [destruct Hin|].
  cbn [Db.cleanup_loop] in H. destruct (now >=? e0) eqn:E.
  - bind_inv H as b1 d1 H1. bind_inv H as u2 d2 H2.
    unfold Db.delete_expiry, modify in H2. injection H2 as Hd2.
    subst d2. pose proof (@deleteSync_keeps _ _ _ _ H1) as [Hs Ha].
    destruct Hin as [[= -> ->]|Hin].
    + pose proof (@deleteSync_gone key keys db b1 d1 Hk Hne H1) as Hg.
      apply cleanup_loop_keeps in H as [_ Ha']. now apply Ha'.
    + eapply IH; [exact Hin|exact He| |exact Hne|exact H].
      cbn [separator with_expires]. now rewrite Hs.
  - destruct Hin as [[= -> ->]|Hin]; [lia|].
    eapply IH; eassumption.
Qed.

Lemma cleanup_sweeps now db u db' :
  Db._cleanupExpiredSync now db = (Ok u, db') ->
  (forall k e, In (k, e) (_expires db') ->
               forall e0, In (k, e0) (_expires db) -> now < e0)
  /\ (forall k e, In (k, e) (_expires db') -> In (k, e) (_expires db))
  /\ separator db' = separator db
  /\ forall key keys e,
       In (key, e) (_expires db) -> e <= now ->
       Db._resolvePath (separator db) key = Ok keys -> keys <> [] ->
       Db.getSync_walk keys (_data db') = VUndef.
Proof.
  intros H. unfold Db._cleanupExpiredSync in H.
  bind_inv H as entries d0 H0. unfold read in H0. injection H0 as <- <-.
  bind_inv H as changed d1 H1.
  assert (Hd : _expires db' = _expires d1 /\ _data db' = _data d1
               /\ separator db' = separator d1).
  { unfold Db._scheduleSave, ret in H.
    destruct changed; [destruct (autoFile d1)|];
      injection H as _ <-; now repeat split. }
  destruct Hd as (He & Hd & Hs).
  pose proof (@cleanup_loop_keeps _ _ _ _ _ _ H1) as [Hs1 _].
  split; [|split; [|split]].
  - intros k e Hin. rewrite He in Hin.
    now destruct (@cleanup_loop_expires _ _ _ _ _ _ H1 k e Hin).
  - intros k e Hin. rewrite He in Hin.
    now destruct (@cleanup_loop_expires _ _ _ _ _ _ H1 k e Hin).
  - congruence.
  - intros key keys e Hin Hle Hk Hne. rewrite Hd.
    eapply cleanup_loop_gone; eassumption.
Qed.

(* get on a key whose entry the clock has reached *)
Lemma get_expired key keys e now db r db' :
  In (key, e) (_expires db) -> e <= now ->
  Db._resolvePath (separator db) key = Ok keys ->
  keys <> [] ->
  Db.get key now db = (Ok r, db') ->
  r = VUndef
  /\ Props.lookup key (_expires db') = None
  /\ Db._getSync key db' = (Ok VUndef, db')
  /\ none_expired db' now.
Proof.
  intros Hin Hle Hk Hne H. unfold Db.get in H.
  bind_inv H as u0 d0 H0.
  apply cleanup_sweeps in H0 as (Hlive & Hsub & Hs & Hgone).
  specialize (Hgone key keys e Hin Hle Hk Hne).
  bind_inv H as expired d1 H1. unfold read in H1. injection H1 as <- <-.
  assert (Hl : Props.lookup key (_expires d0) = None).
  { destruct (Props.lookup key (_expires d0)) as [e'|] eqn:El;
      [|reflexivity].
    apply lookup_In in El. specialize (Hlive _ _ El e Hin). lia. }
  unfold Db._isExpired in H. rewrite Hl in H.
  rewrite (@getSync_eq key keys d0) in H by now rewrite Hs.
  injection H as <- <-. rewrite Hgone. repeat split; try assumption.
  - rewrite (@getSync_eq key keys d0) by now rewrite Hs. now rewrite Hgone.
  - intros k e' Hin'. apply (Hlive k e' Hin' e'). now apply Hsub.
Qed.


(* Removing a property keeps a path among maps. *)
Lemma plain_path_after_delete last p : forall t m keys,
  deref p t = Some (VObj m) ->
  plain_path keys t = true ->
  plain_path keys (modify_at p (fun _ => VObj (Props.remove last m)) t)
  = true.
Proof.
  induction p as [|k0 p IH]; intros t m keys Hd Hp.
  - cbn [deref] in Hd. injection Hd as ->. cbn [modify_at].
    destruct keys as [|k [|k2 rest]]; [reflexivity|reflexivity|].
    rewrite plain_path_step in *. unfold prop in *.
    destruct (String.eqb_spec k last) as [->|Hne].
    + now rewrite PropsFacts.lookup_remove_same.
    + now rewrite PropsFacts.lookup_remove_other.
  - destruct t as [| | | | | |m0]; try discriminate.
    rewrite deref_obj in Hd. cbn [modify_at].
    destruct (Props.lookup k0 m0) as [c|] eqn:E; [|discriminate].
    destruct keys as [|k [|k2 rest]]; [reflexivity|reflexivity|].
    rewrite plain_path_step in *. unfold prop in *.
    destruct (String.eqb_spec k k0) as [->|Hne].
    + rewrite PropsFacts.lookup_replace_same
        by (unfold Props.has; now rewrite E).
      rewrite E in Hp.
      assert (Hc : exists mc, c = VObj mc).
      { destruct p; cbn [deref] in Hd.
        - injection Hd as ->. now exists m.
        - destruct c as [| | | | | |mc]; try discriminate. now exists mc. }
      destruct Hc as [mc ->].
      pose proof (IH (VObj mc) m (k2 :: rest) Hd Hp) as Hp'.
      destruct (modify_at p (fun _ => VObj (Props.remove last m)) (VObj mc))
        as [| | | | | |m'] eqn:Em; try discriminate Hp'; exact Hp'.
    + now rewrite PropsFacts.lookup_replace_other.
Qed.

Lemma deleteSync_plain key db r db' keys :
  Db._deleteSync key db = (r, db') ->
  plain_path keys (_data db) = true ->
  plain_path keys (_data db') = true.
Proof.
  intros H Hp. apply deleteSync_cases in H
    as [[-> _]|(ks & m & _ & _ & Hd & _ & _ & ->)]; [exact Hp|].
  cbn [after_deleteSync _data]. now apply plain_path_after_delete.
Qed.

(* The sweep completes when the keys of the entries that the clock has
   reached have paths among maps. *)
Lemma cleanup_loop_completes now entries : forall changed db,
  (forall k e, In (k, e) entries -> e <= now ->
     exists ks, Db._resolvePath (separator db) k = Ok ks
                /\ plain_path ks (_data db) = true) ->
  exists c db', Db.cleanup_loop now entries changed db = (Ok c, db').
Proof.
  induction entries as [|[k0 e0] entries IH]; intros changed db Hall.
  - now exists changed, db.
  - cbn [Db.cleanup_loop]. destruct (Z.geb_spec now e0) as [Hge|Hlt].
    + destruct (Hall k0 e0 (or_introl eq_refl) ltac:(lia))
        as (ks0 & Hk0 & Hp0).
      destruct (@deleteSync_completes k0 ks0 db Hk0 Hp0) as (b & d1 & Hdel).
      unfold bind at 1. rewrite Hdel.
      unfold bind at 1, Db.delete_expiry, modify.
      apply IH. intros k e Hin He.
      destruct (Hall k e (or_intror Hin) He) as (ks & Hk & Hp).
      exists ks. cbn [separator _data with_expires].
      destruct (@deleteSync_keeps _ _ _ _ Hdel) as [Hs _].
      split; [now rewrite Hs|].
      now apply (@deleteSync_plain k0 db (Ok b) d1 ks Hdel).
    + apply IH. intros k e Hin He. apply (Hall k e); [now right|exact He].
Qed.

Lemma cleanup_completes now db :
  sweepable db now ->
  exists db', Db._cleanupExpiredSync now db = (Ok tt, db').
Proof.
  intros Hsw. unfold Db._cleanupExpiredSync, bind at 1, read.
  destruct (@cleanup_loop_completes now (_expires db) false db)
    as (c & d1 & H).
  { intros k e Hin He. destruct (Hsw k e Hin He) as (ks & Hk & _ & Hp).
    now exists ks. }
  unfold bind at 1. rewrite H. unfold Db._scheduleSave, ret.
  destruct c; [destruct (autoFile d1)|]; eexists; reflexivity.
Qed.

(* After a sweep that completed, get reads the tree. *)
Lemma get_after_sweep key keys now db :
  sweepable db now ->
  Db._resolvePath (separator db) key = Ok keys ->
  exists r db', Db.get key now db = (Ok r, db').
Proof.
  intros Hsw Hk. destruct (cleanup_completes Hsw) as [d0 H0].
  destruct (@cleanup_sweeps now db tt d0 H0) as (Hlive & Hsub & Hs & _).
  unfold Db.get, bind at 1. rewrite H0. unfold bind at 1, read.
  assert (Hl : Db._isExpired d0 key now = false).
  { unfold Db._isExpired.
    destruct (Props.lookup key (_expires d0)) as [e'|] eqn:El;
      [|reflexivity].
    apply lookup_In in El.
    pose proof (Hlive _ _ El e' (Hsub _ _ El)). lia. }
  rewrite Hl. rewrite (@getSync_eq key keys d0) by now rewrite Hs.
  now eexists _, _.
Qed.


Lemma lookup_expires_put key e m :
  key <> "__proto__" ->
  Props.lookup key (Db.expires_put key e m) = Some e.
Proof.
  intros Hne. unfold Db.expires_put.
  destruct (String.eqb_spec key "__proto__") as [->|_]; [congruence|].
  apply PropsFacts.lookup_set_same.
Qed.

(** X6. A [set] with a positive [ttlMs] that completes records the instant
    [now + ttlMs] for its key.  Once the clock has reached that instant, a
    [get] of the key that completes returns undefined, and it has removed
    the key from the expiry table and from the tree; it completes when the
    keys of the entries reached by then have paths among maps.  This is for
    a key other than "__proto__", with at least one segment, none of them a
    name that objects inherit, on a path that stays among maps; on a store
    without schema whose hooks return, the [set] does complete. *)
Theorem X6_ttl_expiry (db : DarkDB) (key : string) (v opts : value)
        (now t : Z) (keys : list string) :
  Db._resolvePath (separator db) key = Ok keys ->
  keys <> [] ->
  own_path keys = true ->
  plain_path keys (_data db) = true ->
  key <> "__proto__" ->
  Db.positive_ttl opts = Some t ->
  (schema db = None ->
   hooks_pass db "set" (Db.payload_key_value key v) ->
   exists db1, Db.set key v opts now db = (Ok v, db1))
  /\ (forall r db1,
        Db.set key v opts now db = (Ok r, db1) ->
        Props.lookup key (_expires db1) = Some (now + t)
        /\ (forall now' r' db2,
              now + t <= now' ->
              Db.get key now' db1 = (Ok r', db2) ->
              r' = VUndef
              /\ Props.lookup key (_expires db2) = None
              /\ Db._getSync key db2 = (Ok VUndef, db2))
        /\ (forall now',
              now + t <= now' ->
              sweepable db1 now' ->
              exists db2, Db.get key now' db1 = (Ok VUndef, db2))).
Proof.
  intros Hk Hne _ Hp Hproto Ht. split.
  - intros Hs Hh. now apply set_completes with (keys := keys).
  - intros r db1 H.
    assert (Hs : separator db1 = separator db)
      by (apply set_core in H as (_ & _ & _ & _ & _ & _ & Hs); exact Hs).
    assert (Hl : Props.lookup key (_expires db1) = Some (now + t)).
    { apply set_inv in H as (d2 & _ & ->). cbv zeta.
      cbn [_expires with_trace with_expires]. unfold expiry_after_set.
      rewrite Ht. now apply lookup_expires_put. }
    rewrite <- Hs in Hk.
    assert (Hget : forall now' r' db2,
               now + t <= now' ->
               Db.get key now' db1 = (Ok r', db2) ->
               r' = VUndef
               /\ Props.lookup key (_expires db2) = None
               /\ Db._getSync key db2 = (Ok VUndef, db2)).
    { intros now' r' db2 Hle Hget.
      destruct (@get_expired key keys (now + t) now' db1 r' db2
                  (lookup_In _ _ Hl) Hle Hk Hne Hget) as (Hr & Hl2 & Hg & _).
      now repeat split. }
    split; [exact Hl|]. split; [exact Hget|].
    intros now' Hle Hsw.
    destruct (@get_after_sweep key keys now' db1 Hsw Hk) as (r' & db2 & Hg).
    exists db2. now destruct (Hget now' r' db2 Hle Hg) as (-> & _).
Qed.


Lemma X6_witness :
  let db1 := Sample.with_session in
  Sample.outcome (Db.get "a" 9) db1 = Ok (VObj [("n", VNum 1)])
  /\ Sample.outcome (Db.get "a" 10) db1 = Ok VUndef
  /\ Props.lookup "a" (_expires (Sample.after (Db.get "a" 10) db1)) = None.
Proof.
  intros db1.
  assert (E : Db.set "a" (VObj [("n", VNum 1)]) (VObj [("ttlMs", VNum 10)]) 0
                     Sample.fresh
              = (Ok (VObj [("n", VNum 1)]), db1)) by (vm_compute; reflexivity).
  destruct (@X6_ttl_expiry Sample.fresh "a" (VObj [("n", VNum 1)])
              (VObj [("ttlMs", VNum 10)]) 0 10 ["a"] eq_refl
              ltac:(discriminate) eq_refl eq_refl ltac:(discriminate)
              eq_refl) as [_ H].
  destruct (H _ db1 E) as (_ & Hget & _).
  assert (Eg : Db.get "a" 10 db1
               = (Ok VUndef, Sample.after (Db.get "a" 10) db1))
    by (vm_compute; reflexivity).
  destruct (Hget 10 VUndef _ ltac:(lia) Eg) as (_ & Hl & _).
  split; [vm_compute; reflexivity|].
  split; [vm_compute; reflexivity|exact Hl].
Defined.


(** X7. When the keys of the entries that the clock has reached have paths
    among maps, without a name that objects inherit, [all] sweeps the
    expiry table: no entry that the clock has reached is left, the entries
    left were there before, the path of every key that had a reached entry
    is empty, what is returned is the JSON copy of the tree that is left,
    and a second [all] at the same instant changes nothing more. *)
Theorem X7_all_sweeps_expired (db : DarkDB) (now : Z) :
  sweepable db now ->
  exists db',
    Db.all now db = (JSON.clone (_data db'), db')
    /\ none_expired db' now
    /\ (forall k e, In (k, e) (_expires db') -> In (k, e) (_expires db))
    /\ (forall key keys e,
           In (key, e) (_expires db) -> e <= now ->
           Db._resolvePath (separator db) key = Ok keys -> keys <> [] ->
           Db.getSync_walk keys (_data db') = VUndef)
    /\ Db.all now db' = (JSON.clone (_data db'), db').
Proof.
  intros Hsw. destruct (cleanup_completes Hsw) as [d0 H0].
  destruct (@cleanup_sweeps now db tt d0 H0) as (Hlive & Hsub & _ & Hgone).
  assert (Hnone : none_expired d0 now).
  { intros k e Hin. apply (Hlive k e Hin e). now apply Hsub. }
  exists d0. split; [|split; [|split; [|split]]]; try assumption.
  - unfold Db.all, bind at 1. rewrite H0. reflexivity.
  - unfold Db.all, bind at 1. rewrite cleanup_idle by assumption.
    reflexivity.
Qed.


Lemma X7_witness :
  exists db',
    Db.all 20 Sample.with_session = (Ok (VObj []), db')
    /\ none_expired db' 20.
Proof.
  assert (Hsw : sweepable Sample.with_session 20).
  { intros k e Hin _. vm_compute in Hin.
    destruct Hin as [E|[]]. injection E as <- <-.
    exists ["a"]. repeat split. }
  destruct (@X7_all_sweeps_expired Sample.with_session 20 Hsw)
    as (db' & Hall & Hnone & _).
  exists db'. split; [|exact Hnone].
  rewrite Hall. f_equal.
  assert (E : Db.all 20 Sample.with_session
              = (Ok (VObj []), Sample.after (Db.all 20) Sample.with_session))
    by (vm_compute; reflexivity).
  rewrite E in Hall. now injection Hall as <- _.
Defined.

(** ** Hooks and schema *)

Lemma run_hooks_from_fail ph action payload (pre : list hook) (h : hook)
      (post : list hook) e : forall pos db,
  Forall (passes payload) pre ->
  h payload = Some e ->
  Db.run_hooks_from pos ph action payload (pre ++ h :: post) db
  = (Throw e,
     with_trace
       (trace db ++ hook_events ph action payload pos (S (List.length pre)))
       db).
Proof.
  unfold hook_events.
  induction pre as [|h0 pre IH]; intros pos db Hall Hh; simpl.
  - unfold bind, modify, throw. now rewrite Hh.
  - inversion Hall as [|? ? Hh0 Hrest]; subst. unfold passes in Hh0.
    unfold bind, modify. rewrite Hh0. rewrite IH by assumption.
    simpl. now rewrite <- app_assoc.
Qed.







(** X9. A hook registered before "set" or "delete" that throws stops the
    operation before it touches the store: the call throws what the hook
    threw, the hooks after it do not run, no event is emitted, and the tree,
    the expiry table and the index are as before. *)
Theorem X9_failing_pre_hook_aborts (db : DarkDB) (key : string)
        (pre post : list hook) (h : hook) (e : error) :
  (forall v opts now,
      schema db = None ->
      _hooks db Pre "set" = (pre ++ h :: post)%list ->
      Forall (passes (Db.payload_key_value key v)) pre ->
      h (Db.payload_key_value key v) = Some e ->
      Db.set key v opts now db
      = (Throw e,
         with_trace
           (trace db ++ hook_events Pre "set" (Db.payload_key_value key v) 0
                          (S (List.length pre))) db))
  /\ (_hooks db Pre "delete" = (pre ++ h :: post)%list ->
      Forall (passes (Db.payload_key key)) pre ->
      h (Db.payload_key key) = Some e ->
      Db.delete key db
      = (Throw e,
         with_trace
           (trace db ++ hook_events Pre "delete" (Db.payload_key key) 0
                          (S (List.length pre))) db)).
Proof.
  split.
  - intros v opts now Hs Hh Hall He. unfold Db.set.
    unfold bind at 1, Db._validateSchema. rewrite Hs.
    unfold bind at 1, Db._runHooks, bind at 1, read. rewrite Hh.
    now rewrite (@run_hooks_from_fail Pre "set" _ pre h post e 0%nat _
                   Hall He).
  - intros Hh Hall He. unfold Db.delete.
    unfold bind at 1, Db._runHooks, bind at 1, read. rewrite Hh.
    now rewrite (@run_hooks_from_fail Pre "delete" _ pre h post e 0%nat _
                   Hall He).
Qed.

Lemma X9_witness :
  let db := register Pre "set" (fun _ => Some (UserError "no"))
                     Sample.with_session in
  let call := Db.set "a" (VNum 2) Db.no_opts 5 db in
  fst call = Throw (UserError "no")
  /\ _data (snd call) = _data db /\ _expires (snd call) = _expires db.
Proof.
  intros db call.
  destruct (@X9_failing_pre_hook_aborts db "a" [] []
              (fun _ => Some (UserError "no")) (UserError "no")) as [H _].
  unfold call.
  rewrite (H (VNum 2) Db.no_opts 5 eq_refl eq_refl (Forall_nil _) eq_refl).
  now repeat split.
Defined.







(** X10. A hook registered after "set" that throws makes [set] throw, but
    the write is not undone: the value is in the tree at the key, the events
    were delivered, and the expiry table has the entry that the call was to
    leave.  This is for a key with at least one segment, none of them a name
    that objects inherit, on a path that stays among maps. *)
Theorem X10_failing_post_hook_keeps_write (db : DarkDB) (key : string)
        (v opts : value) (now : Z) (keys : list string)
        (pre post : list hook) (h : hook) (e : error) :
  let payload := Db.payload_key_value key v in
  schema db = None ->
  Forall (passes payload) (_hooks db Pre "set") ->
  _hooks db Post "set" = (pre ++ h :: post)%list ->
  Forall (passes payload) pre ->
  h payload = Some e ->
  Db._resolvePath (separator db) key = Ok keys ->
  keys <> [] ->
  own_path keys = true ->
  plain_path keys (_data db) = true ->
  exists db',
    Db.set key v opts now db = (Throw e, db')
    /\ Db._getSync key db' = (Ok v, db')
    /\ _expires db' = expiry_after_set key opts now (_expires db)
    /\ trace db'
       = (trace db
          ++ hook_events Pre "set" payload 0
               (List.length (_hooks db Pre "set"))
          ++ emit_events "set" payload (_data db')
          ++ save_events db
          ++ hook_events Post "set" payload 0 (S (List.length pre)))%list.
Proof.
  intros payload Hs Hpre Hpost Hall He Hk Hne _ Hp. subst payload.
  unfold Db.set. unfold bind at 1, Db._validateSchema. rewrite Hs.
  unfold bind at 1. rewrite runHooks_pass by exact Hpre.
  unfold bind at 1.
  match goal with |- context [Db._setSync key v ?d] => set (db1 := d) end.
  destruct (@setSync_completes key v keys db1 Hk Hp) as [d2 H2].
  rewrite H2.
  pose proof (@setSync_then_getSync key v keys db1 v d2 Hk Hne H2)
    as (_ & Hg & Hsep & Hexp).
  pose proof (@setSync_trace key v db1 v d2 H2) as (Htr & Hh & _).
  set (d3 := with_expires (expiry_after_set key opts now (_expires d2)) d2).
  assert (Hstep : (match Db.positive_ttl opts with
                   | Some t =>
                       modify (fun db0 =>
                         with_expires
                           (Db.expires_put key (now + t) (_expires db0)) db0)
                   | None => Db.delete_expiry key
                   end) d2 = (Ok tt, d3)).
  { unfold d3, expiry_after_set, Db.delete_expiry, modify.
    now destruct (Db.positive_ttl opts). }
  unfold bind at 1. rewrite Hstep.
  unfold bind at 1, Db._runHooks, bind at 1, read.
  assert (Hh3 : _hooks d3 Post "set" = (pre ++ h :: post)%list)
    by (unfold d3; cbn [_hooks with_expires]; now rewrite Hh).
  rewrite Hh3.
  rewrite (@run_hooks_from_fail Post "set" (Db.payload_key_value key v)
             pre h post e 0%nat d3 Hall He).
  eexists. split; [reflexivity|].
  cbn [_data _expires trace separator with_trace with_expires d3].
  unfold d3. cbn [_data _expires trace separator with_trace with_expires].
  split; [|split].
  - rewrite (@getSync_eq key keys); [|cbn; now rewrite Hsep].
    cbn [_data with_trace with_expires]. now rewrite Hg.
  - now rewrite Hexp.
  - rewrite Htr. unfold db1. cbn [trace with_trace save_events autoFile].
    unfold save_events. cbn [autoFile with_trace].
    now rewrite <- !app_assoc.
Qed.


Lemma X10_witness :
  let db := register Post "set" (fun _ => Some (UserError "late"))
                     Sample.fresh in
  let call := Db.set "a" (VNum 1) Db.no_opts 0 db in
  fst call = Throw (UserError "late")
  /\ Db._getSync "a" (snd call) = (Ok (VNum 1), snd call).
Proof.
  intros db call.
  destruct (@X10_failing_post_hook_keeps_write db "a" (VNum 1) Db.no_opts 0
              ["a"] [] [] (fun _ => Some (UserError "late"))
              (UserError "late") eq_refl (Forall_nil _) eq_refl
              (Forall_nil _) eq_refl eq_refl ltac:(discriminate) eq_refl
              eq_refl)
    as (db' & Hset & Hget & _).
  unfold call. rewrite Hset. cbn [fst snd]. now split.
Defined.

(** ** JSON copies *)



Lemma revive_defined v : v <> VUndef -> JSON.revive v <> VUndef.
Proof. destruct v; simpl; congruence. Qed.

(* A value without undefined is its own JSON copy. *)
Lemma revive_json v : json_value v = true -> JSON.revive v = v.
Proof.
  induction v as [| | | | |l IH|m IH] using value_induction;
    intros H; try reflexivity.
  - simpl in *. f_equal. induction l as [|x l IHl]; [reflexivity|].
    simpl in H. apply andb_prop in H as [Hx Hl].
    inversion IH as [|? ? Hx' Hl']; subst. simpl.
    rewrite IHl by assumption. rewrite (Hx' Hx).
    destruct x; try reflexivity. discriminate.
  - simpl in *. f_equal. induction m as [|[k x] m IHm]; [reflexivity|].
    simpl in H. apply andb_prop in H as [Hx Hm].
    inversion IH as [|? ? Hx' Hm']; subst. simpl in *.
    rewrite IHm by assumption. rewrite (Hx' Hx).
    destruct x; try reflexivity. discriminate.
Qed.

(* A JSON copy has no undefined inside. *)
Lemma revive_is_json v : v <> VUndef -> json_value (JSON.revive v) = true.
Proof.
  induction v as [| | | | |l IH|m IH] using value_induction;
    intros H; try reflexivity; [congruence| |].
  - simpl. clear H. induction l as [|x l IHl]; [reflexivity|].
    inversion IH as [|? ? Hx Hl]; subst. simpl.
    rewrite IHl by assumption. rewrite andb_true_r.
    destruct x; try reflexivity; apply Hx; discriminate.
  - simpl. clear H. induction m as [|[k x] m IHm]; [reflexivity|].
    inversion IH as [|? ? Hx Hm]; subst. simpl in *.
    destruct x; simpl; rewrite ?IHm by assumption;
      try reflexivity; try (rewrite andb_true_r; apply Hx; discriminate).
Qed.

Lemma revive_idem v : JSON.revive (JSON.revive v) = JSON.revive v.
Proof.
  destruct v; try reflexivity; apply revive_json, revive_is_json;
    discriminate.
Qed.

(** ** Transactions, in general *)

Lemma transaction_handle fn db snapshot :
  JSON.clone (_data db) = Ok snapshot ->
  Db.transaction fn db
  = match fn (tx_handle db snapshot) with
    | (Ok _, temp') =>
        (Ok true,
         mkDarkDB (separator db) (autoFile db) (schema db) (_hooks db)
                  (_data temp') (_expires temp')
                  (autoFile db || _saveTimer db)%bool
                  (rebuilt (separator db) (_data temp')
                           (_indexManager temp'))
                  (trace db ++ save_events db
                     ++ emit_events "reset" (Db.payload_reason "transaction")
                                    (_data temp')))
    | (Throw e, temp') =>
        (Throw e, with_data snapshot
                    (with_indexManager (_indexManager temp') db))
    | (Unsupported, _) => (Unsupported, db)
    end.
Proof.
  intros Hc. unfold Db.transaction. rewrite Hc. fold (tx_handle db snapshot).
  destruct (fn (tx_handle db snapshot)) as [[u|e|] temp']; try reflexivity.
  unfold Db._rebuildIndex, Db._scheduleSave, Db._emit, rebuilt,
    save_events, emit_events, bind, modify, ret, record, with_data,
    with_expires, with_indexManager, with_saveTimer.
  cbn [autoFile _data _expires _saveTimer _indexManager trace separator
       schema _hooks].
  destruct (autoFile db);
    cbn [autoFile _data _expires _saveTimer _indexManager trace separator
         schema _hooks orb];
    rewrite <- ?app_assoc, ?app_nil_r; reflexivity.
Qed.

Lemma clone_defined v : v <> VUndef -> JSON.clone v = Ok (JSON.revive v).
Proof. destruct v; simpl; congruence. Qed.

(** X11. A transaction that completes returns true; the store then has the
    tree and the expiry table that the body left in its handle, an index
    rebuilt from that tree, its own hooks and schema as before, and its
    trace has grown by the scheduled save and the "reset" and "change"
    events only: what the body did reached no hook and no listener of the
    store. *)
Theorem X11_transaction_commit (fn : M unit) (db : DarkDB) (b : bool)
        (db' : DarkDB) :
  Db.transaction fn db = (Ok b, db') ->
  exists u temp',
    fn (tx_handle db (JSON.revive (_data db))) = (Ok u, temp')
    /\ b = true
    /\ _data db' = _data temp'
    /\ _expires db' = _expires temp'
    /\ _indexManager db'
       = rebuilt (separator db) (_data temp') (_indexManager temp')
    /\ trace db'
       = (trace db ++ save_events db
            ++ emit_events "reset" (Db.payload_reason "transaction")
                           (_data temp'))%list
    /\ _hooks db' = _hooks db /\ schema db' = schema db.
Proof.
  intros H.
  destruct (JSON.clone (_data db)) as [snapshot| |] eqn:Hc;
    try (unfold Db.transaction in H; rewrite Hc in H; discriminate).
  assert (Hs : snapshot = JSON.revive (_data db)).
  { unfold JSON.clone in Hc.
    destruct (_data db); try discriminate; now injection Hc as <-. }
  subst snapshot. rewrite (transaction_handle fn db Hc) in H.
  destruct (fn (tx_handle db (JSON.revive (_data db))))
    as [[u|e|] temp']; try discriminate.
  injection H as <- <-. exists u, temp'. now repeat split.
Qed.

(** X12. A transaction whose body throws re-raises the error and leaves the
    store with the JSON copy of the tree taken before the body ran (the
    tree itself when it holds no undefined), with the expiry table, the
    trace and the save timer untouched; only the index is the one the body
    left. *)
Theorem X12_transaction_rollback (fn : M unit) (db : DarkDB) (e : error)
        (db' : DarkDB) :
  _data db <> VUndef ->
  Db.transaction fn db = (Throw e, db') ->
  exists temp',
    fn (tx_handle db (JSON.revive (_data db))) = (Throw e, temp')
    /\ _data db' = JSON.revive (_data db)
    /\ (json_value (_data db) = true -> _data db' = _data db)
    /\ _expires db' = _expires db
    /\ trace db' = trace db
    /\ _saveTimer db' = _saveTimer db
    /\ _indexManager db' = _indexManager temp'.
Proof.
  intros Hd H.
  rewrite (transaction_handle fn db (clone_defined Hd)) in H.
  destruct (fn (tx_handle db (JSON.revive (_data db))))
    as [[u|e0|] temp']; try discriminate.
  injection H as <- <-. exists temp'. repeat split.
  cbn [_data with_data]. apply revive_json.
Qed.

Lemma X12_witness :
  let call := Db.transaction Sample.failing_body Sample.with_session in
  fst call = Throw (UserError "boom")
  /\ _data (snd call) = _data Sample.with_session
  /\ _expires (snd call) = _expires Sample.with_session.
Proof.
  intros call.
  assert (E : Db.transaction Sample.failing_body Sample.with_session
              = (Throw (UserError "boom"), snd call))
    by (vm_compute; reflexivity).
  destruct (@X12_transaction_rollback Sample.failing_body Sample.with_session
              (UserError "boom") (snd call) ltac:(discriminate) E)
    as (temp' & _ & _ & Hd & He & _).
  split; [vm_compute; reflexivity|]. split; [|exact He].
  apply Hd. vm_compute. reflexivity.
Defined.

(* what a set that completed has stored *)
Lemma set_stores db key v opts now keys r db' :
  Db._resolvePath (separator db) key = Ok keys ->
  keys <> [] ->
  Db.set key v opts now db = (Ok r, db') ->
  r = v
  /\ Db._getSync key db' = (Ok v, db')
  /\ _expires db' = expiry_after_set key opts now (_expires db).
Proof.
  intros Hk Hne H. apply set_inv in H as (db2 & H2 & Hdb').
  cbv zeta in Hdb'.
  match type of H2 with
  | Db._setSync key v ?d = _ =>
      destruct (@setSync_then_getSync key v keys d r db2 Hk Hne H2)
        as (-> & Hg & Hsep & Hexp)
  end.
  cbn [separator _expires with_trace] in Hsep, Hexp.
  split; [reflexivity|]. split.
  - rewrite (@getSync_eq key keys db').
    + subst db'. cbn [_data with_trace with_expires]. now rewrite Hg.
    + subst db'. cbn [separator with_trace with_expires]. now rewrite Hsep.
  - subst db'. cbn [_expires with_trace with_expires]. now rewrite Hexp.
Qed.

(** X13. Writes made inside a transaction that commits become visible: for a
    body that is one [set], of a key with at least one segment, none of them
    a name that objects inherit, on a path that stays among maps, the
    transaction completes and the key then reads the value.  The hooks and
    the schema of the store play no part, and the listeners of the store are
    told "reset" and "change", not "set". *)
Theorem X13_transaction_set_commits (db : DarkDB) (key : string)
        (v opts : value) (now : Z) (keys : list string) :
  _data db <> VUndef ->
  Db._resolvePath (separator db) key = Ok keys ->
  keys <> [] ->
  own_path keys = true ->
  plain_path keys (JSON.revive (_data db)) = true ->
  exists db',
    Db.transaction (Db.set key v opts now;; ret tt) db = (Ok true, db')
    /\ Db._getSync key db' = (Ok v, db')
    /\ _expires db' = expiry_after_set key opts now (_expires db)
    /\ trace db'
       = (trace db ++ save_events db
            ++ emit_events "reset" (Db.payload_reason "transaction")
                           (_data db'))%list.
Proof.
  intros Hd Hk Hne _ Hp.
  set (temp := tx_handle db (JSON.revive (_data db))).
  assert (Hkt : Db._resolvePath (separator temp) key = Ok keys) by exact Hk.
  destruct (@set_completes temp key v opts now keys Hkt eq_refl
              (fun ph => Forall_nil _) Hp) as [temp' Hset].
  destruct (@set_stores temp key v opts now keys v temp' Hkt Hne Hset)
    as (_ & Hget & Hexp).
  exists (mkDarkDB (separator db) (autoFile db) (schema db) (_hooks db)
            (_data temp') (_expires temp')
            (autoFile db || _saveTimer db)%bool
            (rebuilt (separator db) (_data temp') (_indexManager temp'))
            (trace db ++ save_events db
               ++ emit_events "reset" (Db.payload_reason "transaction")
                              (_data temp'))).
  split; [|split; [|split]].
  - rewrite (transaction_handle _ db (clone_defined Hd)). fold temp.
    unfold bind at 1. now rewrite Hset.
  - rewrite (@getSync_eq key keys) by exact Hk. cbn [_data].
    rewrite (@getSync_eq key keys temp' ) in Hget.
    + now injection Hget as ->.
    + apply set_core in Hset as (_ & _ & _ & _ & _ & _ & Hs).
      now rewrite Hs.
  - exact Hexp.
  - reflexivity.
Qed.

Lemma X13_witness :
  let db := register Pre "set" (fun _ => Some (UserError "no")) Sample.fresh in
  exists db',
    Db.transaction (Db.set "balance" (VNum 100) Db.no_opts 0;; ret tt) db
    = (Ok true, db')
    /\ Db._getSync "balance" db' = (Ok (VNum 100), db').
Proof.
  intros db.
  destruct (@X13_transaction_set_commits db "balance" (VNum 100) Db.no_opts 0
              ["balance"] ltac:(discriminate) eq_refl ltac:(discriminate)
              eq_refl eq_refl) as (db' & H & Hget & _).
  exists db'. now split.
Defined.

Lemma X11_witness :
  let fn := (Db.set "balance" (VNum 100) Db.no_opts 0;; ret tt) in
  let db' := snd (Db.transaction fn Sample.fresh) in
  exists u temp',
    fn (tx_handle Sample.fresh (JSON.revive (_data Sample.fresh)))
    = (Ok u, temp')
    /\ _data db' = _data temp' /\ _expires db' = _expires temp'.
Proof.
  intros fn db'.
  assert (E : Db.transaction fn Sample.fresh = (Ok true, db'))
    by (vm_compute; reflexivity).
  destruct (@X11_transaction_commit fn Sample.fresh true db' E)
    as (u & temp' & Hfn & _ & Hd & He & _).
  exists u, temp'. now repeat split.
Defined.

(** ** import and export *)

Lemma reset_run reason data exp db :
  (modify (with_data data);;
   modify (with_expires exp);;
   Db._rebuildIndex;;
   Db._emit "reset" (Db.payload_reason reason);;
   Db._scheduleSave;;
   ret true)%store db
  = (Ok true,
     mkDarkDB (separator db) (autoFile db) (schema db) (_hooks db)
              data exp (autoFile db || _saveTimer db)%bool
              (rebuilt (separator db) data (_indexManager db))
              (trace db
                 ++ emit_events "reset" (Db.payload_reason reason) data
                 ++ save_events db)).
Proof.
  destruct db as [sep af sch hk dt ex st im tr].
  cbv [Db._rebuildIndex Db._scheduleSave Db._emit rebuilt save_events
       emit_events bind modify ret record with_data with_expires
       with_indexManager with_saveTimer autoFile _data _expires _saveTimer
       _indexManager trace separator schema _hooks].
  destruct af; cbv [orb]; rewrite <- ?app_assoc; reflexivity.
Qed.

Lemma import_run obj db :
  Db.is_container obj = true ->
  Db.import obj db
  = (Ok true,
     mkDarkDB (separator db) (autoFile db) (schema db) (_hooks db)
              (JSON.revive obj) [] (autoFile db || _saveTimer db)%bool
              (rebuilt (separator db) (JSON.revive obj) (_indexManager db))
              (trace db
                 ++ emit_events "reset" (Db.payload_reason "import")
                                (JSON.revive obj)
                 ++ save_events db)).
Proof.
  unfold Db.is_container. intros H. apply andb_prop in H as [Ht Ho].
  assert (Hd : obj <> VUndef) by (intros ->; discriminate).
  unfold Db.import. rewrite Ht, Ho. cbn [negb orb].
  unfold bind at 1, lift. rewrite (clone_defined Hd).
  apply reset_run.
Qed.

(** X14. [import] refuses what is not an object (null included) and leaves
    the store as it is.  Given an object, it replaces the tree by the JSON
    copy of the object, empties the expiry table and rebuilds the index from
    the new tree; [export] then returns that copy, which holds no undefined
    and is the object itself when the object held none. *)
Theorem X14_import_export (obj : value) (db : DarkDB) :
  (Db.is_container obj = false ->
   Db.import obj db = (Throw ImportExpectsObject, db))
  /\ (Db.is_container obj = true ->
      exists db',
        Db.import obj db = (Ok true, db')
        /\ _data db' = JSON.revive obj
        /\ _expires db' = []
        /\ _indexManager db'
           = rebuilt (separator db) (JSON.revive obj) (_indexManager db)
        /\ Db.export db' = (Ok (JSON.revive obj), db')
        /\ json_value (JSON.revive obj) = true
        /\ (json_value obj = true -> Db.export db' = (Ok obj, db'))).
Proof.
  split.
  - unfold Db.is_container. intros H. unfold Db.import.
    destruct (Value.truthy obj); destruct (Value.is_object_type obj);
      try discriminate; reflexivity.
  - intros H. pose proof (@import_run obj db H) as Hi.
    assert (Hd : obj <> VUndef) by (intros ->; discriminate).
    match type of Hi with _ = (_, ?d) => set (db' := d) in * end.
    assert (Hx : Db.export db' = (Ok (JSON.revive obj), db')).
    { unfold Db.export, bind, read, lift.
      replace (_data db') with (JSON.revive obj) by reflexivity.
      rewrite clone_defined by now apply revive_defined.
      now rewrite revive_idem. }
    exists db'. split; [exact Hi|]. split; [reflexivity|].
    split; [reflexivity|]. split; [reflexivity|]. split; [exact Hx|].
    split; [now apply revive_is_json|].
    intros Hj. rewrite Hx. now rewrite revive_json.
Qed.

Lemma X14_witness :
  let obj := VObj [("a", VNum 1); ("b", VArr [VStr "x"])] in
  exists db',
    Db.import obj Sample.with_session = (Ok true, db')
    /\ Db.export db' = (Ok obj, db') /\ _expires db' = [].
Proof.
  intros obj.
  destruct (@X14_import_export obj Sample.with_session) as [_ H].
  destruct (H eq_refl) as (db' & Hi & _ & He & _ & _ & _ & Hx).
  exists db'. split; [exact Hi|]. split; [now apply Hx|exact He].
Defined.


Lemma numOp_run key n op keys db :
  Db._resolvePath (separator db) key = Ok keys ->
  keys <> [] ->
  plain_path keys (_data db) = true ->
  let base := base_of (Db.getSync_walk keys (_data db)) in
  Value.safe_integer base = true ->
  Value.safe_integer n = true ->
  Value.safe_integer (op base n) = true ->
  exists db',
    Db._numOp key n op db = (Ok (VNum (op base n)), db')
    /\ Db._getSync key db' = (Ok (VNum (op base n)), db').
Proof.
  intros Hk Hne Hp base Hb Hn Hr. unfold Db._numOp, bind at 1.
  rewrite (@getSync_eq key keys db Hk).
  fold (base_of (Db.getSync_walk keys (_data db))). fold base.
  rewrite Hb, Hn, Hr. cbn [andb].
  destruct (@setSync_completes key (VNum (op base n)) keys db Hk Hp)
    as [db' Hset].
  exists db'. unfold bind at 1. rewrite Hset. split; [reflexivity|].
  now destruct (@setSync_effects key _ keys db _ db' Hk Hne Hset)
    as (_ & Hg & _).
Qed.

(** X15. The numeric helpers read the key, take the number found there, or
    zero when the key holds anything else or nothing, apply the delta, store
    the result at the key and return it: [add] and [incr] add, [remove] and
    [decr] subtract; the delta of [add] and [remove] is their argument read
    as a number, zero for undefined and null.  This is for integers that a
    double holds exactly, the result included, and for a key with at least
    one segment, none of them a name that objects inherit, on a path that
    stays among maps. *)
Theorem X15_numeric_helpers (db : DarkDB) (key : string) (n : value) (d : Z)
        (keys : list string) :
  Db._resolvePath (separator db) key = Ok keys ->
  keys <> [] ->
  own_path keys = true ->
  plain_path keys (_data db) = true ->
  Db.delta n = Ok d ->
  let base := base_of (Db.getSync_walk keys (_data db)) in
  Value.safe_integer base = true ->
  Value.safe_integer d = true ->
  (Value.safe_integer (base + d) = true ->
   exists db',
     Db.add key n db = (Ok (VNum (base + d)), db')
     /\ Db._getSync key db' = (Ok (VNum (base + d)), db'))
  /\ (Value.safe_integer (base - d) = true ->
      exists db',
        Db.remove key n db = (Ok (VNum (base - d)), db')
        /\ Db._getSync key db' = (Ok (VNum (base - d)), db'))
  /\ (Value.safe_integer (base + 1) = true ->
      exists db',
        Db.incr key db = (Ok (VNum (base + 1)), db')
        /\ Db._getSync key db' = (Ok (VNum (base + 1)), db'))
  /\ (Value.safe_integer (base - 1) = true ->
      exists db',
        Db.decr key db = (Ok (VNum (base - 1)), db')
        /\ Db._getSync key db' = (Ok (VNum (base - 1)), db')).
Proof.
  intros Hk Hne _ Hp Hd base Hb Hsd.
  unfold Db.add, Db.remove, Db.incr, Db.decr, bind, lift. rewrite Hd.
  split; [|split; [|split]]; intros Hr.
  - now apply (@numOp_run key d Z.add keys db Hk Hne Hp Hb Hsd).
  - now apply (@numOp_run key d Z.sub keys db Hk Hne Hp Hb Hsd).
  - now apply (@numOp_run key 1 Z.add keys db Hk Hne Hp Hb).
  - now apply (@numOp_run key 1 Z.sub keys db Hk Hne Hp Hb).
Qed.


Lemma X15_witness :
  let db := Sample.after (Db.set "balance" (VNum 100) Db.no_opts 0)
                         Sample.fresh in
  exists db',
    Db.remove "balance" (VNum 30) db = (Ok (VNum 70), db')
    /\ Db._getSync "balance" db' = (Ok (VNum 70), db').
Proof.
  intros db.
  assert (Ek : Db._resolvePath (separator db) "balance" = Ok ["balance"])
    by (vm_compute; reflexivity).
  assert (Ep : plain_path ["balance"] (_data db) = true)
    by (vm_compute; reflexivity).
  assert (Eb : base_of (Db.getSync_walk ["balance"] (_data db)) = 100)
    by (vm_compute; reflexivity).
  pose proof (@X15_numeric_helpers db "balance" (VNum 30) 30 ["balance"] Ek
                ltac:(discriminate) eq_refl Ep eq_refl) as H.
  cbv zeta in H. rewrite Eb in H.
  destruct (H eq_refl eq_refl) as (_ & Hrem & _).
  exact (Hrem eq_refl).
Defined.

(** ** Pages of a query *)



Section QueryPages.

Variable coerce_rel : value -> value -> option bool.
Variable regexp_test : value -> value -> result bool.
Variable string_includes : string -> value -> result bool.



End QueryPages.


(** ** Listing after a write *)


(** X17. After a [set] that completes, the last segment of the key is an own
    property of its parent container, holding the value: [entries] of the
    parent pairs it with the value, and [keys] and [values] are the two
    columns of [entries].  For a key made of separators only the segment is
    "undefined", in the root.  This is for a key none of whose segments is a
    name that objects inherit, on a path that stays among maps; on a store
    without schema whose hooks return, the [set] does complete. *)
Theorem X17_set_lists_key (db : DarkDB) (key : string) (v opts : value)
        (now : Z) (keys : list string) (keyPrefix : string) :
  Db._resolvePath (separator db) key = Ok keys ->
  own_path keys = true ->
  plain_path keys (_data db) = true ->
  names_parent (separator db) keyPrefix keys ->
  (schema db = None ->
   hooks_pass db "set" (Db.payload_key_value key v) ->
   exists db', Db.set key v opts now db = (Ok v, db'))
  /\ (forall r db',
        Db.set key v opts now db = (Ok r, db') ->
        exists es,
          Db.entries keyPrefix db' = (Ok es, db')
          /\ Props.lookup (Db.last_key keys) es = Some v
          /\ Db.keys keyPrefix db' = (Ok (map fst es), db')
          /\ Db.values keyPrefix db' = (Ok (map snd es), db')
          /\ In (Db.last_key keys) (map fst es)
          /\ In v (map snd es)).
Proof.
  intros Hk _ Hplain Hpar. split.
  { intros Hs Hh. now apply set_completes with (keys := keys). }
  intros r db' H.
  destruct (@set_core key v opts now db r db' H) as (d1 & d2 & Hd1 & Hs1 & H2 & Hd' & Hs').
  apply setSync_inv in H2 as (ks & t & m & Hk2 & Hw & Hder & _ & ->).
  rewrite Hs1, Hk in Hk2. injection Hk2 as <-.
  set (es := Props.set (Db.last_key keys) v m).
  assert (Hdata : deref (removelast keys) (_data db') = Some (VObj es)).
  { rewrite Hd'. cbn [_data after_setSync].
    apply (@deref_modify (fun _ => VObj es) _ _ _ Hder). }
  assert (Hroot : Db.root_of keyPrefix db' = (Ok (VObj es), db')).
  { unfold Db.root_of. destruct Hpar as [[-> Hnil]|Hp].
    - cbn [Text.nonempty]. rewrite Hnil in Hdata. cbn [deref] in Hdata.
      injection Hdata as Hdata. unfold read. now rewrite Hdata.
    - destruct (Text.nonempty keyPrefix) eqn:En.
      + rewrite (@getSync_eq keyPrefix (removelast keys) db')
          by (now rewrite Hs').
        now rewrite (@deref_read _ _ _ Hdata).
      + unfold Db._resolvePath in Hp. rewrite En in Hp. discriminate. }
  assert (Hl : Props.lookup (Db.last_key keys) es = Some v)
    by apply PropsFacts.lookup_set_same.
  exists es.
  unfold Db.entries, Db.keys, Db.values, bind. rewrite Hroot.
  cbn [Db.is_container Value.truthy Value.is_object_type andb
       Value.own_entries]. unfold ret.
  repeat split; try assumption.
  - apply lookup_In in Hl. now apply (in_map fst) in Hl.
  - apply lookup_In in Hl. now apply (in_map snd) in Hl.
Qed.


Lemma X17_witness :
  exists es,
    Db.entries "user"
      (Sample.after (Db.set "user.name" (VStr "Ann") Db.no_opts 0)
                    Sample.with_session)
    = (Ok es,
       Sample.after (Db.set "user.name" (VStr "Ann") Db.no_opts 0)
                    Sample.with_session)
    /\ Props.lookup "name" es = Some (VStr "Ann").
Proof.
  assert (E : Db.set "user.name" (VStr "Ann") Db.no_opts 0 Sample.with_session
              = (Ok (VStr "Ann"),
                 Sample.after (Db.set "user.name" (VStr "Ann") Db.no_opts 0)
                              Sample.with_session))
    by (vm_compute; reflexivity).
  assert (Ep : plain_path ["user"; "name"] (_data Sample.with_session) = true)
    by (vm_compute; reflexivity).
  destruct (@X17_set_lists_key Sample.with_session "user.name" (VStr "Ann")
              Db.no_opts 0 ["user"; "name"] "user" eq_refl eq_refl Ep
              (or_intror eq_refl)) as [_ H].
  destruct (H _ _ E) as (es & He & Hl & _).
  exists es. now split.
Defined.

(** ** Expiry by hand *)

(** X18. [expire] completes for every key and every argument: it looks at
    neither the key nor the tree, and changes neither the tree nor the
    index.  With a number above zero the key, when it is not "__proto__",
    then has that much time to live, counted from the call; with anything
    else it has no expiry, and [ttl] answers -1.  The time to live never
    goes below zero, and the other keys keep their expiry. *)
Theorem X18_expire_then_ttl (key : string) (ttlMs : value) (now now' : Z)
        (db : DarkDB) :
  key <> "__proto__" ->
  exists db',
    Db.expire key ttlMs now db = (Ok true, db')
    /\ _data db' = _data db
    /\ _indexManager db' = _indexManager db
    /\ Db.ttl key now' db' = (Ok (remaining ttlMs now now'), db')
    /\ (forall k, k <> key -> Db.ttl k now' db' = (fst (Db.ttl k now' db), db')).
Proof.
  intros Hproto.
  assert (Hset : forall t, exists db',
    ((modify (fun db => with_expires (Db.expires_put key (now + t) (_expires db)) db);;
      Db._scheduleSave;; ret true)%store db = (Ok true, db'))
    /\ _data db' = _data db /\ _indexManager db' = _indexManager db
    /\ _expires db' = Db.expires_put key (now + t) (_expires db)).
  { intros t. unfold bind, modify, Db._scheduleSave, ret.
    cbn [autoFile with_expires].
    destruct (autoFile db); eexists; repeat split. }
  assert (Hdel : exists db',
    ((Db.delete_expiry key;; Db._scheduleSave;; ret true)%store db
     = (Ok true, db'))
    /\ _data db' = _data db /\ _indexManager db' = _indexManager db
    /\ _expires db' = Props.remove key (_expires db)).
  { unfold bind, Db.delete_expiry, modify, Db._scheduleSave, ret.
    cbn [autoFile with_expires].
    destruct (autoFile db); eexists; repeat split. }
  assert (Hcases : exists db',
    Db.expire key ttlMs now db = (Ok true, db')
    /\ _data db' = _data db /\ _indexManager db' = _indexManager db
    /\ ((exists t, ttlMs = VNum t /\ (t >? 0) = true
                   /\ _expires db' = Db.expires_put key (now + t) (_expires db))
        \/ (remaining ttlMs now now' = -1
            /\ _expires db' = Props.remove key (_expires db)))).
  { unfold Db.expire, remaining.
    destruct ttlMs as [| | |t| | |];
      try (destruct Hdel as (db' & H & Hd & Hi & He); exists db';
           repeat split; try assumption; right; now split).
    destruct (t >? 0) eqn:Et.
    - destruct (Hset t) as (db' & H & Hd & Hi & He); exists db'.
      repeat split; try assumption. left. now exists t.
    - destruct Hdel as (db' & H & Hd & Hi & He); exists db'.
      repeat split; try assumption. right. now split. }
  destruct Hcases as (db' & H & Hd & Hi & He).
  exists db'. split; [exact H|]. split; [exact Hd|]. split; [exact Hi|].
  unfold Db.ttl, bind, read, ret. split.
  - destruct He as [(t & -> & Et & ->)|[Hr ->]].
    + rewrite lookup_expires_put by exact Hproto.
      unfold remaining. now rewrite Et.
    + rewrite PropsFacts.lookup_remove_same. now rewrite Hr.
  - intros k Hne.
    assert (El : Props.lookup k (_expires db') = Props.lookup k (_expires db)).
    { destruct He as [(t & _ & _ & ->)|[_ ->]].
      - unfold Db.expires_put.
        destruct (String.eqb key "__proto__" && negb (Props.has key (_expires db)))%bool;
          [reflexivity|now apply PropsFacts.lookup_set_other].
      - now apply PropsFacts.lookup_remove_other. }
    rewrite El. now destruct (Props.lookup k (_expires db)).
Qed.

Lemma X18_witness :
  exists db',
    Db.expire "session" (VNum 10) 0 Sample.fresh = (Ok true, db')
    /\ Db.ttl "session" 4 db' = (Ok 6, db')
    /\ Db.ttl "other" 4 db' = (Ok (-1), db').
Proof.
  destruct (@X18_expire_then_ttl "session" (VNum 10) 0 4 Sample.fresh
              ltac:(discriminate))
    as (db' & He & _ & _ & Ht & Ho).
  exists db'. split; [exact He|]. split; [exact Ht|].
  apply (Ho "other"). discriminate.
Defined.

(** ** An expiry under the empty key *)

Lemma deleteSync_empty_key db :
  Db._deleteSync EmptyString db = (Throw InvalidKey, db).
Proof. reflexivity. Qed.

Lemma In_remove_other {A} k k' (x : A) m :
  k' <> k -> In (k', x) m -> In (k', x) (Props.remove k m).
Proof.
  intros Hne. induction m as [|[k0 v0] m IH]; simpl; [tauto|].
  intros [E|Hin].
  - injection E as -> ->.
    destruct (String.eqb k' k) eqn:Ek; [|now left].
    apply String.eqb_eq in Ek. contradiction.
  - destruct (String.eqb k0 k); [now apply IH|right; now apply IH].
Qed.

Lemma cleanup_loop_stuck e now entries : forall changed db o db',
  e <= now ->
  In (EmptyString, e) entries ->
  In (EmptyString, e) (_expires db) ->
  Db.cleanup_loop now entries changed db = (o, db') ->
  fails o /\ In (EmptyString, e) (_expires db').
Proof.
  induction entries as [|[k0 e0] entries IH];
    intros changed db o db' He Hin Hdb H; [destruct Hin|].
  cbn [Db.cleanup_loop] in H.
  destruct (Z.geb_spec now e0) as [Hge|Hlt].
  - unfold bind at 1 in H.
    destruct (Db._deleteSync k0 db) as [[b| |] d1] eqn:Hdel.
    + assert (Hk0 : k0 <> EmptyString).
      { intros ->. rewrite deleteSync_empty_key in Hdel. discriminate. }
      apply deleteSync_expires in Hdel.
      unfold bind at 1, Db.delete_expiry, modify in H.
      apply IH in H; try assumption.
      * destruct Hin as [E|Hin]; [|assumption].
        injection E as -> _. contradiction.
      * cbn [_expires with_expires]. rewrite Hdel.
        apply In_remove_other; [congruence|assumption].
    + apply deleteSync_expires in Hdel. injection H as <- <-.
      split; [intros a; discriminate|now rewrite Hdel].
    + apply deleteSync_expires in Hdel. injection H as <- <-.
      split; [intros a; discriminate|now rewrite Hdel].
  - apply IH in H; try assumption.
    destruct Hin as [E|Hin]; [|assumption].
    injection E as _ ->. lia.
Qed.

Lemma cleanup_stuck e now db :
  e <= now ->
  In (EmptyString, e) (_expires db) ->
  exists (o : result unit) db',
    Db._cleanupExpiredSync now db = (o, db')
    /\ fails o /\ In (EmptyString, e) (_expires db').
Proof.
  intros He Hin. unfold Db._cleanupExpiredSync, bind at 1, read.
  unfold bind at 1.
  destruct (Db.cleanup_loop now (_expires db) false db) as [o d1] eqn:Hc.
  destruct (@cleanup_loop_stuck e now (_expires db) false db o d1 He Hin Hin Hc)
    as [Hf Hin1].
  destruct o as [b| |]; [now destruct (Hf b)| |].
  - exists (Throw e0), d1. repeat split; [intros a; discriminate|assumption].
  - exists Unsupported, d1. repeat split; [intros a; discriminate|assumption].
Qed.

(** X19. [expire] takes the empty key like any other, although no other
    operation does.  Once the clock has reached an expiry stored under the
    empty key, the sweep that opens [get] and [all] stops at it, before it
    removes the entry: from then on no [get], [has] or [all] completes,
    whatever the key, and the entry is still in the table afterwards. *)
Theorem X19_expired_empty_key_blocks_reads (db : DarkDB) (e now : Z) :
  In (EmptyString, e) (_expires db) ->
  e <= now ->
  (forall key, exists o db',
      Db.get key now db = (o, db')
      /\ fails o /\ In (EmptyString, e) (_expires db'))
  /\ (forall key, exists o db',
      Db.has key now db = (o, db')
      /\ fails o /\ In (EmptyString, e) (_expires db'))
  /\ (exists o db',
      Db.all now db = (o, db')
      /\ fails o /\ In (EmptyString, e) (_expires db')).
Proof.
  intros Hin He.
  destruct (@cleanup_stuck e now db He Hin) as (o & d1 & Hc & Hf & Hin1).
  assert (Hget : forall key, exists o db',
             Db.get key now db = (o, db')
             /\ fails o /\ In (EmptyString, e) (_expires db')).
  { intros key. unfold Db.get, bind at 1. rewrite Hc.
    destruct o as [u| |]; [now destruct (Hf u)| |].
    - exists (Throw e0), d1. repeat split; [intros a; discriminate|assumption].
    - exists Unsupported, d1.
      repeat split; [intros a; discriminate|assumption]. }
  split; [exact Hget|]. split.
  - intros key. destruct (Hget key) as (o' & d' & Hg & Hf' & Hin').
    unfold Db.has, bind at 1. rewrite Hg.
    destruct o' as [v| |]; [now destruct (Hf' v)| |].
    + exists (Throw e0), d'. repeat split; [intros a; discriminate|assumption].
    + exists Unsupported, d'.
      repeat split; [intros a; discriminate|assumption].
  - unfold Db.all, bind at 1. rewrite Hc.
    destruct o as [u| |]; [now destruct (Hf u)| |].
    + exists (Throw e0), d1. repeat split; [intros a; discriminate|assumption].
    + exists Unsupported, d1.
      repeat split; [intros a; discriminate|assumption].
Qed.

Lemma X19_witness :
  let db := Sample.after (Db.expire EmptyString (VNum 10) 0)
              (Sample.after (Db.set "a" (VNum 1) Db.no_opts 0) Sample.fresh) in
  Sample.outcome (Db.get "a" 5) db = Ok (VNum 1)
  /\ exists o db', Db.get "a" 10 db = (o, db') /\ fails o.
Proof.
  intros db. split; [vm_compute; reflexivity|].
  assert (Hin : In (EmptyString, 10) (_expires db))
    by (vm_compute; left; reflexivity).
  destruct (@X19_expired_empty_key_blocks_reads db 10 10 Hin ltac:(lia))
    as (Hget & _).
  destruct (Hget "a") as (o & db' & Hg & Hf & _).
  exists o, db'. split; [exact Hg|exact Hf].
Defined.

(** ** The task queue *)

Module MutexFacts.

Import Mutex.

Lemma step_consistent ev s s' sub :
  consistent s sub ->
  step ev s = Some s' ->
  consistent s' (sub ++ submitted [ev]).
Proof.
  intros (Ha & Hs & Hq) H. destruct s as [[q l] a st].
  cbn [mutex active started queue locked] in *.
  destruct ev as [task|]; cbn [step submitted] in H.
  - injection H as <-. unfold run, invoked.
    cbn [mutex active started queue locked negb].
    destruct l; cbn [negb].
    + cbn [snd fst]. unfold consistent.
      cbn [mutex active started queue locked].
      split; [assumption|]. split; [|discriminate].
      now rewrite app_assoc, Hs.
    + rewrite (Hq eq_refl) in *. cbn [app _next queue snd fst].
      unfold consistent. cbn [mutex active started queue locked].
      split; [now rewrite Ha|]. split; [|discriminate].
      rewrite app_nil_r in *. now rewrite Hs.
  - cbn [mutex active] in H. destruct a as [|n]; [discriminate|].
    injection H as <-. destruct l; [|discriminate].
    injection Ha as ->. unfold _next, invoked. cbn [queue].
    cbn [submitted]. rewrite app_nil_r.
    destruct q as [|task rest]; cbn [snd fst]; unfold consistent;
      cbn [mutex active started queue locked].
    + now repeat split.
    + split; [reflexivity|]. split; [|discriminate].
      now rewrite <- app_assoc.
Qed.

Lemma submitted_app evs evs' :
  submitted (evs ++ evs') = (submitted evs ++ submitted evs')%list.
Proof.
  induction evs as [|[task|] evs IH]; simpl; [reflexivity| |assumption].
  now rewrite IH.
Qed.

Lemma exec_consistent evs : forall s s' sub,
  consistent s sub ->
  exec evs s = Some s' ->
  consistent s' (sub ++ submitted evs).
Proof.
  induction evs as [|ev evs IH]; intros s s' sub Hc H.
  - injection H as <-. cbn [submitted]. now rewrite app_nil_r.
  - cbn [exec] in H. destruct (step ev s) as [s1|] eqn:Hs; [|discriminate].
    change (ev :: evs) with ([ev] ++ evs)%list.
    rewrite submitted_app, app_assoc.
    eapply IH; [|exact H]. eapply step_consistent; eassumption.
Qed.

End MutexFacts.

(** X20. The task queue runs one task at a time, in the order of
    submission, and loses none.  After any sequence of submissions and
    settlements from the empty queue: at most one invoked task has not
    settled, exactly when the queue is locked; the tasks invoked so far
    followed by the tasks still waiting are the tasks submitted, in order;
    and no task waits while the queue is unlocked. *)
Theorem X20_mutex_serialises (evs : list Mutex.event) (s : Mutex.system) :
  Mutex.exec evs Mutex.initial = Some s ->
  (Mutex.active s <= 1)%nat
  /\ (Mutex.locked (Mutex.mutex s) = true <-> Mutex.active s = 1%nat)
  /\ (Mutex.started s ++ Mutex.queue (Mutex.mutex s))%list
     = Mutex.submitted evs
  /\ (Mutex.locked (Mutex.mutex s) = false -> Mutex.queue (Mutex.mutex s) = []).
Proof.
  intros H.
  assert (H0 : Mutex.consistent Mutex.initial []) by now repeat split.
  destruct (@MutexFacts.exec_consistent evs _ _ _ H0 H) as (Ha & Hs & Hq).
  cbn [app] in Hs. rewrite Ha.
  destruct (Mutex.locked (Mutex.mutex s)); repeat split;
    try assumption; try lia; try discriminate; auto.
Qed.

Lemma X20_witness :
  exists s,
    Mutex.exec [Mutex.Run 1; Mutex.Run 2; Mutex.Run 3; Mutex.Settled]
               Mutex.initial = Some s
    /\ Mutex.started s = [1; 2]%nat
    /\ Mutex.queue (Mutex.mutex s) = [3%nat]
    /\ (Mutex.active s <= 1)%nat.
Proof.
  eexists. split; [reflexivity|].
  split; [reflexivity|]. split; [reflexivity|].
  apply (@X20_mutex_serialises
           [Mutex.Run 1; Mutex.Run 2; Mutex.Run 3; Mutex.Settled] _ eq_refl).
Defined.

(** ** Keys and paths *)

Lemma append_empty s : (s ++ EmptyString)%string = s.
Proof. induction s as [|a s IH]; simpl; [reflexivity|now rewrite IH]. Qed.

Lemma append_assoc s1 s2 s3 :
  ((s1 ++ s2) ++ s3)%string = (s1 ++ (s2 ++ s3))%string.
Proof. induction s1 as [|a s1 IH]; simpl; [reflexivity|now rewrite IH]. Qed.

Lemma split_go_segment c seg : forall cur rest,
  free_of c seg = true ->
  Text.split_go (String c EmptyString) 0 cur (seg ++ rest)%string
  = Text.split_go (String c EmptyString) 0 (cur ++ seg)%string rest.
Proof.
  induction seg as [|a seg IH]; intros cur rest Hf.
  - now rewrite append_empty.
  - cbn [free_of] in Hf. apply andb_prop in Hf as [Ha Hf].
    apply negb_true_iff, Ascii.eqb_neq in Ha.
    cbn [append Text.split_go String.prefix].
    destruct (ascii_dec c a) as [E|_]; [congruence|].
    rewrite (IH _ _ Hf). unfold Text.snoc. now rewrite append_assoc.
Qed.

Lemma split_go_separator c cur rest :
  Text.split_go (String c EmptyString) 0 cur (String c rest)
  = cur :: Text.split_go (String c EmptyString) 0 EmptyString rest.
Proof.
  cbn [Text.split_go String.prefix].
  destruct (ascii_dec c c) as [_|N]; [|congruence].
  destruct rest; reflexivity.
Qed.

Lemma split_go_concat c : forall segs cur,
  forallb (free_of c) segs = true ->
  segs <> [] ->
  Text.split_go (String c EmptyString) 0 cur
                (String.concat (String c EmptyString) segs)
  = (cur ++ hd EmptyString segs)%string :: tl segs.
Proof.
  induction segs as [|s [|s2 rest] IH]; intros cur Hf Hne; [congruence| |].
  - cbn [forallb] in Hf. apply andb_prop in Hf as [Hs _].
    cbn [String.concat hd tl].
    pose proof (@split_go_segment c s cur EmptyString Hs) as E.
    rewrite append_empty in E. rewrite E. reflexivity.
  - cbn [forallb] in Hf. apply andb_prop in Hf as [Hs Hf].
    change (String.concat (String c EmptyString) (s :: s2 :: rest))
      with (s ++ String c (String.concat (String c EmptyString) (s2 :: rest)))%string.
    rewrite (@split_go_segment c s cur _ Hs), split_go_separator.
    rewrite (IH EmptyString Hf) by discriminate. reflexivity.
Qed.

(** X21. With a separator of one character, a key is read as its pieces
    between separators, the empty pieces dropped: the key made by joining
    any pieces that are free of the separator resolves to those of them that
    are not empty.  So a separator at the start or at the end of a key, or
    one that follows another, changes nothing, and keys that differ only in
    such separators name the same path. *)
Theorem X21_resolvePath_join (c : ascii) (segs : list string) :
  forallb (free_of c) segs = true ->
  Text.nonempty (String.concat (String c EmptyString) segs) = true ->
  Db._resolvePath (String c EmptyString)
                  (String.concat (String c EmptyString) segs)
  = Ok (List.filter Text.nonempty segs).
Proof.
  intros Hf Hne. unfold Db._resolvePath. rewrite Hne.
  destruct segs as [|s rest]; [discriminate|].
  unfold Text.split. rewrite split_go_concat by (assumption || discriminate).
  reflexivity.
Qed.

Lemma X21_witness :
  Db._resolvePath "." ".user..name." = Ok ["user"; "name"]
  /\ Db._resolvePath "." "user.name" = Ok ["user"; "name"].
Proof.
  split.
  - apply (@X21_resolvePath_join "."%char [""; "user"; ""; "name"; ""]);
      reflexivity.
  - vm_compute; reflexivity.
Defined.

(** ** Emptying the store *)

Lemma deleteAll_run db :
  Db.deleteAll db
  = (Ok true,
     mkDarkDB (separator db) (autoFile db) (schema db) (_hooks db)
              (VObj []) [] (autoFile db || _saveTimer db)%bool
              (IndexManager.clear (_indexManager db))
              (trace db ++ emit_events "reset" (VObj []) (VObj [])
                     ++ save_events db)).
Proof.
  destruct db as [sep af sch hk dt ex st im tr].
  cbv [Db.deleteAll Db._scheduleSave Db._emit save_events
       emit_events bind modify ret record with_data with_expires
       with_indexManager with_saveTimer autoFile _data _expires _saveTimer
       _indexManager trace separator schema _hooks].
  destruct af; cbv [orb]; rewrite <- ?app_assoc; reflexivity.
Qed.

(** X22. [deleteAll] completes on every store and leaves nothing behind:
    afterwards [all] is the empty map, every key none of whose segments is
    a name that objects inherit reads undefined, no key has an expiry, and
    every search is empty.  Hooks and schema stay, no hook runs,
    and the listeners hear "reset" and "change". *)
Theorem X22_deleteAll_empties (db : DarkDB) :
  exists db',
    Db.deleteAll db = (Ok true, db')
    /\ (forall now, Db.all now db' = (Ok (VObj []), db'))
    /\ (forall key keys now,
          Db._resolvePath (separator db) key = Ok keys -> keys <> [] ->
          own_path keys = true ->
          Db.get key now db' = (Ok VUndef, db'))
    /\ (forall key now, Db.ttl key now db' = (Ok (-1), db'))
    /\ (forall query, IndexManager.search (_indexManager db') query = [])
    /\ _hooks db' = _hooks db /\ schema db' = schema db
    /\ trace db' = (trace db ++ emit_events "reset" (VObj []) (VObj [])
                          ++ save_events db)%list.
Proof.
  eexists. split; [apply deleteAll_run|].
  match goal with |- context [Db.all _ ?d] => set (db' := d) end.
  assert (Hidle : forall now, none_expired db' now)
    by (intros now k e []).
  split; [|split; [|split; [|split]]].
  - intros now. unfold Db.all, bind at 1.
    rewrite (@cleanup_idle now db' (Hidle now)). reflexivity.
  - intros key keys now Hk Hne _. rewrite (@get_idle key now db' (Hidle now)).
    rewrite (@getSync_eq key keys db' Hk).
    destruct keys as [|k rest]; [congruence|]. reflexivity.
  - intros key now. reflexivity.
  - intros query. unfold IndexManager.search.
    destruct (IndexManager.tokens query); reflexivity.
  - now repeat split.
Qed.

Lemma X22_witness :
  exists db',
    Db.deleteAll Sample.with_session = (Ok true, db')
    /\ Db.get "session" 0 db' = (Ok VUndef, db')
    /\ IndexManager.search (_indexManager db') "hello" = [].
Proof.
  destruct (@X22_deleteAll_empties Sample.with_session)
    as (db' & Hd & _ & Hg & _ & Hs & _).
  exists db'. split; [exact Hd|]. split; [|apply Hs].
  apply (Hg "session" ["session"] 0);
    [reflexivity|discriminate|reflexivity].
Defined.
